(** * Dependency-aware, rate-limited, cached upgrade pipeline

    A shallow embedding of the pipeline's core modules
    ([dependency_analyzer.py], [parallel_processor.py], [chunker.py],
    [agentic_upgrader.py], [cache_manager.py]) together with the
    properties the specification states about them.

    Conventions.
    - A Python [dict] whose iteration order matters is an association
      list in insertion order; a [dict] only read by key is a [gmap].
    - A Python [set] of file paths is a [gset string]; where the code
      iterates over a set the iteration order is an arbitrary list.
    - A Python exception is a value of [pyexn]; a call that can raise
      returns [res].  Recursive Python functions take a fuel argument
      and the theorems show that the fuel the model passes is enough. *)

From Stdlib Require Import QArith Ascii.
From stdpp Require Import gmap strings pretty list fin_maps relations sorting.

Local Open Scope nat_scope.

#[global] Set Warnings "-clear-no-such-hyp".

(** ** Exceptions and results *)

Inductive pyexn : Type :=
  | RuntimeError      (* dictionary changed size during iteration *)
  | ValueError        (* list.index on a missing element, range() step 0 *)
  | IndexError        (* deque index out of range / list index out of range *)
  | KeyError          (* set.remove on a missing element *)
  | OutOfFuel.        (* the model's recursion budget, never reached *)

Inductive res (A : Type) : Type :=
  | Ok (a : A)
  | Raise (e : pyexn).
Arguments Ok {A} a.
Arguments Raise {A} e.

#[global] Instance res_ret : MRet res := λ A a, Ok a.
#[global] Instance res_bind : MBind res := λ A B k r,
  match r with
  | Ok a => k a
  | Raise e => Raise e
  end.

(** ** dependency_analyzer.py *)

Module DependencyAnalyzer.

(** A file path. *)
Definition node : Type := string.

(** [self.dependency_graph], a [defaultdict(set)]: keys in insertion
    order, each with its set of dependencies in the order Python
    iterates over it. *)
Definition graph : Type := list (node * list node).

Definition keys (g : graph) : list node := g.*1.

Fixpoint graph_get (g : graph) (x : node) : option (list node) :=
  match g with
  | [] => None
  | (k, ds) :: g' => if decide (k = x) then Some ds else graph_get g' x
  end.

(** [self.dependency_graph[x]]: the stored set, or a fresh empty set
    that the defaultdict also inserts under [x]. *)
Definition getitem (g : graph) (x : node) : list node * graph :=
  match graph_get g x with
  | Some ds => (ds, g)
  | None => ([], g ++ [(x, [])])
  end.

(** The set read by [self.dependency_graph[x]]. *)
Definition deps (g : graph) (x : node) : list node := (getitem g x).1.

(** [a] depends on [b]. *)
Definition edge (g : graph) (a b : node) : Prop := b ∈ deps g a.

Definition acyclic (g : graph) : Prop := ∀ x, ¬ tc (edge g) x x.

Definition has_cycle (g : graph) : Prop := ∃ x, tc (edge g) x x.

(** Every node the graph mentions. *)
Definition nodes (g : graph) : gset node :=
  list_to_set (keys g) ∪ list_to_set (concat (g.*2)).

(** *** analyze_repository

    [_get_module_name] turns a path into a module name and
    [_extract_imports] reads the module names a file imports; the
    graph is built the same way whatever they return. *)

Section analyze_repository.
Variable _get_module_name : node → string.
Variable _extract_imports : node → list string.

(** First pass: [self.module_to_file]. *)
Definition module_to_file (python_files : list node) : gmap string node :=
  foldl (λ m file_path, <[_get_module_name file_path := file_path]> m)
    ∅ python_files.

(** [self.dependency_graph[x].add(d)] *)
Fixpoint graph_add (g : graph) (x d : node) : graph :=
  match g with
  | [] => [(x, [d])]
  | (k, ds) :: g' =>
      if decide (k = x)
      then (k, if decide (d ∈ ds) then ds else ds ++ [d]) :: g'
      else (k, ds) :: graph_add g' x d
  end.

(** Third pass, for one file. *)
Definition add_imports (m : gmap string node) (g : graph) (file_path : node)
    : graph :=
  foldl (λ g imp,
           match m !! imp with
           | Some dependency_file =>
               if decide (dependency_file ≠ file_path)
               then graph_add g file_path dependency_file
               else g
           | None => g
           end)
    g (_extract_imports file_path).

(** The dependency graph [analyze_repository] leaves behind. *)
Definition analyze_repository (python_files : list node) : graph :=
  foldl (add_imports (module_to_file python_files)) [] python_files.
End analyze_repository.

(** *** get_dependency_levels *)

(** [max(levels.values()) + 1 if levels else 0] *)
Definition max_value (levels : gmap node nat) : nat :=
  max_list ((map_to_list levels).*2).

Definition cycle_break (levels : gmap node nat) : nat :=
  if decide (levels = ∅) then 0 else max_value levels + 1.

(** [max(get_level(dep, visiting.copy()) for dep in deps)]: the calls
    run in iteration order and share the [levels] dictionary. *)
Fixpoint max_over (rec : node → gmap node nat → res (nat * gmap node nat))
    (ds : list node) (levels : gmap node nat) : res (nat * gmap node nat) :=
  match ds with
  | [] => Ok (0, levels)
  | d :: ds' =>
      '(l, levels1) ← rec d levels ;
      '(m, levels2) ← max_over rec ds' levels1 ;
      Ok (l `max` m, levels2)
  end.

(** The inner [get_level(file_path, visiting)]; [levels] is the
    dictionary of the enclosing call, threaded through.  The read
    [self.dependency_graph[file_path]] may insert an empty set under a
    new key, which changes no later read ([deps_getitem]). *)
Fixpoint get_level (fuel : nat) (g : graph) (levels : gmap node nat)
    (file_path : node) (visiting : gset node) : res (nat * gmap node nat) :=
  match fuel with
  | O => Raise OutOfFuel
  | S fuel' =>
      match levels !! file_path with
      | Some l => Ok (l, levels)
      | None =>
          if decide (file_path ∈ visiting) then Ok (cycle_break levels, levels)
          else
            let visiting := {[file_path]} ∪ visiting in
            match deps g file_path with
            | [] => Ok (0, <[file_path := 0]> levels)
            | ds =>
                '(m, levels') ←
                  max_over (λ dep lv, get_level fuel' g lv dep visiting) ds levels ;
                Ok (m + 1, <[file_path := m + 1]> levels')
            end
      end
  end.

(** [for file_path in self.file_imports.keys(): get_level(file_path, set())] *)
Fixpoint levels_loop (fuel : nat) (g : graph) (files : list node)
    (levels : gmap node nat) : res (gmap node nat) :=
  match files with
  | [] => Ok levels
  | f :: files' =>
      '(_, levels') ← get_level fuel g levels f ∅ ;
      levels_loop fuel g files' levels'
  end.

(** [files] is [self.file_imports.keys()], the analysed files. *)
Definition get_dependency_levels (g : graph) (files : list node)
    : res (gmap node nat) :=
  levels_loop (S (size (nodes g ∪ list_to_set files))) g files ∅.


(** *** _detect_cycles *)

(** The closure variables of [_detect_cycles] together with the
    dictionary its reads may extend. *)
Record dfs_state : Type := DfsState {
  dependency_graph : graph;
  visited : gset node;
  rec_stack : gset node;
  cycles : list (list node)
}.

(** [path.index(x)] *)
Fixpoint index (x : node) (path : list node) : res nat :=
  match path with
  | [] => Raise ValueError
  | y :: path' => if decide (y = x) then Ok 0 else i ← index x path'; Ok (S i)
  end.

(** [cycles.append(path[cycle_start:] + [neighbor])] *)
Definition add_cycle (path : list node) (neighbor : node) (cycle_start : nat)
    (st : dfs_state) : dfs_state :=
  DfsState (dependency_graph st) (visited st) (rec_stack st)
    (cycles st ++ [drop cycle_start path ++ [neighbor]]).

(** The body of [for neighbor in self.dependency_graph[node]]; [rec] is
    the recursive call [dfs(neighbor, path[:])]. *)
Fixpoint for_neighbors (rec : node → list node → dfs_state → res dfs_state)
    (path : list node) (ns : list node) (st : dfs_state) : res dfs_state :=
  match ns with
  | [] => Ok st
  | neighbor :: ns' =>
      st' ← (if decide (neighbor ∉ visited st) then rec neighbor path st
             else if decide (neighbor ∈ rec_stack st) then
               cycle_start ← index neighbor path;
               Ok (add_cycle path neighbor cycle_start st)
             else Ok st);
      for_neighbors rec path ns' st'
  end.

Fixpoint dfs (fuel : nat) (x : node) (path : list node) (st : dfs_state)
    : res dfs_state :=
  match fuel with
  | O => Raise OutOfFuel
  | S fuel' =>
      let path := path ++ [x] in
      let '(neighbors, g') := getitem (dependency_graph st) x in
      let st1 := DfsState g' ({[x]} ∪ visited st) ({[x]} ∪ rec_stack st)
                   (cycles st) in
      st2 ← for_neighbors (dfs fuel') path neighbors st1;
      if decide (x ∈ rec_stack st2)
      then Ok (DfsState (dependency_graph st2) (visited st2)
                 (rec_stack st2 ∖ {[x]}) (cycles st2))
      else Raise KeyError
  end.

(** [for file_path in self.dependency_graph.keys()]: the key iterator
    walks the entries present when the loop starts and, each time it is
    asked for the next key (also the last time, when none is left),
    raises once the dictionary has another size than at the start. *)
Fixpoint cycles_loop (fuel size0 : nat) (ks : list node) (st : dfs_state)
    : res dfs_state :=
  if decide (length (dependency_graph st) = size0) then
    match ks with
    | [] => Ok st
    | file_path :: ks' =>
        st' ← (if decide (file_path ∉ visited st) then dfs fuel file_path [] st
               else Ok st);
        cycles_loop fuel size0 ks' st'
    end
  else Raise RuntimeError.

Definition _detect_cycles (g : graph) : res (list (list node)) :=
  st ← cycles_loop (S (size (nodes g))) (length g) (keys g)
         (DfsState g ∅ ∅ []);
  Ok (cycles st).

(** Every file the graph mentions has an entry of its own, so that no
    read of the defaultdict inserts a key. *)
Definition all_keyed (g : graph) : Prop := ∀ x, x ∈ nodes g → x ∈ keys g.

(** *** Facts about the graph *)

Lemma graph_get_Some g x ds : graph_get g x = Some ds → (x, ds) ∈ g.
Proof.
  induction g as [|[k es] g IH]; simpl; [done|].
  case_decide; intros; simplify_eq; [left | right; auto].
Qed.

Lemma graph_get_None g x : graph_get g x = None → x ∉ keys g.
Proof.
  induction g as [|[k es] g IH]; simpl; [set_solver|].
  case_decide; [done|]. intros. unfold keys in *. set_solver.
Qed.

Lemma deps_cons_key g x d ds : deps g x = d :: ds → (x, d :: ds) ∈ g.
Proof.
  unfold deps, getitem. destruct (graph_get g x) eqn:E; simpl; [|done].
  intros ->. by apply graph_get_Some.
Qed.

Lemma edge_key g a b : edge g a b → a ∈ keys g.
Proof.
  unfold edge. destruct (deps g a) eqn:E; [by intros ?%elem_of_nil|].
  intros _. apply deps_cons_key in E. unfold keys.
  apply list_elem_of_fmap. by exists (a, n :: l).
Qed.

Lemma edge_nodes g a b : edge g a b → a ∈ nodes g ∧ b ∈ nodes g.
Proof.
  intros H. split.
  - apply edge_key in H. unfold nodes. set_solver.
  - unfold edge in H. destruct (deps g a) eqn:E; [by apply elem_of_nil in H|].
    apply deps_cons_key in E. unfold nodes.
    apply elem_of_union_r, elem_of_list_to_set, list_elem_of_In, in_concat.
    exists (n :: l). split; [|by apply list_elem_of_In].
    apply list_elem_of_In, list_elem_of_fmap. by exists (a, n :: l).
Qed.

(** The key a defaultdict read inserts does not change what any read
    returns. *)
Lemma deps_getitem g y x : deps (getitem g y).2 x = deps g x.
Proof.
  unfold deps, getitem. destruct (graph_get g y) eqn:Ey; simpl; [done|].
  assert (H : graph_get (g ++ [(y, [])]) x
              = match graph_get g x with Some ds => Some ds | None =>
                  if decide (y = x) then Some [] else None end).
  { clear Ey. induction g as [|[k es] g IH]; simpl; [done|].
    by destruct (decide (k = x)). }
  rewrite H. destruct (graph_get g x); [done|]. by case_decide.
Qed.

(** *** The graph [analyze_repository] builds

    Its edges run between analysed files, and no file depends on
    itself. *)

Section analyze_repository_facts.
Variable _get_module_name : node → string.
Variable _extract_imports : node → list string.

Lemma graph_get_add g x d a :
  graph_get (graph_add g x d) a =
  if decide (a = x)
  then Some (match graph_get g x with
             | Some ds => if decide (d ∈ ds) then ds else ds ++ [d]
             | None => [d]
             end)
  else graph_get g a.
Proof.
  induction g as [|[k ds] g IH]; simpl.
  - repeat case_decide; by simplify_eq.
  - destruct (decide (k = x)) as [->|Hkx]; simpl.
    + repeat case_decide; by simplify_eq.
    + rewrite IH. repeat case_decide; by simplify_eq.
Qed.

Lemma edge_graph_add g x d a b :
  edge (graph_add g x d) a b → edge g a b ∨ (a = x ∧ b = d).
Proof.
  unfold edge, deps, getitem. rewrite graph_get_add.
  destruct (decide (a = x)) as [->|Hne]; simpl;
    [|destruct (graph_get g a); by left].
  destruct (graph_get g x) as [ds|]; simpl.
  - case_decide; [by left|]. rewrite elem_of_app, list_elem_of_singleton.
    intros [?|?]; [by left|by right].
  - rewrite list_elem_of_singleton. by right.
Qed.

Lemma module_to_file_elem python_files imp f :
  module_to_file _get_module_name python_files !! imp = Some f →
  f ∈ python_files.
Proof.
  unfold module_to_file.
  assert (∀ files (m : gmap string node),
    (∀ k v, m !! k = Some v → v ∈ python_files) → files ⊆ python_files →
    foldl (λ m file_path, <[_get_module_name file_path := file_path]> m)
      m files !! imp = Some f → f ∈ python_files) as Hgen.
  { induction files as [|x files IH]; intros m Hm Hsub; simpl.
    - apply Hm.
    - apply IH; [|set_solver]. intros k v.
      destruct (decide (_get_module_name x = k)) as [<-|Hne].
      + rewrite lookup_insert_eq. intros [= <-]. set_solver.
      + rewrite lookup_insert_ne by done. apply Hm. }
  apply Hgen; [|done]. intros k v. by rewrite lookup_empty.
Qed.

Lemma analyze_repository_edges python_files a b :
  edge (analyze_repository _get_module_name _extract_imports python_files) a b →
  a ∈ python_files ∧ b ∈ python_files ∧ a ≠ b.
Proof.
  unfold analyze_repository.
  set (m := module_to_file _get_module_name python_files).
  set (P := λ a b : node, a ∈ python_files ∧ b ∈ python_files ∧ a ≠ b).
  assert (∀ imps g f, f ∈ python_files → (∀ a b, edge g a b → P a b) →
    ∀ a b, edge (foldl (λ g imp,
           match m !! imp with
           | Some dependency_file =>
               if decide (dependency_file ≠ f)
               then graph_add g f dependency_file
               else g
           | None => g
           end) g imps) a b → P a b) as Hinner.
  { induction imps as [|imp imps IH]; intros g f Hf Hg; simpl; [done|].
    apply IH; [done|]. intros a' b'.
    destruct (m !! imp) as [dep|] eqn:Em; [|by apply Hg].
    case_decide as Hne; [|by apply Hg].
    intros [?|[-> ->]]%edge_graph_add; [by apply Hg|].
    split_and!; [done| |done]. by eapply module_to_file_elem. }
  assert (∀ files g, files ⊆ python_files → (∀ a b, edge g a b → P a b) →
    ∀ a b, edge (foldl (add_imports _extract_imports m) g files) a b → P a b)
    as Houter.
  { induction files as [|f files IH]; intros g Hsub Hg; simpl; [done|].
    apply IH; [set_solver|]. unfold add_imports. apply Hinner; [set_solver|done]. }
  apply Houter; [done|]. intros a' b' Hab. unfold edge in Hab. simpl in Hab.
  by apply elem_of_nil in Hab.
Qed.
End analyze_repository_facts.

(** *** Termination of [get_level] *)

Lemma max_over_total rec ds :
  (∀ d lv, d ∈ ds → ∃ r, rec d lv = Ok r) →
  ∀ lv, ∃ r, max_over rec ds lv = Ok r.
Proof.
  induction ds as [|d ds IH]; intros Hrec lv; simpl; [eauto|].
  destruct (Hrec d lv) as [[l lv1] ->]; [left|]. simpl.
  destruct (IH (λ d' lv' H, Hrec d' lv' (list_elem_of_further _ _ _ H)) lv1)
    as [[m lv2] ->].
  simpl. eauto.
Qed.

Lemma get_level_unfold fuel g levels x visiting :
  get_level (S fuel) g levels x visiting =
  match levels !! x with
  | Some l => Ok (l, levels)
  | None =>
      if decide (x ∈ visiting) then Ok (cycle_break levels, levels)
      else
        match deps g x with
        | [] => Ok (0, <[x := 0]> levels)
        | d :: ds =>
            '(m, levels') ←
              max_over (λ dep lv, get_level fuel g lv dep ({[x]} ∪ visiting))
                (d :: ds) levels ;
            Ok (m + 1, <[x := m + 1]> levels')
        end
  end.
Proof. reflexivity. Qed.

Lemma get_level_total (g : graph) (U : gset node) :
  (∀ a b, a ∈ U → edge g a b → b ∈ U) →
  ∀ fuel levels x visiting,
    x ∈ U → size (U ∖ visiting) < fuel →
    ∃ r, get_level fuel g levels x visiting = Ok r.
Proof.
  intros HU. induction fuel as [|fuel IH]; intros levels x visiting Hx Hsz;
    [lia|].
  rewrite get_level_unfold. destruct (levels !! x); [eauto|].
  case_decide; [eauto|].
  destruct (deps g x) as [|d ds] eqn:E; [eauto|].
  destruct (max_over_total
    (λ dep lv, get_level fuel g lv dep ({[x]} ∪ visiting)) (d :: ds)) with
    (lv := levels) as [[m lv'] Hm].
  - intros d' lv Hd'. apply IH.
    + apply (HU x); [done|]. unfold edge. by rewrite E.
    + assert (U ∖ ({[x]} ∪ visiting) ⊂ U ∖ visiting) as Hlt by set_solver.
      apply subset_size in Hlt. lia.
  - rewrite Hm. simpl. eauto.
Qed.

(** *** What a call of [get_level] changes, on any graph *)

(** A call only adds entries to [levels], never under a file that is
    being visited, and records its answer unless the file itself is
    being visited. *)
Definition extends (V : gset node) (lv lv' : gmap node nat) : Prop :=
  lv ⊆ lv' ∧ ∀ y, y ∈ V → lv' !! y = lv !! y.

Lemma extends_trans V lv1 lv2 lv3 :
  extends V lv1 lv2 → extends V lv2 lv3 → extends V lv1 lv3.
Proof.
  intros [S1 E1] [S2 E2]. split; [by etrans|].
  intros y Hy. by rewrite E2, E1.
Qed.

Lemma max_over_extends rec V ds :
  (∀ d lv l lv', d ∈ ds → rec d lv = Ok (l, lv') → extends V lv lv') →
  ∀ lv m lv', max_over rec ds lv = Ok (m, lv') → extends V lv lv'.
Proof.
  induction ds as [|d ds IH]; intros Hrec lv m lv'; simpl.
  - intros [= _ <-]. by split.
  - destruct (rec d lv) as [[l lv1]|] eqn:E1; simpl; [|done].
    destruct (max_over rec ds lv1) as [[m' lv2]|] eqn:E2; simpl; [|done].
    intros [= _ <-]. eapply extends_trans.
    + eapply Hrec; [left|done].
    + eapply IH; [|done]. intros. eapply Hrec; [by right|done].
Qed.

Lemma get_level_extends g fuel :
  ∀ levels x visiting l levels',
    get_level fuel g levels x visiting = Ok (l, levels') →
    extends visiting levels levels' ∧ (x ∉ visiting → levels' !! x = Some l).
Proof.
  induction fuel as [|fuel IH]; intros levels x visiting l levels'; [done|].
  rewrite get_level_unfold. destruct (levels !! x) as [l0|] eqn:Ex.
  { intros [= <- <-]. by unfold extends; split_and!. }
  case_decide as Hv.
  { intros [= <- <-]. by unfold extends; split_and!. }
  destruct (deps g x) as [|d ds] eqn:E.
  { intros [= <- <-]. unfold extends; split_and!.
    - by apply insert_subseteq.
    - intros y Hy. rewrite lookup_insert_ne; [done|]. by intros ->.
    - intros _. by rewrite lookup_insert_eq. }
  destruct (max_over _ _ _) as [[m lv']|] eqn:Em; simpl; [|done].
  intros [= <- <-].
  apply max_over_extends with (V := {[x]} ∪ visiting) in Em as [Hsub Heq].
  2:{ intros d' lv l' lv'' _ Hcall. by apply IH in Hcall as [? _]. }
  assert (lv' !! x = None) as Hx by (rewrite Heq; [done|set_solver]).
  unfold extends; split_and!.
  - etrans; [done|]. by apply insert_subseteq.
  - intros y Hy. rewrite lookup_insert_ne; [|by intros ->].
    apply Heq. set_solver.
  - intros _. by rewrite lookup_insert_eq.
Qed.

Lemma levels_loop_total (g : graph) (U : gset node) fuel :
  (∀ a b, a ∈ U → edge g a b → b ∈ U) → size U < fuel →
  ∀ files levels, (∀ f, f ∈ files → f ∈ U) →
    ∃ levels', levels_loop fuel g files levels = Ok levels' ∧
      levels ⊆ levels' ∧ ∀ f, f ∈ files → is_Some (levels' !! f).
Proof.
  intros HU Hsz. induction files as [|f files IH]; intros levels Hin; simpl.
  { eexists. split_and!; [done..|]. by intros f ?%elem_of_nil. }
  destruct (get_level_total g U HU fuel levels f ∅) as [[l lv1] Hcall].
  { apply Hin. left. }
  { replace (U ∖ ∅) with U by set_solver. done. }
  rewrite Hcall. simpl.
  apply get_level_extends in Hcall as [[Hsub _] Hf].
  destruct (IH lv1) as (lv2 & -> & Hsub2 & Hall).
  { intros. apply Hin. by right. }
  eexists. split_and!; [done|by etrans|].
  intros f' [->|Hf']%elem_of_cons; [|by apply Hall].
  exists l. eapply lookup_weaken; [|done]. apply Hf. set_solver.
Qed.

Lemma nodes_closed g files a b :
  a ∈ nodes g ∪ list_to_set files → edge g a b →
  b ∈ nodes g ∪ list_to_set files.
Proof. intros _ H%edge_nodes. set_solver. Qed.

(** *** The level invariant on graphs without cycles *)

(** Every file that has a level lies strictly above each of its
    dependencies, and at level 0 when it has none. *)
Definition good (g : graph) (levels : gmap node nat) : Prop :=
  ∀ a la, levels !! a = Some la →
    (deps g a = [] → la = 0) ∧
    ∀ b, edge g a b → ∃ lb, levels !! b = Some lb ∧ lb < la.

(** What one call on an acyclic graph guarantees. *)
Definition call_post (g : graph) (x : node) (lv : gmap node nat)
    (l : nat) (lv' : gmap node nat) : Prop :=
  lv ⊆ lv' ∧ good g lv' ∧ lv' !! x = Some l ∧
  ∀ y, is_Some (lv' !! y) → is_Some (lv !! y) ∨ rtc (edge g) x y.

Lemma max_over_good g rec ds :
  (∀ d lv l lv', d ∈ ds → good g lv → rec d lv = Ok (l, lv') →
     call_post g d lv l lv') →
  ∀ lv m lv', good g lv → max_over rec ds lv = Ok (m, lv') →
    lv ⊆ lv' ∧ good g lv' ∧
    (∀ d, d ∈ ds → ∃ ld, lv' !! d = Some ld ∧ ld ≤ m) ∧
    ∀ y, is_Some (lv' !! y) →
      is_Some (lv !! y) ∨ ∃ d, d ∈ ds ∧ rtc (edge g) d y.
Proof.
  induction ds as [|d ds IH]; intros Hrec lv m lv' Hgood; simpl.
  - intros [= <- <-]. split_and!; [done|done| |by left].
    by intros d ?%elem_of_nil.
  - destruct (rec d lv) as [[l lv1]|] eqn:E1; simpl; [|done].
    destruct (max_over rec ds lv1) as [[m' lv2]|] eqn:E2; simpl; [|done].
    intros [= <- <-].
    apply Hrec in E1 as (S1 & G1 & L1 & D1); [|left|done].
    apply IH in E2 as (S2 & G2 & L2 & D2); [| |done].
    2:{ intros. eapply Hrec; [by right|done..]. }
    split_and!; [by etrans|done| |].
    + intros d' [->|Hd']%elem_of_cons.
      * exists l. split; [by eapply lookup_weaken|lia].
      * destruct (L2 d' Hd') as (ld & ? & ?). exists ld. split; [done|lia].
    + intros y Hy. destruct (D2 y Hy) as [Hy1|(d' & ? & ?)].
      * destruct (D1 y Hy1) as [?|?]; [by left|].
        right. exists d. split; [left|done].
      * right. exists d'. split; [by right|done].
Qed.

Lemma get_level_good g (Hac : acyclic g) fuel :
  ∀ levels x visiting l levels',
    good g levels → (∀ v, v ∈ visiting → tc (edge g) v x) →
    get_level fuel g levels x visiting = Ok (l, levels') →
    call_post g x levels l levels'.
Proof.
  induction fuel as [|fuel IH]; intros levels x visiting l levels' Hgood Hvis;
    [done|].
  rewrite get_level_unfold. destruct (levels !! x) as [l0|] eqn:Ex.
  { intros [= <- <-]. unfold call_post; split_and!; [done..|by left]. }
  case_decide as Hv.
  { by apply Hvis, Hac in Hv. }
  destruct (deps g x) as [|d ds] eqn:E.
  { intros [= <- <-]. unfold call_post; split_and!.
    - by apply insert_subseteq.
    - intros a la. destruct (decide (a = x)) as [->|Hne].
      + rewrite lookup_insert_eq. intros [= <-]. split; [done|].
        intros b Hb. unfold edge in Hb. rewrite E in Hb.
        by apply elem_of_nil in Hb.
      + rewrite lookup_insert_ne by done. intros Ha.
        destruct (Hgood a la Ha) as [H0 Hd]. split; [done|].
        intros b Hb. destruct (Hd b Hb) as (lb & Hlb & ?).
        exists lb. split; [|done]. rewrite lookup_insert_ne; [done|].
        intros ->. congruence.
    - by rewrite lookup_insert_eq.
    - intros y. destruct (decide (y = x)) as [->|Hne]; [by right|].
      rewrite lookup_insert_ne by done. by left. }
  destruct (max_over _ _ _) as [[m lv']|] eqn:Em; simpl; [|done].
  intros [= <- <-].
  apply max_over_good with (g := g) in Em as (Hsub & Hg & Hle & Hdom);
    [| |done].
  2:{ intros d' lv l' lv'' Hd' Hglv Hcall. eapply IH; [done| |done].
      assert (edge g x d') by (unfold edge; by rewrite E).
      intros v [->%elem_of_singleton|Hv']%elem_of_union.
      - by apply tc_once.
      - eapply tc_r; [by apply Hvis|done]. }
  assert (lv' !! x = None) as Hx.
  { destruct (lv' !! x) eqn:Ex'; [|done].
    destruct (Hdom x) as [[? ?]|(d' & Hd' & Hreach)]; [done|congruence|].
    exfalso. apply (Hac x). eapply tc_rtc_r; [|done].
    apply tc_once. unfold edge. by rewrite E. }
  unfold call_post; split_and!.
  - etrans; [done|]. by apply insert_subseteq.
  - intros a la. destruct (decide (a = x)) as [->|Hne].
    + rewrite lookup_insert_eq. intros [= <-]. split; [by rewrite E|].
      intros b Hb. unfold edge in Hb. rewrite E in Hb.
      destruct (Hle b Hb) as (lb & Hlb & ?). exists lb. split; [|lia].
      rewrite lookup_insert_ne; [done|]. intros ->. congruence.
    + rewrite lookup_insert_ne by done. intros Ha.
      destruct (Hg a la Ha) as [H0 Hd]. split; [done|].
      intros b Hb. destruct (Hd b Hb) as (lb & Hlb & ?).
      exists lb. split; [|done]. rewrite lookup_insert_ne; [done|].
      intros ->. congruence.
  - by rewrite lookup_insert_eq.
  - intros y. destruct (decide (y = x)) as [->|Hne]; [by right|].
    rewrite lookup_insert_ne by done. intros Hy.
    destruct (Hdom y Hy) as [?|(d' & Hd' & Hreach)]; [by left|].
    right. eapply rtc_l; [|done]. unfold edge. by rewrite E.
Qed.

Lemma levels_loop_good g (Hac : acyclic g) fuel :
  ∀ files levels levels',
    good g levels → levels_loop fuel g files levels = Ok levels' →
    good g levels'.
Proof.
  induction files as [|f files IH]; intros levels levels' Hgood; simpl.
  { by intros [= <-]. }
  destruct (get_level fuel g levels f ∅) as [[l lv1]|] eqn:E; simpl; [|done].
  apply get_level_good in E as (_ & Hg1 & _); [|done..|set_solver].
  by apply IH.
Qed.

Lemma good_empty g : good g ∅.
Proof. intros a la. by rewrite lookup_empty. Qed.

(** *** Cycle detection finds a cycle when there is one *)

Section detect_cycles.
Variable g : graph.
Hypothesis Hkeyed : all_keyed g.

Lemma getitem_keyed x : x ∈ keys g → getitem g x = (deps g x, g).
Proof.
  intros Hx. unfold deps, getitem.
  destruct (graph_get g x) eqn:E; [done|]. by apply graph_get_None in E.
Qed.

(** A file is finished when its [dfs] call has returned. *)
Definition finished (st : dfs_state) (a : node) : Prop :=
  a ∈ visited st ∧ a ∉ rec_stack st.

(** As long as no cycle has been recorded, the finished files are
    closed under dependencies and lie on no cycle. *)
Definition finished_ok (st : dfs_state) : Prop :=
  cycles st = [] →
  (∀ a b, finished st a → edge g a b → finished st b) ∧
  (∀ a, finished st a → ¬ tc (edge g) a a).

Definition dfs_inv (st : dfs_state) : Prop :=
  dependency_graph st = g ∧ rec_stack st ⊆ visited st ∧ finished_ok st.

Definition dfs_post (st : dfs_state) (x : node) (st' : dfs_state) : Prop :=
  dfs_inv st' ∧ visited st ⊆ visited st' ∧ x ∈ visited st' ∧
  rec_stack st' = rec_stack st ∧ (cycles st ≠ [] → cycles st' ≠ []).

Definition dfs_pre (fuel : nat) (path : list node) (st : dfs_state) : Prop :=
  dfs_inv st ∧ (∀ z, z ∈ rec_stack st → z ∈ path) ∧
  size (list_to_set (keys g) ∖ visited st : gset node) < fuel.

Lemma closed_rtc (P : node → Prop) a b :
  (∀ a b, P a → edge g a b → P b) → P a → rtc (edge g) a b → P b.
Proof. intros HP Ha Hr. induction Hr; eauto. Qed.

Lemma index_total x path : x ∈ path → ∃ i, index x path = Ok i.
Proof.
  induction path as [|y path IH]; [by intros ?%elem_of_nil|].
  simpl. case_decide; [eauto|].
  intros [->|Hin]%elem_of_cons; [done|].
  destruct (IH Hin) as [i ->]. simpl. eauto.
Qed.

Lemma for_neighbors_spec rec fuel x path :
  (∀ n st, dfs_pre fuel path st → n ∈ keys g → n ∉ visited st →
     ∃ st', rec n path st = Ok st' ∧ dfs_post st n st') →
  ∀ ns st,
    dfs_pre fuel path st → (∀ n, n ∈ ns → edge g x n) →
    ∃ st', for_neighbors rec path ns st = Ok st' ∧
      dfs_inv st' ∧ visited st ⊆ visited st' ∧
      rec_stack st' = rec_stack st ∧ (cycles st ≠ [] → cycles st' ≠ []) ∧
      (cycles st' = [] → ∀ n, n ∈ ns → finished st' n).
Proof.
  intros Hrec. induction ns as [|n ns IH]; intros st Hpre Hns; simpl.
  { exists st. destruct Hpre as (? & ? & ?). split_and!; try done.
    by intros _ n ?%elem_of_nil. }
  assert (∃ st1, (if decide (n ∉ visited st) then rec n path st
           else if decide (n ∈ rec_stack st) then
             cycle_start ← index n path;
             Ok (add_cycle path n cycle_start st)
           else Ok st) = Ok st1 ∧ dfs_inv st1 ∧ visited st ⊆ visited st1 ∧
           rec_stack st1 = rec_stack st ∧ (cycles st ≠ [] → cycles st1 ≠ []) ∧
           (cycles st1 = [] → finished st1 n)) as (st1 & -> & Hinv1 & Hv1 & Hr1 & Hc1 & Hf1).
  { destruct Hpre as ((Hg & Hsub & Hfin) & Hpath & Hsz).
    case_decide as Hvis.
    - destruct (Hrec n st) as (st1 & -> & Hinv1 & Hv1 & Hn1 & Hr1 & Hc1);
        [done| |done|].
      { apply Hkeyed. apply (edge_nodes g x n). apply Hns. left. }
      exists st1. split_and!; try done.
      intros _. split; [done|]. rewrite Hr1. set_solver.
    - case_decide as Hrs.
      + destruct (index_total n path) as [i ->]; [by apply Hpath|]. simpl.
        eexists. split; [done|]. unfold add_cycle; simpl.
        split_and!; try done.
        * split_and!; try done. intros Hnil; simpl in Hnil.
          by apply app_eq_nil in Hnil as [_ ?].
        * intros _ Hnil. by apply app_eq_nil in Hnil as [_ ?].
        * intros Hnil. by apply app_eq_nil in Hnil as [_ ?].
      + exists st. by split_and!. }
  simpl.
  destruct (IH st1) as (st2 & -> & Hinv2 & Hv2 & Hr2 & Hc2 & Hf2).
  { destruct Hpre as (_ & Hpath & Hsz). split_and!; [done| |].
    - intros z. rewrite Hr1. apply Hpath.
    - eapply Nat.le_lt_trans; [|done]. apply subseteq_size. set_solver. }
  { intros. apply Hns. by right. }
  exists st2. split_and!; try done.
  - set_solver.
  - congruence.
  - auto.
  - intros Hnil n' [->|Hn']%elem_of_cons; [|by apply Hf2].
    destruct (decide (cycles st1 = [])) as [Hnil1|Hne]; [|by apply Hc2 in Hne].
    destruct (Hf1 Hnil1) as [? ?]. split; [set_solver|]. by rewrite Hr2.
Qed.

Lemma dfs_spec fuel :
  ∀ x path st,
    dfs_pre fuel path st → x ∈ keys g → x ∉ visited st →
    ∃ st', dfs fuel x path st = Ok st' ∧ dfs_post st x st'.
Proof.
  induction fuel as [|fuel IH]; intros x path st (Hinv & Hpath & Hsz) Hx Hnv;
    [lia|].
  destruct Hinv as (Hg & Hsub & Hfin). simpl.
  rewrite Hg, getitem_keyed by done.
  set (st1 := DfsState g ({[x]} ∪ visited st) ({[x]} ∪ rec_stack st) (cycles st)).
  assert (x ∉ rec_stack st) as Hnr by set_solver.
  destruct (for_neighbors_spec (dfs fuel) fuel x (path ++ [x])) with
    (ns := deps g x) (st := st1)
    as (st2 & -> & Hinv2 & Hv2 & Hr2 & Hc2 & Hf2).
  - intros n st' Hpre' Hn Hnv'. by apply IH.
  - split_and!.
    + split_and!; [done|set_solver|]. intros Hnil. simpl in Hnil.
      destruct (Hfin Hnil) as [Hcl Hnc]. unfold finished; simpl. split.
      * intros a b [Ha Hna] Hab.
        destruct (Hcl a b) as [? ?]; [split; set_solver|done|].
        split; set_solver.
      * intros a [Ha Hna]. apply Hnc. split; set_solver.
    + simpl. intros z. rewrite elem_of_app. set_solver.
    + simpl.
      assert (list_to_set (keys g) ∖ ({[x]} ∪ visited st)
                ⊂ (list_to_set (keys g) ∖ visited st : gset node)) as Hlt
        by set_solver.
      apply subset_size in Hlt. lia.
  - done.
  - simpl in *. rewrite Hr2. rewrite decide_True by set_solver.
    eexists. split; [done|].
    destruct Hinv2 as (Hg2 & Hsub2 & Hfin2).
    assert (x ∈ visited st2) by set_solver.
    unfold dfs_post, dfs_inv; simpl. split_and!; try done.
    + set_solver.
    + intros Hnil. simpl in Hnil.
      destruct (Hfin2 Hnil) as [Hcl Hnc]. specialize (Hf2 Hnil).
      assert (∀ a, finished
                (DfsState (dependency_graph st2) (visited st2)
                   (({[x]} ∪ rec_stack st) ∖ {[x]}) (cycles st2)) a
              ↔ finished st2 a ∨ a = x) as Hfin'.
      { intros a. unfold finished; simpl. rewrite Hr2.
        destruct (decide (a = x)) as [->|]; set_solver. }
      split.
      * intros a b [Ha| ->]%Hfin' Hab; apply Hfin'; left; eauto.
      * intros a [Ha| ->]%Hfin'; [by apply Hnc|].
        intros Hcyc.
        assert (∃ b, edge g x b ∧ rtc (edge g) b x) as (b & Hxb & Hbx).
        { inversion Hcyc; subst; [by exists x|].
          eexists. split; [done|]. by apply tc_rtc. }
        assert (finished st2 x) as [_ Hfx].
        { eapply closed_rtc; [apply Hcl|by apply Hf2|done]. }
        rewrite Hr2 in Hfx. set_solver.
    + set_solver.
    + set_solver.
Qed.

Lemma cycles_loop_spec fuel :
  size (list_to_set (keys g) : gset node) < fuel →
  ∀ ks st,
    dfs_inv st → rec_stack st = ∅ → (∀ k, k ∈ ks → k ∈ keys g) →
    ∃ st', cycles_loop fuel (length g) ks st = Ok st' ∧
      dfs_inv st' ∧ rec_stack st' = ∅ ∧ visited st ⊆ visited st' ∧
      ∀ k, k ∈ ks → k ∈ visited st'.
Proof.
  intros Hfuel. induction ks as [|k ks IH]; intros st Hinv Hrs Hks; simpl.
  { destruct Hinv as (Hg & ?). rewrite Hg, decide_True by done.
    exists st. split_and!; try done. by intros k ?%elem_of_nil. }
  pose proof Hinv as (Hg & _). rewrite Hg, decide_True by done.
  assert (∃ st1, (if decide (k ∉ visited st) then dfs fuel k [] st
            else Ok st) = Ok st1 ∧ dfs_inv st1 ∧ rec_stack st1 = ∅ ∧
            visited st ⊆ visited st1 ∧ k ∈ visited st1)
    as (st1 & -> & Hinv1 & Hrs1 & Hv1 & Hk1).
  { case_decide as Hv.
    - destruct (dfs_spec fuel k [] st) as (st1 & -> & Hi & Hv1 & Hk & Hr & _).
      + split_and!; [done|set_solver|].
        eapply Nat.le_lt_trans; [|done]. apply subseteq_size. set_solver.
      + apply Hks. left.
      + done.
      + exists st1. split_and!; try done. congruence.
    - exists st. by split_and!. }
  simpl. destruct (IH st1) as (st2 & -> & Hinv2 & Hrs2 & Hv2 & Hall);
    [done..| |].
  { intros. apply Hks. by right. }
  exists st2. split_and!; try done; [set_solver|].
  intros k' [->|?]%elem_of_cons; [set_solver|by apply Hall].
Qed.

Lemma detect_cycles_complete :
  has_cycle g → ∃ cs, _detect_cycles g = Ok cs ∧ cs ≠ [].
Proof.
  intros [x Hx]. unfold _detect_cycles.
  destruct (cycles_loop_spec (S (size (nodes g)))) with
    (ks := keys g) (st := DfsState g ∅ ∅ [])
    as (st' & -> & (Hg & Hsub & Hfin) & Hrs & _ & Hall).
  - apply Nat.lt_succ_r, subseteq_size. unfold nodes. set_solver.
  - split_and!; [done..|]. intros _. unfold finished; simpl. set_solver.
  - done.
  - done.
  - simpl. eexists. split; [done|]. intros Hnil.
    destruct (Hfin Hnil) as [_ Hnc]. apply (Hnc x); [|done].
    split; [|set_solver]. apply Hall.
    inversion Hx; subst; by eapply edge_key.
Qed.
End detect_cycles.

(** *** Levels on graphs with cycles *)

Lemma max_value_spec (levels : gmap node nat) :
  levels ≠ ∅ →
  ∃ y, levels !! y = Some (max_value levels) ∧
       ∀ z lz, levels !! z = Some lz → lz ≤ max_value levels.
Proof.
  intros Hne. unfold max_value.
  assert ((map_to_list levels).*2 ≠ []) as Hnn.
  { intros Hnil%fmap_nil_inv. by apply map_to_list_empty_iff in Hnil. }
  apply max_list_elem_of, list_elem_of_fmap in Hnn as ([y m] & Hm & Hy).
  simpl in Hm. exists y. split.
  - rewrite Hm. by apply elem_of_map_to_list.
  - intros z lz Hz. apply max_list_elem_of_le.
    apply list_elem_of_fmap. exists (z, lz). split; [done|].
    by apply elem_of_map_to_list.
Qed.

Lemma get_dependency_levels_total g files :
  ∃ levels, get_dependency_levels g files = Ok levels ∧
    ∀ f, f ∈ files → is_Some (levels !! f).
Proof.
  unfold get_dependency_levels.
  destruct (levels_loop_total g (nodes g ∪ list_to_set files)
              (S (size (nodes g ∪ list_to_set files)))) with
    (files := files) (levels := (∅ : gmap node nat)) as (lv & -> & _ & Hall).
  - apply nodes_closed.
  - lia.
  - set_solver.
  - eauto.
Qed.

(** The two-file cycle A -> B -> A. *)
Definition two_cycle : graph := [("A", ["B"]); ("B", ["A"])]%string.

Lemma two_cycle_has_cycle : has_cycle two_cycle.
Proof.
  exists "A"%string. apply tc_l with "B"%string; [|apply tc_once];
    unfold edge; vm_compute; left.
Qed.

Lemma two_cycle_keyed : all_keyed two_cycle.
Proof.
  intros x. unfold nodes, two_cycle, keys. simpl. set_solver.
Qed.

(** The cycle A -> B -> A where A also depends on a file C without
    dependencies: C has no entry of its own after [analyze_repository]. *)
Definition cycle_with_leaf : graph := [("A", ["B"; "C"]); ("B", ["A"])]%string.

Lemma cycle_with_leaf_has_cycle : has_cycle cycle_with_leaf.
Proof.
  exists "A"%string. apply tc_l with "B"%string; [|apply tc_once];
    unfold edge; vm_compute; left.
Qed.

(** C4, as stated, fails in two ways.  On the cycle A -> B -> A the
    file A is revisited while it is being visited and before any level
    has been assigned; the call then returns 0, which is not 1 plus any
    level, and the computed levels are B = 1 and A = 2.  On the cycle
    with a leaf the search reads [self.dependency_graph["C"]], the
    defaultdict inserts the key, and the key iteration of
    [_detect_cycles] raises instead of reporting the cycle. *)
Lemma cyclic_graph_counterexample :
  (has_cycle two_cycle ∧
   get_level 1 two_cycle ∅ "A" {["A"; "B"]} = Ok (0, ∅) ∧
   (∀ m : nat, get_level 1 two_cycle ∅ "A" {["A"; "B"]} ≠ Ok (1 + m, ∅)) ∧
   get_dependency_levels two_cycle ["A"; "B"]
     = Ok (<["A" := 2]> (<["B" := 1]> ∅))) ∧
  (has_cycle cycle_with_leaf ∧
   _detect_cycles cycle_with_leaf = Raise RuntimeError).
Proof.
  split; split_and!.
  - apply two_cycle_has_cycle.
  - reflexivity.
  - intros m. vm_compute. congruence.
  - vm_compute. reflexivity.
  - apply cycle_with_leaf_has_cycle.
  - vm_compute. reflexivity.
Qed.

(** C4, amended: on every dependency graph that contains a cycle the
    level computation terminates and gives every analysed file a level;
    a file revisited while it is being visited is not recursed into:
    the call returns at once, leaving [levels] as it is, with 0 when no
    level has been assigned yet and with 1 plus the greatest assigned
    level otherwise; and cycle detection reports at least one cycle
    when every file of the graph has an adjacency entry of its own. *)
Theorem cyclic_graph_levels_terminate (g : graph) (files : list node) :
  has_cycle g →
  (∃ levels, get_dependency_levels g files = Ok levels ∧
     ∀ f, f ∈ files → is_Some (levels !! f)) ∧
  (∀ fuel levels x visiting,
     levels !! x = None → x ∈ visiting →
     get_level (S fuel) g levels x visiting = Ok (cycle_break levels, levels) ∧
     (levels = ∅ → cycle_break levels = 0) ∧
     (levels ≠ ∅ → ∃ y m, levels !! y = Some m ∧
        (∀ z lz, levels !! z = Some lz → lz ≤ m) ∧
        cycle_break levels = 1 + m)) ∧
  (all_keyed g → ∃ cs, _detect_cycles g = Ok cs ∧ cs ≠ []).
Proof.
  intros Hcyc. split_and!.
  - apply get_dependency_levels_total.
  - intros fuel levels x visiting Hx Hv. split_and!.
    + rewrite get_level_unfold, Hx. by rewrite decide_True.
    + intros ->. reflexivity.
    + intros Hne. destruct (max_value_spec levels Hne) as (y & Hy & Hmax).
      exists y, (max_value levels). split_and!; [done..|].
      unfold cycle_break. rewrite decide_False by done. lia.
  - intros Hkeyed. by apply detect_cycles_complete.
Qed.

Lemma cyclic_graph_levels_terminate_witness :
  (∃ levels, get_dependency_levels two_cycle ["A"; "B"]%string = Ok levels ∧
     ∀ f, f ∈ ["A"; "B"]%string → is_Some (levels !! f)) ∧
  (∃ cs, _detect_cycles two_cycle = Ok cs ∧ cs ≠ []).
Proof.
  destruct (cyclic_graph_levels_terminate two_cycle ["A"; "B"]%string
              two_cycle_has_cycle) as (Hlevels & _ & Hdetect).
  exact (conj Hlevels (Hdetect two_cycle_keyed)).
Defined.

End DependencyAnalyzer.

(** ** report_generator.py: the result record *)

Module ReportGenerator.

Record FileUpgradeResult : Type := mkResult {
  file_path : string;
  success : bool;
  attempts : nat;
  api_changes : list string;
  error : option string;
  diff : option string
}.

End ReportGenerator.

(** ** parallel_processor.py *)

Module ParallelProcessor.
Import ReportGenerator.

Local Open Scope Z_scope.

(** *** RateLimiter

    Clock readings and durations are integers in a fixed unit (the
    code reads [time.time()], seconds as a float); rounding of the
    float arithmetic is not modelled. *)

Record RateLimiter : Type := mkLimiter {
  max_calls : Z;
  time_window : Z;
  calls : list Z          (* the deque, oldest first *)
}.

Definition set_calls (rl : RateLimiter) (cs : list Z) : RateLimiter :=
  mkLimiter (max_calls rl) (time_window rl) cs.

(** [while self.calls and self.calls[0] < bound: self.calls.popleft()] *)
Fixpoint prune (bound : Z) (cs : list Z) : list Z :=
  match cs with
  | [] => []
  | c :: cs' => if bool_decide (c < bound) then prune bound cs' else cs
  end.

(** [acquire], called when the clock reads [now]: the wait time and the
    limiter afterwards. *)
Definition acquire (rl : RateLimiter) (now : Z) : res (Z * RateLimiter) :=
  let cs := prune (now - time_window rl) (calls rl) in
  if bool_decide (Z.of_nat (length cs) < max_calls rl)
  then Ok (0, set_calls rl (cs ++ [now]))
  else
    match cs with
    | [] => Raise IndexError
    | oldest_call :: _ =>
        let wait_time := (oldest_call + time_window rl) - now in
        Ok (Z.max 0 wait_time, set_calls rl cs)
    end.

(** [wait_if_needed] under a simulated clock: [asyncio.sleep(wait_time)]
    advances the clock by [wait_time].  The result is the clock reading
    at which the caller goes on to make its call. *)
Definition wait_if_needed (rl : RateLimiter) (clock : Z)
    : res (Z * RateLimiter) :=
  '(wait_time, rl') ← acquire rl clock;
  Ok (if bool_decide (0 < wait_time) then clock + wait_time else clock, rl').

(** Callers that go through [wait_if_needed] one after the other, each
    [d] after the previous one was admitted: the clock readings at which
    they are admitted, and the limiter at the end. *)
Fixpoint admissions (rl : RateLimiter) (clock : Z) (delays : list Z)
    : res (list Z * RateLimiter) :=
  match delays with
  | [] => Ok ([], rl)
  | d :: delays' =>
      '(t, rl1) ← wait_if_needed rl (clock + d);
      '(ts, rl2) ← admissions rl1 t delays';
      Ok (t :: ts, rl2)
  end.

(** How many of the admissions [ts] fall in the window
    [start <= t < start + w]. *)
Definition admitted_in (ts : list Z) (start w : Z) : nat :=
  length (filter (λ t, start ≤ t < start + w) ts).

(** Timestamps not older than [bound]. *)
Definition recent (bound : Z) (cs : list Z) : list Z :=
  filter (λ t, ¬ t < bound) cs.

Local Close Scope Z_scope.

(** *** ParallelProcessor.process_batch *)

(** What happens to the task of one file: the rate limiter raises before
    the file is processed, or [process_func] returns a result, or it
    returns some other object, on which reading [result.success]
    raises an exception with the given message, or it raises an
    exception with the given message. *)
Inductive task_event : Type :=
  | LimiterRaised (msg : string)
  | FuncReturned (r : FileUpgradeResult)
  | FuncReturnedOther (msg : string)
  | FuncRaised (msg : string).

(** [self.progress] *)
Record progress : Type := mkProgress {
  completed : nat;
  total : nat;
  failed : nat
}.

(** [process_file_async]: a result, or the exception that leaves the
    coroutine ([wait_if_needed] runs outside the [try]).  When reading
    [result.success] raises, [completed] has been incremented in the
    [try] block and is incremented again in the [except] block. *)
Definition process_file_async (file_path : string) (ev : task_event)
    (p : progress) : (FileUpgradeResult + string) * progress :=
  match ev with
  | LimiterRaised msg => (inr msg, p)
  | FuncReturned result =>
      (inl result,
       mkProgress (completed p + 1) (total p)
         (if success result then failed p else failed p + 1))
  | FuncReturnedOther msg =>
      (inl (mkResult file_path false 0 [] (Some ("Processing error: " +:+ msg)) None),
       mkProgress (completed p + 1 + 1) (total p) (failed p + 1))
  | FuncRaised msg =>
      (inl (mkResult file_path false 0 [] (Some ("Processing error: " +:+ msg)) None),
       mkProgress (completed p + 1) (total p) (failed p + 1))
  end.

(** [asyncio.gather] with [return_exceptions=True]: one value
    per task, in the order of [files], whatever the order in which the
    tasks ran; [events i f] is what happens to the task at index [i]. *)
Fixpoint gather (events : nat → string → task_event) (i : nat)
    (files : list string) (p : progress)
    : list (FileUpgradeResult + string) * progress :=
  match files with
  | [] => ([], p)
  | f :: files' =>
      let '(r, p1) := process_file_async f (events i f) p in
      let '(rs, p2) := gather events (S i) files' p1 in
      (r :: rs, p2)
  end.

(** The body of [for file_path, result in zip(files, results)]. *)
Definition batch_entry (file_path : string) (result : FileUpgradeResult + string)
    : FileUpgradeResult :=
  match result with
  | inl r => r
  | inr msg => mkResult file_path false 0 [] (Some msg) None
  end.

Definition process_batch (events : nat → string → task_event)
    (files : list string) : gmap string FileUpgradeResult * progress :=
  let p0 := mkProgress 0 (length files) 0 in
  let '(results, p') := gather events 0 files p0 in
  (foldl (λ result_dict fr, <[fr.1 := batch_entry fr.1 fr.2]> result_dict)
     ∅ (zip files results),
   p').

(** *** DependencyBatchProcessor.group_by_level *)

(** The dictionary [levels] of [group_by_level], in insertion order. *)
Definition groups : Type := list (nat * list string).

(** [if level not in levels: levels[level] = []] then
    [levels[level].append(file_path)] *)
Fixpoint group_add (level : nat) (file_path : string) (levels : groups)
    : groups :=
  match levels with
  | [] => [(level, [file_path])]
  | (l, fs) :: levels' =>
      if decide (l = level) then (l, fs ++ [file_path]) :: levels'
      else (l, fs) :: group_add level file_path levels'
  end.

Definition group_by_level (dependency_levels : gmap string nat)
    (files : list string) : groups :=
  foldl (λ levels file_path,
           group_add (default 0 (dependency_levels !! file_path)) file_path levels)
    [] files.

Fixpoint group_get (level : nat) (levels : groups) : list string :=
  match levels with
  | [] => []
  | (l, fs) :: levels' => if decide (l = level) then fs else group_get level levels'
  end.

(** The batches [process_by_levels] runs, one after the other:
    [for level in sorted(grouped.keys()): level_files = grouped[level]]. *)
Definition processing_order (grouped : groups) : list (list string) :=
  (λ level, group_get level grouped) <$> merge_sort (≤) (grouped.*1).

(** [process_by_levels]: the batches of the levels run one after the
    other, each merged into [all_results] with [dict.update];
    [events level] is what happens to the tasks of that level's batch. *)
Definition process_by_levels (events : nat → nat → string → task_event)
    (dependency_levels : gmap string nat) (files : list string)
    : gmap string FileUpgradeResult :=
  let grouped := group_by_level dependency_levels files in
  foldl (λ all_results level,
           (process_batch (events level) (group_get level grouped)).1
           ∪ all_results)
    ∅ (merge_sort (≤) (grouped.*1)).

(** *** The result map of a batch *)

Definition put_entry (result_dict : gmap string FileUpgradeResult)
    (fr : string * (FileUpgradeResult + string)) : gmap string FileUpgradeResult :=
  <[fr.1 := batch_entry fr.1 fr.2]> result_dict.

Lemma put_entries_dom frs d :
  dom (foldl put_entry d frs) = dom d ∪ list_to_set frs.*1.
Proof.
  revert d. induction frs as [|[f r] frs IH]; intros d; simpl; [set_solver|].
  rewrite IH. unfold put_entry. simpl. rewrite dom_insert_L. set_solver.
Qed.

Lemma put_entries_other frs d k :
  k ∉ frs.*1 → foldl put_entry d frs !! k = d !! k.
Proof.
  revert d. induction frs as [|[f r] frs IH]; intros d Hk; simpl; [done|].
  rewrite IH by set_solver. unfold put_entry. simpl.
  rewrite lookup_insert_ne; [done|]. set_solver.
Qed.

Lemma put_entries_last frs1 frs2 d k r :
  k ∉ frs2.*1 →
  foldl put_entry d (frs1 ++ (k, r) :: frs2) !! k = Some (batch_entry k r).
Proof.
  intros Hk. rewrite foldl_app. simpl. rewrite put_entries_other by done.
  unfold put_entry at 1. simpl. by rewrite lookup_insert_eq.
Qed.

Lemma gather_length events i files p :
  length (gather events i files p).1 = length files.
Proof.
  revert i p. induction files as [|f files IH]; intros i p; simpl; [done|].
  destruct (process_file_async f (events i f) p) as [r p1].
  specialize (IH (S i) p1).
  destruct (gather events (S i) files p1) as [rs p2]. simpl in *. lia.
Qed.

Lemma gather_lookup events i files p j f :
  files !! j = Some f →
  ∃ p', (gather events i files p).1 !! j
    = Some (process_file_async f (events (i + j) f) p').1.
Proof.
  revert i p j. induction files as [|f' files IH]; intros i p j Hj; [done|].
  simpl. destruct (process_file_async f' (events i f') p) as [r p1] eqn:E1.
  specialize (IH (S i) p1).
  destruct (gather events (S i) files p1) as [rs p2]. simpl in *.
  destruct j as [|j]; simpl in *.
  - simplify_eq. exists p. by rewrite Nat.add_0_r, E1.
  - destruct (IH j Hj) as [p' Hp']. exists p'.
    by replace (i + S j) with (S i + j) by lia.
Qed.

(** The value a task leaves for [gather] does not depend on the
    progress counters. *)
Definition task_value (file_path : string) (ev : task_event)
    : FileUpgradeResult + string :=
  match ev with
  | LimiterRaised msg => inr msg
  | FuncReturned result => inl result
  | FuncReturnedOther msg | FuncRaised msg =>
      inl (mkResult file_path false 0 [] (Some ("Processing error: " +:+ msg)) None)
  end.

Lemma process_file_async_value f ev p :
  (process_file_async f ev p).1 = task_value f ev.
Proof. by destruct ev. Qed.

Lemma process_batch_dom events files :
  dom (process_batch events files).1 = list_to_set files.
Proof.
  unfold process_batch.
  pose proof (gather_length events 0 files (mkProgress 0 (length files) 0))
    as Hlen.
  destruct (gather events 0 files _) as [results p']. simpl in *.
  rewrite (put_entries_dom _ ∅), fst_zip by lia. set_solver.
Qed.

(** *** The groups of [group_by_level] *)

Lemma group_get_add l l' f (g : groups) :
  group_get l (group_add l' f g)
    = if decide (l = l') then group_get l g ++ [f] else group_get l g.
Proof.
  induction g as [|[k fs] g IH]; simpl.
  - repeat case_decide; by simplify_eq.
  - destruct (decide (k = l')) as [->|Hk]; simpl.
    + repeat case_decide; by simplify_eq.
    + rewrite IH. repeat case_decide; by simplify_eq.
Qed.

Lemma group_add_keys l l' f (g : groups) :
  l ∈ (group_add l' f g).*1 ↔ l = l' ∨ l ∈ g.*1.
Proof.
  induction g as [|[k fs] g IH]; simpl; [set_solver|].
  case_decide; simpl; set_solver.
Qed.

Lemma group_get_missing l (g : groups) : l ∉ g.*1 → group_get l g = [].
Proof.
  induction g as [|[k fs] g IH]; simpl; [done|].
  intros Hl. case_decide; set_solver.
Qed.

(** A file is in some group exactly when it is one of the files. *)
Lemma group_by_level_covers dependency_levels files f :
  f ∈ files ↔
  ∃ l, l ∈ (group_by_level dependency_levels files).*1 ∧
       f ∈ group_get l (group_by_level dependency_levels files).
Proof.
  unfold group_by_level.
  assert (∀ fs (g : groups) seen,
    (∀ x, x ∈ seen ↔ ∃ l, l ∈ g.*1 ∧ x ∈ group_get l g) →
    ∀ x, x ∈ seen ++ fs ↔
      ∃ l, l ∈ (foldl (λ levels file_path,
                  group_add (default 0 (dependency_levels !! file_path))
                    file_path levels) g fs).*1 ∧
           x ∈ group_get l (foldl (λ levels file_path,
                  group_add (default 0 (dependency_levels !! file_path))
                    file_path levels) g fs)) as Hgen.
  { induction fs as [|y fs IH]; intros g seen Hinv x; simpl.
    { by rewrite app_nil_r. }
    rewrite (cons_middle y seen fs), (assoc (++)).
    apply IH. clear x. intros x.
    set (ly := default 0 (dependency_levels !! y)).
    rewrite elem_of_app, list_elem_of_singleton, Hinv. split.
    - intros [(l & Hl & Hx)| ->].
      + exists l. rewrite group_add_keys, group_get_add.
        split; [by right|]. case_decide; set_solver.
      + exists ly. rewrite group_add_keys, group_get_add.
        split; [by left|]. rewrite decide_True by done. set_solver.
    - intros (l & Hl & Hx). rewrite group_add_keys in Hl.
      rewrite group_get_add in Hx. case_decide as Hly.
      + apply elem_of_app in Hx as [Hx| ->%list_elem_of_singleton];
          [|by right].
        left. exists l. split; [|done].
        destruct (decide (l ∈ g.*1)) as [?|Hnotin]; [done|].
        rewrite (group_get_missing _ _ Hnotin) in Hx. by apply elem_of_nil in Hx.
      + left. exists l. split; [|done]. by destruct Hl. }
  apply (Hgen files [] []). intros x. split; [by intros ?%elem_of_nil|].
  intros (l & Hl & _). by apply elem_of_nil in Hl.
Qed.

Lemma process_by_levels_dom events dependency_levels files :
  dom (process_by_levels events dependency_levels files) = list_to_set files.
Proof.
  unfold process_by_levels.
  set (grouped := group_by_level dependency_levels files).
  assert (∀ ls (acc : gmap string FileUpgradeResult) x,
    x ∈ dom (foldl (λ all_results level,
                (process_batch (events level) (group_get level grouped)).1
                ∪ all_results) acc ls)
    ↔ x ∈ dom acc ∨ ∃ l, l ∈ ls ∧ x ∈ group_get l grouped) as Hfold.
  { induction ls as [|l ls IH]; intros acc x; simpl.
    { split; [by left|]. intros [?|(l & Hl & _)]; [done|].
      by apply elem_of_nil in Hl. }
    rewrite IH, dom_union_L, process_batch_dom, elem_of_union,
      elem_of_list_to_set.
    split.
    - intros [[?|?]|(l' & ? & ?)]; [right; exists l; split; [left|done]
        |by left|right; exists l'; split; [by right|done]].
    - intros [?|(l' & [->|?]%elem_of_cons & ?)];
        [left; by right|left; by left|right; by exists l']. }
  apply set_eq. intros x. rewrite Hfold, elem_of_list_to_set.
  rewrite (group_by_level_covers dependency_levels files x). fold grouped.
  split.
  - intros [Hx|(l & Hl & Hx)]; [by rewrite dom_empty_L in Hx|].
    exists l. split; [|done]. by rewrite merge_sort_Permutation in Hl.
  - intros (l & Hl & Hx). right. exists l. split; [|done].
    by rewrite merge_sort_Permutation.
Qed.

(** C9: the result map of a batch has exactly the files of the batch
    as its keys; the entry of a file is the result its (last) task
    returned, kept as it is also when it reports a failure, or, when
    processing raised, a failed result with the exception's message and
    zero attempts.  What happens to one task does not enter the entry
    of any other file.  The map of a level-by-level run has exactly the
    files of the run as its keys as well. *)
Theorem process_batch_one_entry_per_file
    (events : nat → string → task_event) (files : list string)
    (i : nat) (f : string) :
  files !! i = Some f →
  (∀ j, i < j → files !! j ≠ Some f) →
  let result_dict := (process_batch events files).1 in
  dom result_dict = list_to_set files ∧
  result_dict !! f = Some (batch_entry f (task_value f (events i f))) ∧
  (∀ r, events i f = FuncReturned r → result_dict !! f = Some r) ∧
  (∀ msg, events i f = FuncRaised msg →
     result_dict !! f
       = Some (mkResult f false 0 [] (Some ("Processing error: " +:+ msg)) None)) ∧
  (∀ msg, events i f = LimiterRaised msg →
     result_dict !! f = Some (mkResult f false 0 [] (Some msg) None)) ∧
  (∀ level_events dependency_levels,
     dom (process_by_levels level_events dependency_levels files)
       = list_to_set files).
Proof.
  intros Hi Hlast result_dict.
  assert (result_dict !! f = Some (batch_entry f (task_value f (events i f))))
    as Hentry.
  { unfold result_dict, process_batch.
    pose proof (gather_length events 0 files (mkProgress 0 (length files) 0))
      as Hlen.
    pose proof (gather_lookup events 0 files (mkProgress 0 (length files) 0) i f Hi)
      as Hres.
    destruct (gather events 0 files _) as [results p']. simpl in *.
    assert (results !! i = Some (task_value f (events i f))) as Hri.
    { destruct Hres as [p'' ->]. by rewrite process_file_async_value. }
    assert (zip files results !! i = Some (f, task_value f (events i f))) as Hz.
    { apply lookup_zip_with_Some. eauto. }
    rewrite <-(take_drop_middle _ _ _ Hz).
    apply (put_entries_last _ _ ∅). rewrite fmap_drop, fst_zip by lia.
    intros (j & Hj)%list_elem_of_lookup. rewrite lookup_drop in Hj.
    apply (Hlast (S i + j)); [lia|done]. }
  split_and!.
  - apply process_batch_dom.
  - done.
  - intros r Hr. by rewrite Hr in Hentry.
  - intros msg Hr. by rewrite Hr in Hentry.
  - intros msg Hr. by rewrite Hr in Hentry.
  - intros. apply process_by_levels_dom.
Qed.

(** A batch of two files: processing the first raises, the second is
    upgraded at its second attempt. *)
Definition two_files : list string := ["a.py"; "b.py"]%string.

Definition two_events (i : nat) (f : string) : task_event :=
  match i with
  | 0 => FuncRaised "boom"
  | _ => FuncReturned (mkResult f true 2 [] None None)
  end.

Lemma process_batch_one_entry_per_file_witness :
  let result_dict := (process_batch two_events two_files).1 in
  dom result_dict = list_to_set two_files ∧
  result_dict !! "a.py"%string
    = Some (mkResult "a.py" false 0 [] (Some "Processing error: boom") None) ∧
  result_dict !! "b.py"%string = Some (mkResult "b.py" true 2 [] None None).
Proof.
  destruct (process_batch_one_entry_per_file two_events two_files 0 "a.py"
              eq_refl) as (Hdom & _ & _ & Hraised & _).
  { intros [|[|[|j]]] Hj; [lia|discriminate..]. }
  destruct (process_batch_one_entry_per_file two_events two_files 1 "b.py"
              eq_refl) as (_ & _ & Hreturned & _).
  { intros [|[|[|j]]] Hj; [lia|lia|discriminate..]. }
  split_and!.
  - exact Hdom.
  - exact (Hraised "boom" eq_refl).
  - exact (Hreturned _ eq_refl).
Defined.

(** *** Levels and processing groups *)

Section levels.
Import DependencyAnalyzer.

(** The chain A -> B -> C: A depends on B, B depends on C. *)
Definition chain : graph := [("A", ["B"]); ("B", ["C"])]%string.

Definition chain_levels : gmap string nat :=
  <["A" := 2]> (<["B" := 1]> (<["C" := 0]> ∅)).

(** The scenario, for one order of the analysed files. *)
Definition chain_scenario (order : list string) : Prop :=
  get_dependency_levels chain order = Ok chain_levels ∧
  processing_order (group_by_level chain_levels order)
    = [["C"]; ["B"]; ["A"]]%string.

Lemma chain_scenario_all_orders :
  Forall chain_scenario (permutations ["A"; "B"; "C"]%string).
Proof. repeat constructor; vm_compute; reflexivity. Qed.

Lemma acyclic_by_rank (g : graph) (rank : node → nat) :
  (∀ a b, edge g a b → rank b < rank a) → acyclic g.
Proof.
  intros Hrank x Hx.
  assert (∀ a b, tc (edge g) a b → rank b < rank a) as Htc.
  { induction 1 as [a b Hab|a b c Hab _ IH]; [by apply Hrank|].
    apply Hrank in Hab. lia. }
  apply Htc in Hx. lia.
Qed.

Lemma chain_acyclic : acyclic chain.
Proof.
  apply (acyclic_by_rank chain
    (λ x, if decide (x = "A"%string) then 2
          else if decide (x = "B"%string) then 1 else 0)).
  intros a b. unfold edge, deps, getitem, chain. simpl.
  repeat case_decide; simplify_eq; simpl; set_solver.
Qed.

(** C1: on a dependency graph without cycles the level computation
    returns a level map in which every analysed file without
    dependencies has level 0 and every analysed file lies strictly
    above each of its dependencies.  For the chain A -> B -> C, in
    whatever order the three files are listed, the levels are C = 0,
    B = 1, A = 2 and the groups processed in turn are [C], [B], [A]. *)
Theorem levels_increase_along_dependencies (g : graph) (files : list node) :
  acyclic g →
  (∃ levels, get_dependency_levels g files = Ok levels ∧
     (∀ a, a ∈ files → deps g a = [] → levels !! a = Some 0) ∧
     (∀ a b, a ∈ files → edge g a b →
        ∃ la lb, levels !! a = Some la ∧ levels !! b = Some lb ∧ lb < la)) ∧
  (∀ order, order ≡ₚ ["A"; "B"; "C"]%string → chain_scenario order).
Proof.
  intros Hac. split.
  - destruct (get_dependency_levels_total g files) as (levels & Hrun & Hall).
    exists levels. split; [done|].
    assert (good g levels) as Hgood.
    { unfold get_dependency_levels in Hrun.
      eapply levels_loop_good; [done|apply good_empty|done]. }
    split.
    + intros a Ha Hnone. destruct (Hall a Ha) as [la Hla].
      destruct (Hgood a la Hla) as [H0 _]. by rewrite Hla, H0.
    + intros a b Ha Hab. destruct (Hall a Ha) as [la Hla].
      destruct (Hgood a la Hla) as [_ Hdeps].
      destruct (Hdeps b Hab) as (lb & Hlb & Hlt). eauto.
  - intros order Hperm. symmetry in Hperm.
    apply permutations_Permutation in Hperm.
    by apply (proj1 (Forall_forall _ _) chain_scenario_all_orders).
Qed.

Lemma levels_increase_along_dependencies_witness :
  (∃ levels, get_dependency_levels chain ["A"; "B"; "C"]%string = Ok levels ∧
     (∀ a, a ∈ ["A"; "B"; "C"]%string → deps chain a = [] →
        levels !! a = Some 0) ∧
     (∀ a b, a ∈ ["A"; "B"; "C"]%string → edge chain a b →
        ∃ la lb, levels !! a = Some la ∧ levels !! b = Some lb ∧ lb < la)) ∧
  (∀ order, order ≡ₚ ["A"; "B"; "C"]%string → chain_scenario order).
Proof.
  exact (levels_increase_along_dependencies chain ["A"; "B"; "C"]%string
           chain_acyclic).
Defined.

End levels.

Local Open Scope Z_scope.

Lemma recent_all bound cs : Forall (λ t, bound ≤ t) cs → recent bound cs = cs.
Proof.
  unfold recent. induction 1 as [|c cs Hc _ IH]; [done|].
  rewrite filter_cons_True by lia. by rewrite IH.
Qed.

Lemma prune_sorted bound cs : Sorted Z.le cs → prune bound cs = recent bound cs.
Proof.
  intros Hs. apply Sorted_StronglySorted in Hs; [|intros ???; lia].
  induction Hs as [|c cs Hs IH Hall]; [done|]. simpl.
  case_bool_decide as Hc.
  - unfold recent. by rewrite filter_cons_False by lia.
  - symmetry. apply recent_all. constructor; [lia|].
    eapply Forall_impl; [done|]. simpl. lia.
Qed.

Lemma prune_keeps_order bound cs : Sorted Z.le cs → Sorted Z.le (prune bound cs).
Proof.
  induction 1 as [|c cs Hs IH Hc]; simpl; [constructor|].
  case_bool_decide; [done|]. by constructor.
Qed.

(** The deque stays time-ordered as long as the clock does not run
    backwards. *)
Lemma acquire_keeps_order (rl rl' : RateLimiter) (now wait : Z) :
  Sorted Z.le (calls rl) → Forall (λ t, t ≤ now) (calls rl) →
  acquire rl now = Ok (wait, rl') →
  Sorted Z.le (calls rl') ∧ Forall (λ t, t ≤ now) (calls rl').
Proof.
  intros Hs Hall. unfold acquire.
  pose proof (prune_keeps_order (now - time_window rl) _ Hs) as Hs'.
  rewrite prune_sorted in * by done.
  assert (Forall (λ t, t ≤ now) (recent (now - time_window rl) (calls rl)))
    as Hall'.
  { rewrite Forall_forall in *. intros x [_ Hx]%list_elem_of_filter. auto. }
  case_bool_decide.
  - intros [= _ <-]. simpl. split.
    + apply StronglySorted_Sorted, StronglySorted_app_2.
      * intros x1 x2 Hx1 ->%list_elem_of_singleton.
        rewrite Forall_forall in Hall'. by apply Hall'.
      * apply Sorted_StronglySorted; [intros ???; lia|done].
      * repeat constructor.
    + apply Forall_app. split; [done|]. by repeat constructor.
  - destruct (recent _ _) eqn:E; [done|]. by intros [= _ <-].
Qed.

(** With a capacity of zero and an empty deque there is no oldest
    timestamp to wait for: [self.calls[0]] raises. *)
Example acquire_without_capacity :
  acquire (mkLimiter 0 10 []) 0 = Raise IndexError.
Proof. reflexivity. Qed.

(** C2: on a time-ordered deque, [acquire] at clock reading [now] keeps
    exactly the timestamps not older than [now - W]; if fewer than N
    remain it appends [now] and returns 0, and otherwise it records
    nothing and returns [(oldest + W) - now], which is not negative.
    With [max_calls = 2] and a window of 10, three calls at time 0
    return 0, 0 and 10. *)
Theorem acquire_prunes_then_admits_or_waits (rl : RateLimiter) (now : Z) :
  Sorted Z.le (calls rl) →
  let remaining := recent (now - time_window rl) (calls rl) in
  (Z.of_nat (length remaining) < max_calls rl →
     acquire rl now = Ok (0, set_calls rl (remaining ++ [now]))) ∧
  (¬ Z.of_nat (length remaining) < max_calls rl →
     ∀ oldest rest, remaining = oldest :: rest →
       acquire rl now = Ok ((oldest + time_window rl) - now, set_calls rl remaining) ∧
       0 ≤ (oldest + time_window rl) - now) ∧
  (0 < max_calls rl → ¬ Z.of_nat (length remaining) < max_calls rl →
     remaining ≠ []) ∧
  (acquire (mkLimiter 2 10 []) 0 = Ok (0, mkLimiter 2 10 [0]) ∧
   acquire (mkLimiter 2 10 [0]) 0 = Ok (0, mkLimiter 2 10 [0; 0]) ∧
   acquire (mkLimiter 2 10 [0; 0]) 0 = Ok (10, mkLimiter 2 10 [0; 0])).
Proof.
  intros Hs remaining. unfold acquire. rewrite prune_sorted by done.
  fold remaining. split_and!.
  - intros Hlt. by rewrite bool_decide_eq_true_2.
  - intros Hge oldest rest Hrem. rewrite bool_decide_eq_false_2 by done.
    rewrite Hrem.
    assert (now - time_window rl ≤ oldest) as Hold.
    { assert (oldest ∈ remaining) as Hin by (rewrite Hrem; left).
      unfold remaining, recent in Hin. apply list_elem_of_filter in Hin as [? _].
      lia. }
    split; [|lia]. by rewrite Z.max_r by lia.
  - intros Hpos Hge Hnil. rewrite Hnil in Hge. simpl in Hge. lia.
  - reflexivity.
  - reflexivity.
  - reflexivity.
Qed.

Lemma acquire_prunes_then_admits_or_waits_witness :
  let rl := mkLimiter 2 10 [0; 3] in
  let remaining := recent (12 - time_window rl) (calls rl) in
  (Z.of_nat (length remaining) < max_calls rl →
     acquire rl 12 = Ok (0, set_calls rl (remaining ++ [12]))) ∧
  (¬ Z.of_nat (length remaining) < max_calls rl →
     ∀ oldest rest, remaining = oldest :: rest →
       acquire rl 12 = Ok ((oldest + time_window rl) - 12, set_calls rl remaining) ∧
       0 ≤ (oldest + time_window rl) - 12) ∧
  (0 < max_calls rl → ¬ Z.of_nat (length remaining) < max_calls rl →
     remaining ≠ []) ∧
  (acquire (mkLimiter 2 10 []) 0 = Ok (0, mkLimiter 2 10 [0]) ∧
   acquire (mkLimiter 2 10 [0]) 0 = Ok (0, mkLimiter 2 10 [0; 0]) ∧
   acquire (mkLimiter 2 10 [0; 0]) 0 = Ok (10, mkLimiter 2 10 [0; 0])).
Proof.
  apply (acquire_prunes_then_admits_or_waits (mkLimiter 2 10 [0; 3]) 12).
  simpl. repeat constructor; lia.
Defined.

(** C3 fails on the code.  With [max_calls = 1] and a window of 10, a
    first caller arrives at time 0, a second at time 1 and a third one
    time unit after the second was admitted.  The second caller sleeps 9
    and goes on at time 10 without being recorded, so the third is
    admitted at time 11: two admissions fall in the window from 10 to
    20, and the deque at the end holds only the timestamp 11.  In
    general a caller that had to sleep leaves no timestamp behind. *)
Example wait_if_needed_admits_unrecorded :
  admissions (mkLimiter 1 10 []) 0 [0; 1; 1]
    = Ok ([0; 10; 11], mkLimiter 1 10 [11]) ∧
  admitted_in [0; 10; 11] 10 10 = 2%nat ∧
  wait_if_needed (mkLimiter 1 10 [0]) 1 = Ok (10, mkLimiter 1 10 [0]) ∧
  (∀ rl clock t rl',
     wait_if_needed rl clock = Ok (t, rl') → clock < t →
     calls rl' = prune (clock - time_window rl) (calls rl)).
Proof.
  split_and!; try reflexivity.
  intros rl clock t rl'. unfold wait_if_needed, acquire.
  case_bool_decide; simpl.
  - intros [= <- <-]. lia.
  - destruct (prune _ _) eqn:E; simpl; [done|]. by intros [= <- <-].
Qed.

Local Close Scope Z_scope.

End ParallelProcessor.

(** ** Python string operations used by the pipeline

    A [str] is modelled as a [string] of 8-bit characters; the
    operations agree with Python's on ASCII text. *)

Module PyStr.

(** The newline character. *)
Definition nl : ascii := "010"%char.

(** [s.split('\n')] *)
Fixpoint split_lines (s : string) : list string :=
  match s with
  | EmptyString => [""]
  | String c s' =>
      if decide (c = nl) then "" :: split_lines s'
      else match split_lines s' with
           | l :: ls => String c l :: ls
           | [] => [String c ""]
           end
  end.

(** [sep.join(parts)] *)
Fixpoint join (sep : string) (parts : list string) : string :=
  match parts with
  | [] => ""
  | p :: ps =>
      match ps with
      | [] => p
      | _ :: _ => p +:+ sep +:+ join sep ps
      end
  end.

(** ['\n'.join(lines)] *)
Definition join_lines (lines : list string) : string := join (String nl "") lines.

(** [l[i:j]] for [0 <= i] and [0 <= j] *)
Definition slice {A} (l : list A) (i j : nat) : list A := take (j - i) (drop i l).

(** [range(0, stop, step)] for [0 < step], unrolled at most [fuel] times. *)
Fixpoint range_from (fuel i stop step : nat) : list nat :=
  match fuel with
  | O => []
  | S fuel' =>
      if decide (i < stop) then i :: range_from fuel' (i + step) stop step
      else []
  end.

(** [range(0, stop, step)]: a step of zero raises, a negative step
    gives the empty range. *)
Definition range (stop : nat) (step : Z) : res (list nat) :=
  if decide (step = 0)%Z then Raise ValueError
  else if decide (step < 0)%Z then Ok []
  else Ok (range_from stop 0 stop (Z.to_nat step)).

Lemma split_lines_nonempty s : split_lines s ≠ [].
Proof. destruct s as [|c s]; simpl; [done|]. case_decide; [done|]. by destruct (split_lines s). Qed.

Lemma join_cons sep p q qs : join sep (p :: q :: qs) = p +:+ sep +:+ join sep (q :: qs).
Proof. reflexivity. Qed.

Lemma join_split s : join_lines (split_lines s) = s.
Proof.
  induction s as [|c s IH]; [done|]. simpl.
  pose proof (split_lines_nonempty s) as Hne.
  destruct (split_lines s) as [|l ls] eqn:E; [done|].
  case_decide as Hc.
  - unfold join_lines in *. rewrite join_cons, IH. by rewrite Hc.
  - unfold join_lines in *. rewrite <-IH. by destruct ls.
Qed.

Lemma append_cons (x : ascii) (a b : string) :
  String x a +:+ b = String x (a +:+ b).
Proof. reflexivity. Qed.

Lemma append_assoc (a b c : string) : (a +:+ b) +:+ c = a +:+ b +:+ c.
Proof.
  induction a as [|x a IH]; [done|]. by rewrite !append_cons, IH.
Qed.

Lemma join_app sep ps qs :
  ps ≠ [] → qs ≠ [] →
  join sep (ps ++ qs) = join sep ps +:+ sep +:+ join sep qs.
Proof.
  intros Hp Hq. induction ps as [|p ps IH]; [done|].
  destruct ps as [|p' ps].
  - destruct qs; [done|]. reflexivity.
  - change ((p :: p' :: ps) ++ qs) with (p :: p' :: (ps ++ qs)).
    rewrite !join_cons.
    change (p' :: (ps ++ qs)) with ((p' :: ps) ++ qs).
    rewrite IH by done. by rewrite !append_assoc.
Qed.

(** Characters [str.strip()] removes (the ASCII ones). *)
Definition is_space (c : ascii) : bool :=
  let n := nat_of_ascii c in
  bool_decide (9 ≤ n ≤ 13) || bool_decide (28 ≤ n ≤ 32).

Fixpoint lstrip (s : string) : string :=
  match s with
  | EmptyString => ""
  | String c s' => if is_space c then lstrip s' else s
  end.

Fixpoint rstrip (s : string) : string :=
  match s with
  | EmptyString => ""
  | String c s' =>
      match rstrip s' with
      | EmptyString => if is_space c then "" else String c ""
      | r => String c r
      end
  end.

(** [s.strip()] *)
Definition strip (s : string) : string := rstrip (lstrip s).

Definition lower_char (c : ascii) : ascii :=
  let n := nat_of_ascii c in
  if bool_decide (65 ≤ n ≤ 90) then ascii_of_nat (n + 32) else c.

(** [s.lower()] *)
Fixpoint lower (s : string) : string :=
  match s with
  | EmptyString => ""
  | String c s' => String (lower_char c) (lower s')
  end.

(** [s.startswith(p)] *)
Definition startswith (p s : string) : bool := String.prefix p s.

(** [s.startswith((p1, p2, ...))] *)
Definition startswith_any (ps : list string) (s : string) : bool :=
  existsb (λ p, startswith p s) ps.

(** [needle in s] *)
Fixpoint contains (needle s : string) : bool :=
  startswith needle s ||
  match s with
  | EmptyString => false
  | String _ s' => contains needle s'
  end.

(** [s[n:]] *)
Fixpoint drop_str (n : nat) (s : string) : string :=
  match n, s with
  | S n', String _ s' => drop_str n' s'
  | _, _ => s
  end.

Fixpoint replace_go (fuel : nat) (old new s : string) : string :=
  match fuel with
  | O => s
  | S fuel' =>
      if startswith old s
      then new +:+ replace_go fuel' old new (drop_str (String.length old) s)
      else match s with
           | EmptyString => ""
           | String c s' => String c (replace_go fuel' old new s')
           end
  end.

(** [s.replace(old, new)] for a non-empty [old]. *)
Definition replace (old new s : string) : string :=
  replace_go (String.length s) old new s.

(** The text before and after the first occurrence of [needle]. *)
Fixpoint split_at (needle s : string) : option (string * string) :=
  if startswith needle s then Some ("", drop_str (String.length needle) s)
  else match s with
       | EmptyString => None
       | String c s' =>
           match split_at needle s' with
           | Some (before, after) => Some (String c before, after)
           | None => None
           end
       end.

Lemma lower_app (a b : string) : lower (a +:+ b) = lower a +:+ lower b.
Proof.
  induction a as [|x a IH]; [done|].
  rewrite append_cons. simpl. by rewrite IH.
Qed.

End PyStr.

(** ** chunker.py *)

Module Chunker.
Import PyStr.

(** One chunk: the dictionary with the keys ['type'], ['name'],
    ['code'], ['start_line'], ['end_line'] and ['imports']. *)
Record Chunk : Type := mkChunk {
  type : string;
  name : string;
  code : string;
  start_line : nat;
  end_line : nat;
  imports : string
}.

(** [_chunk_by_lines] *)
Definition _chunk_by_lines (max_lines : Z) (code : string) : res (list Chunk) :=
  let lines := split_lines code in
  starts ← range (length lines) max_lines;
  Ok (fmap (M := list) (λ i,
         let chunk_lines := slice lines i (i + Z.to_nat max_lines) in
         let chunk_code := join_lines chunk_lines in
         mkChunk "partial"
           ("lines_" +:+ pretty i +:+ "_" +:+ pretty (i + length chunk_lines))
           chunk_code i (i + length chunk_lines) "") starts).

(** [_split_large_chunk] *)
Definition _split_large_chunk (max_lines : Z) (chunk_code : string)
    (start_line : nat) (imports : string) : res (list Chunk) :=
  let lines := split_lines chunk_code in
  starts ← range (length lines) max_lines;
  Ok (fmap (M := list) (λ i,
         let sub_code := join_lines (slice lines i (i + Z.to_nat max_lines)) in
         mkChunk "partial" ("partial_" +:+ pretty (start_line + i)) sub_code
           (start_line + i)
           (start_line + (i + Z.to_nat max_lines) `min` length lines)
           imports) starts).

(** What the chunker reads off the tree [ast.parse] returns: the
    top-level statements in order, and the line number of every import
    statement in the order of [ast.walk].  Line numbers start at 1. *)
Inductive node_kind : Type := FunctionDef | AsyncFunctionDef | ClassDef | OtherStmt.

Record top_node : Type := mkNode {
  kind : node_kind;
  node_name : string;
  lineno : nat;
  end_lineno : option nat
}.

Record module_ast : Type := mkAst {
  body : list top_node;
  import_linenos : list nat
}.

(** [_extract_imports] *)
Definition _extract_imports (tree : module_ast) (lines : list string) : string :=
  join_lines
    (omap (λ ln, if decide (ln ≤ length lines) then lines !! (ln - 1) else None)
       (import_linenos tree)).

Section chunk_by_functions.
(** [ast.parse]: [None] when it raises [SyntaxError]. *)
Variable ast_parse : string → option module_ast.

(** The chunks one top-level statement contributes. *)
Definition node_chunks (max_lines : Z) (lines : list string) (context : string)
    (node : top_node) : res (list Chunk) :=
  match kind node with
  | OtherStmt => Ok []
  | k =>
      let start := lineno node - 1 in
      let end_ := match end_lineno node with
                  | Some (S e) => S e
                  | _ => length lines
                  end in
      let chunk_code := join_lines (slice lines start end_) in
      if decide (max_lines < Z.of_nat end_ - Z.of_nat start)%Z
      then _split_large_chunk max_lines chunk_code start context
      else Ok [mkChunk (match k with ClassDef => "class" | _ => "function" end)
                 (node_name node) chunk_code start end_ context]
  end.

Fixpoint nodes_chunks (max_lines : Z) (lines : list string) (context : string)
    (nodes : list top_node) : res (list Chunk) :=
  match nodes with
  | [] => Ok []
  | node :: nodes' =>
      cs ← node_chunks max_lines lines context node;
      cs' ← nodes_chunks max_lines lines context nodes';
      Ok (cs ++ cs')
  end.

(** [chunk_by_functions] *)
Definition chunk_by_functions (max_lines : Z) (src : string) : res (list Chunk) :=
  match ast_parse src with
  | None => _chunk_by_lines max_lines src
  | Some tree =>
      let lines := split_lines src in
      let context := _extract_imports tree lines in
      chunks ← nodes_chunks max_lines lines context (body tree);
      match chunks with
      | [] => Ok [mkChunk "full" "entire_file" src 0 (length lines) ""]
      | _ => Ok chunks
      end
  end.
End chunk_by_functions.

(** *** Line-range chunks partition their input *)

(** [covers lines max offset pos chunks]: starting at line [pos] of
    [lines], the chunks cover consecutive, non-empty ranges of at most
    [max] lines each, up to the last line; a chunk's code is its range
    of lines joined by newlines, and its line numbers are those of the
    range shifted by [offset]. *)
Fixpoint covers (lines : list string) (max offset pos : nat)
    (chunks : list Chunk) : Prop :=
  match chunks with
  | [] => pos = length lines
  | c :: cs =>
      ∃ n, 0 < n ≤ max ∧ pos + n ≤ length lines ∧
        start_line c = offset + pos ∧ end_line c = offset + pos + n ∧
        code c = join_lines (slice lines pos (pos + n)) ∧
        covers lines max offset (pos + n) cs
  end.

Lemma range_from_done fuel i stop step :
  stop ≤ i → range_from fuel i stop step = [].
Proof. intros. destruct fuel; simpl; [done|]. case_decide; [lia|done]. Qed.

Lemma slice_take {A} (l : list A) pos n : slice l pos (pos + n) = take n (drop pos l).
Proof. unfold slice. f_equal. lia. Qed.

Lemma take_min_length {A} (l : list A) k : take (k `min` length l) l = take k l.
Proof.
  destruct (decide (k ≤ length l)).
  - by rewrite Nat.min_l.
  - rewrite Nat.min_r by lia. by rewrite !take_ge by lia.
Qed.

Lemma covers_range lines step offset (mk : nat → Chunk) :
  0 < step →
  (∀ i, i < length lines →
     let n := step `min` (length lines - i) in
     start_line (mk i) = offset + i ∧ end_line (mk i) = offset + i + n ∧
     code (mk i) = join_lines (slice lines i (i + n))) →
  ∀ fuel i, i ≤ length lines → length lines - i ≤ fuel →
    covers lines step offset i (mk <$> range_from fuel i (length lines) step).
Proof.
  intros Hstep Hmk. induction fuel as [|fuel IH]; intros i Hi Hfuel; simpl.
  { lia. }
  case_decide as Hlt; [|simpl; lia]. simpl.
  destruct (Hmk i Hlt) as (Hs & He & Hc).
  exists (step `min` (length lines - i)). split_and!; try done; try lia.
  destruct (decide (i + step < length lines)) as [Hin|Hout].
  - rewrite Nat.min_l by lia. apply IH; lia.
  - rewrite Nat.min_r by lia. rewrite range_from_done by lia. simpl. lia.
Qed.

Lemma covers_join lines max offset chunks :
  ∀ pos, pos < length lines → covers lines max offset pos chunks →
    join_lines (code <$> chunks) = join_lines (drop pos lines).
Proof.
  induction chunks as [|c cs IH]; intros pos Hpos Hcov.
  { simpl in Hcov. lia. }
  destruct Hcov as (n & [Hn0 Hn] & Hle & _ & _ & Hc & Hrest).
  rewrite slice_take in Hc. destruct cs as [|c' cs].
  - simpl in Hrest. transitivity (code c); [done|]. rewrite Hc.
    f_equal. apply take_ge. rewrite length_drop. lia.
  - assert (pos + n < length lines) as Hmore.
    { destruct Hrest as (n' & ? & ? & _). lia. }
    pose proof (IH (pos + n) Hmore Hrest) as IH'.
    rewrite !fmap_cons in *. unfold join_lines in *.
    rewrite join_cons, IH', Hc.
    rewrite <-(take_drop n (drop pos lines)) at 2.
    rewrite join_app, drop_drop; [done| |].
    + intros Hnil%(f_equal length). rewrite length_take, length_drop in Hnil.
      simpl in Hnil. lia.
    + intros Hnil%(f_equal length). rewrite !length_drop in Hnil.
      simpl in Hnil. lia.
Qed.

(** C10: for a positive [max_lines], the line-range chunking of any
    string, and the splitting of any oversized declaration, return
    chunks that cover the lines of the input in order, each a
    contiguous range of at most [max_lines] lines that starts where the
    previous chunk ends; joining the chunks' code with single newlines
    gives back the input. *)
Theorem line_chunks_partition_input (max_lines : Z) :
  (0 < max_lines)%Z →
  (∀ src, ∃ chunks,
     _chunk_by_lines max_lines src = Ok chunks ∧
     covers (split_lines src) (Z.to_nat max_lines) 0 0 chunks ∧
     join_lines (code <$> chunks) = src) ∧
  (∀ src first_line context, ∃ chunks,
     _split_large_chunk max_lines src first_line context = Ok chunks ∧
     covers (split_lines src) (Z.to_nat max_lines) first_line 0 chunks ∧
     join_lines (code <$> chunks) = src).
Proof.
  intros Hmax.
  assert (0 < Z.to_nat max_lines) as Hstep by lia.
  assert (∀ src, 0 < length (split_lines src)) as Hlines.
  { intros src. pose proof (split_lines_nonempty src).
    destruct (split_lines src); [done|simpl; lia]. }
  split.
  - intros src. unfold _chunk_by_lines, range.
    rewrite decide_False, decide_False by lia. simpl.
    eexists. split; [done|].
    match goal with
    | |- covers _ _ _ _ ?cs ∧ _ =>
        assert (covers (split_lines src) (Z.to_nat max_lines) 0 0 cs) as Hcov
    end.
    { apply covers_range; [done| |lia..].
      intros i Hi n. simpl. rewrite slice_take.
      assert (length (take (Z.to_nat max_lines) (drop i (split_lines src))) = n)
        as Hlen by (rewrite length_take, length_drop; done).
      rewrite Hlen. split_and!; try done; try lia.
      f_equal. unfold slice. replace (i + n - i) with n by lia.
      unfold n. rewrite <-(length_drop (split_lines src) i).
      by rewrite take_min_length. }
    split; [done|].
    erewrite covers_join; [|apply Hlines|done]. apply join_split.
  - intros src first_line context. unfold _split_large_chunk, range.
    rewrite decide_False, decide_False by lia. simpl.
    eexists. split; [done|].
    match goal with
    | |- covers _ _ _ _ ?cs ∧ _ =>
        assert (covers (split_lines src) (Z.to_nat max_lines) first_line 0 cs)
          as Hcov
    end.
    { apply covers_range; [done| |lia..].
      intros i Hi n. simpl. split_and!; try done; try lia.
      f_equal. unfold slice. replace (i + n - i) with n by lia.
      replace (i + Z.to_nat max_lines - i) with (Z.to_nat max_lines) by lia.
      unfold n. rewrite <-(length_drop (split_lines src) i).
      by rewrite take_min_length. }
    split; [done|].
    erewrite covers_join; [|apply Hlines|done]. apply join_split.
Qed.

Lemma line_chunks_partition_input_witness :
  (∀ src, ∃ chunks,
     _chunk_by_lines 300 src = Ok chunks ∧
     covers (split_lines src) (Z.to_nat 300) 0 0 chunks ∧
     join_lines (code <$> chunks) = src) ∧
  (∀ src first_line context, ∃ chunks,
     _split_large_chunk 300 src first_line context = Ok chunks ∧
     covers (split_lines src) (Z.to_nat 300) first_line 0 chunks ∧
     join_lines (code <$> chunks) = src).
Proof. apply (line_chunks_partition_input 300). lia. Defined.

(** *** The chunker returns at least one chunk *)

Lemma chunk_by_lines_nonempty max_lines src :
  (0 < max_lines)%Z → ∃ c cs, _chunk_by_lines max_lines src = Ok (c :: cs).
Proof.
  intros Hmax. unfold _chunk_by_lines, range.
  rewrite decide_False, decide_False by lia. simpl.
  pose proof (split_lines_nonempty src) as Hne.
  destruct (split_lines src) as [|l ls]; [done|]. simpl. eauto.
Qed.

Lemma split_large_chunk_total max_lines src first_line context :
  (0 < max_lines)%Z →
  ∃ cs, _split_large_chunk max_lines src first_line context = Ok cs.
Proof.
  intros Hmax. unfold _split_large_chunk, range.
  rewrite decide_False, decide_False by lia. simpl. eauto.
Qed.

Lemma nodes_chunks_total max_lines lines context nodes :
  (0 < max_lines)%Z →
  ∃ cs, nodes_chunks max_lines lines context nodes = Ok cs.
Proof.
  intros Hmax. induction nodes as [|node nodes [cs' IH]]; simpl; [eauto|].
  assert (∃ cs, node_chunks max_lines lines context node = Ok cs) as [cs ->].
  { unfold node_chunks. destruct (kind node); eauto;
      case_decide; eauto using split_large_chunk_total. }
  simpl. rewrite IH. simpl. eauto.
Qed.

Lemma chunk_by_functions_nonempty ast_parse max_lines src :
  (0 < max_lines)%Z →
  ∃ c cs, chunk_by_functions ast_parse max_lines src = Ok (c :: cs).
Proof.
  intros Hmax. unfold chunk_by_functions.
  destruct (ast_parse src) as [tree|]; [|by apply chunk_by_lines_nonempty].
  destruct (nodes_chunks_total max_lines (split_lines src)
              (_extract_imports tree (split_lines src)) (body tree) Hmax)
    as [cs ->].
  simpl. destruct cs; eauto.
Qed.

End Chunker.

(** ** agentic_upgrader.py *)

Module AgenticUpgrader.
Import PyStr ReportGenerator Chunker.

(** The part of the outside world the upgrader acts on: the files, by
    path, and the prompts sent to the language model so far. *)
Record world : Type := mkWorld {
  fs : gmap string string;
  llm_log : list string
}.

(** [utils.write_file] *)
Definition write_file (path content : string) (w : world) : world :=
  mkWorld (<[path := content]> (fs w)) (llm_log w).

Definition apology_prefixes : list string :=
  ["i'm sorry"; "im sorry"; "sorry"; "i cannot"; "i can't"].

(** The test of the [except] branch of [_upgrade_standard]. *)
Definition is_token_error (error : string) : bool :=
  contains "token" (lower error) || contains "context_length" (lower error)
  || contains "maximum context length" (lower error).

(** [error or "Maximum retries exceeded"] *)
Definition or_default (error : option string) : string :=
  match error with
  | Some e => if decide (e = "") then "Maximum retries exceeded" else e
  | None => "Maximum retries exceeded"
  end.

(** [f"{x}"] for an optional string. *)
Definition fmt (x : option string) : string := default "None" x.

(** The test in [upgrade_file] that sends a medium file to chunking. *)
Definition escalates (result : FileUpgradeResult) : bool :=
  negb (success result) &&
  match error result with
  | Some e =>
      negb (bool_decide (e = "")) &&
      (contains "token" (lower e) || contains "context_length" (lower e))
  | None => false
  end.

(** The result of one pass through the body of a retry loop. *)
Inductive attempt_outcome : Type :=
  | Return (result : FileUpgradeResult)
  | Continue (current_code : string) (error : option string).

(** The result of one attempt on a chunk. *)
Inductive chunk_outcome : Type :=
  | Upgraded (piece : string) (changes : list string)
  | Retry (error : option string).

(** The lists and the counter [_upgrade_chunked] builds up. *)
Record chunk_acc : Type := mkAcc {
  upgraded_chunks : list string;
  all_api_changes : list string;
  total_attempts : nat;
  failed_chunks : list string
}.

(** [re.search(opener + r"\s*(.*?)```", response, re.DOTALL)] followed
    by [match.group(1).strip()]: the text between the white space after
    the first [opener] and the next fence, stripped; [None] when the
    pattern does not match. *)
Definition fenced (opener response : string) : option string :=
  match split_at opener response with
  | Some (_, rest) =>
      match split_at "```" (lstrip rest) with
      | Some (body, _) => Some (strip body)
      | None => None
      end
  | None => None
  end.

(** [clean_llm_response] *)
Definition clean_llm_response (response : string) : string :=
  match fenced "```python" response with
  | Some code => code
  | None =>
      match fenced "```" response with
      | Some code => code
      | None => strip response
      end
  end.

Section upgrader.

(** The collaborators, which are not part of the pipeline's source.
    [call_llm log prompt] is the model's answer to [prompt] after the
    prompts in [log]: a response, or the message of the exception the
    call raises.  The validators return [(is_valid, error)]. *)
Variable call_llm : list string → string → string + string.
Variable build_prompt : string → option string → string.
Variable validate_code : gmap string string → string → bool * option string.
Variable validate_syntax : string → bool * option string.
Variable extract_api_changes : string → string → list string.
Variable generate_diff : string → string → string → string.
Variable basename : string → string.
Variable should_skip_for_upgrade : gmap string string → string → option string.
Variable ast_parse : string → option module_ast.

(** [llm_interface.call_llm(prompt)] *)
Definition llm (prompt : string) (w : world) : (string + string) * world :=
  (call_llm (llm_log w) prompt, mkWorld (fs w) (llm_log w ++ [prompt])).

(** *** _upgrade_standard *)

(** The body of [for attempt in range(1, MAX_RETRIES + 1)]. *)
Definition standard_attempt (input_path output_path old_code : string)
    (attempt : nat) (current_code : string) (error : option string)
    (w : world) : attempt_outcome * world :=
  let prompt := build_prompt current_code error in
  let '(response, w1) := llm prompt w in
  match response with
  | inr e =>
      if is_token_error e
      then (Return (mkResult input_path false attempt []
                      (Some ("Token limit exceeded: " +:+ e)) None), w1)
      else (Continue current_code (Some e), w1)
  | inl response =>
      let new_code := clean_llm_response response in
      let stripped_code := strip new_code in
      if decide (stripped_code = "")
      then (Continue current_code (Some "LLM returned empty response"), w1)
      else if startswith_any apology_prefixes (lower stripped_code)
              || startswith "# upgraded code here" stripped_code
      then (Continue current_code
              (Some "LLM returned placeholder text instead of upgraded code"), w1)
      else
        let w2 := write_file output_path new_code w1 in
        let '(is_valid, error) := validate_code (fs w2) output_path in
        if is_valid
        then (Return (mkResult input_path true attempt
                        (extract_api_changes old_code new_code) None
                        (Some (generate_diff old_code new_code
                                 (basename input_path)))), w2)
        else (Continue new_code error, w2)
  end.

(** The loop over the remaining values of [attempt], and what follows
    it when every attempt has failed. *)
Fixpoint standard_loop (input_path output_path old_code : string)
    (MAX_RETRIES : nat) (attempts : list nat) (current_code : string)
    (error : option string) (w : world) : FileUpgradeResult * world :=
  match attempts with
  | [] =>
      (mkResult input_path false MAX_RETRIES [] (Some (or_default error)) None, w)
  | attempt :: attempts' =>
      match standard_attempt input_path output_path old_code attempt
              current_code error w with
      | (Return result, w') => (result, w')
      | (Continue current_code' error', w') =>
          standard_loop input_path output_path old_code MAX_RETRIES attempts'
            current_code' error' w'
      end
  end.

(** The values [range(1, MAX_RETRIES + 1)] takes from [attempt] on. *)
Definition attempts_from (MAX_RETRIES attempt : nat) : list nat :=
  seq attempt (MAX_RETRIES + 1 - attempt).

Definition _upgrade_standard (input_path output_path old_code : string)
    (MAX_RETRIES : nat) (w : world) : FileUpgradeResult * world :=
  standard_loop input_path output_path old_code MAX_RETRIES
    (attempts_from MAX_RETRIES 1) old_code None w.

(** *** _upgrade_chunked *)

(** One attempt on one chunk. *)
Definition chunk_attempt (chunk : Chunk) (chunk_code : string)
    (error : option string) (w : world) : chunk_outcome * world :=
  let prompt := build_prompt chunk_code error in
  let '(response, w1) := llm prompt w in
  match response with
  | inr e => (Retry (Some e), w1)
  | inl response =>
      let upgraded := clean_llm_response response in
      if decide (strip upgraded = "") then (Retry (Some "Empty response"), w1)
      else if startswith_any apology_prefixes (lower (strip upgraded))
      then (Retry (Some "LLM returned placeholder text"), w1)
      else
        let '(is_valid, error) := validate_syntax upgraded in
        if is_valid
        then (Upgraded
                (if decide (imports chunk = "") then upgraded
                 else strip (replace (imports chunk) "" upgraded))
                (extract_api_changes (code chunk) upgraded), w1)
        else (Retry error, w1)
  end.

(** The attempts on one chunk: the accepted piece, its changes and the
    attempt that produced it, or [None] when every attempt failed. *)
Fixpoint chunk_attempts (attempts : list nat) (chunk : Chunk)
    (chunk_code : string) (error : option string) (w : world)
    : option (string * list string * nat) * world :=
  match attempts with
  | [] => (None, w)
  | attempt :: attempts' =>
      match chunk_attempt chunk chunk_code error w with
      | (Upgraded piece changes, w') => (Some (piece, changes, attempt), w')
      | (Retry error', w') => chunk_attempts attempts' chunk chunk_code error' w'
      end
  end.

(** The body of [for i, chunk in enumerate(chunks)]. *)
Definition upgrade_chunk (MAX_RETRIES : nat) (st : chunk_acc * world)
    (chunk : Chunk) : chunk_acc * world :=
  let '(acc, w) := st in
  let chunk_code :=
    if decide (imports chunk = "") then code chunk
    else imports chunk +:+ String nl (String nl "") +:+ code chunk in
  match chunk_attempts (attempts_from MAX_RETRIES 1) chunk chunk_code None w with
  | (Some (piece, changes, attempt), w') =>
      (mkAcc (upgraded_chunks acc ++ [piece]) (all_api_changes acc ++ changes)
         (total_attempts acc + attempt) (failed_chunks acc), w')
  | (None, w') =>
      (mkAcc (upgraded_chunks acc ++ [code chunk]) (all_api_changes acc)
         (total_attempts acc + MAX_RETRIES) (failed_chunks acc ++ [name chunk]),
       w')
  end.

Definition upgrade_chunks (MAX_RETRIES : nat) (chunks : list Chunk) (w : world)
    : chunk_acc * world :=
  foldl (upgrade_chunk MAX_RETRIES) (mkAcc [] [] 0 [], w) chunks.

(** The file written at the end: the imports of the first chunk, then
    the pieces, separated by blank lines. *)
Definition final_code (first_chunk : Chunk) (pieces : list string) : string :=
  join (String nl (String nl ""))
    ((if decide (imports first_chunk = "") then [] else [imports first_chunk])
     ++ pieces).

(** [(len(chunks) - len(failed_chunks)) / len(chunks)], as an exact
    fraction; the float quotient compares with [0.8] in the same way
    for every number of chunks a file can have. *)
Definition success_rate (n_chunks n_failed : nat) : Q :=
  (inject_Z (Z.of_nat n_chunks - Z.of_nat n_failed) / inject_Z (Z.of_nat n_chunks))%Q.

Definition result_error (failed : list string) (is_valid : bool)
    (final_error : option string) : option string :=
  let e1 := match failed with
            | [] => None
            | _ => Some ("Failed chunks: " +:+ join ", " failed)
            end in
  if is_valid then e1
  else match e1 with
       | Some e => Some (e +:+ "; Validation error: " +:+ fmt final_error)
       | None => Some ("Validation error: " +:+ fmt final_error)
       end.

Definition _upgrade_chunked (MAX_RETRIES : nat)
    (input_path output_path old_code : string) (w : world)
    : res (FileUpgradeResult * world) :=
  chunks ← chunk_by_functions ast_parse 300 old_code;
  let '(acc, w1) := upgrade_chunks MAX_RETRIES chunks w in
  match chunks with
  | [] => Raise IndexError
  | first_chunk :: _ =>
      let code' := final_code first_chunk (upgraded_chunks acc) in
      let w2 := write_file output_path code' w1 in
      let '(is_valid, final_error) := validate_code (fs w2) output_path in
      let rate := success_rate (length chunks) (length (failed_chunks acc)) in
      let success := is_valid && Qle_bool (8 # 10) rate in
      Ok (mkResult input_path success (total_attempts acc) (all_api_changes acc)
            (result_error (failed_chunks acc) is_valid final_error)
            (if success
             then Some (generate_diff old_code code' (basename input_path))
             else None),
          w2)
  end.

(** *** upgrade_file

    [MAX_RETRIES] and [MAX_RETRIES_CHUNK] are the two retry budgets read
    from the environment.  The pre-validation of the input only prints
    and is left out. *)
Definition upgrade_file (MAX_RETRIES MAX_RETRIES_CHUNK : nat)
    (input_path output_path : string) (w : world)
    : res (FileUpgradeResult * world) :=
  match fs w !! input_path with
  | None => Ok (mkResult input_path false 0 [] (Some "Input file not found") None, w)
  | Some old_code =>
      match should_skip_for_upgrade (fs w) input_path with
      | Some (String c r as skip_reason) =>
          Ok (mkResult input_path false 0 [] (Some skip_reason) None, w)
      | _ =>
          let line_count := length (split_lines old_code) in
          if decide (line_count < 1000)
          then Ok (_upgrade_standard input_path output_path old_code MAX_RETRIES w)
          else if decide (line_count < 3000)
          then
            let '(result, w1) :=
              _upgrade_standard input_path output_path old_code MAX_RETRIES w in
            if escalates result
            then _upgrade_chunked MAX_RETRIES_CHUNK input_path output_path old_code w1
            else Ok (result, w1)
          else _upgrade_chunked MAX_RETRIES_CHUNK input_path output_path old_code w
      end
  end.

(** *** The retry loop of [_upgrade_standard] *)

Lemma attempts_from_cons MAX_RETRIES attempt :
  attempt ≤ MAX_RETRIES →
  attempts_from MAX_RETRIES attempt
    = attempt :: attempts_from MAX_RETRIES (attempt + 1).
Proof.
  intros Hle. unfold attempts_from.
  replace (attempt + 1) with (S attempt) by lia.
  by replace (MAX_RETRIES + 1 - attempt) with (S (MAX_RETRIES + 1 - S attempt))
    by lia.
Qed.

Lemma attempts_from_end MAX_RETRIES :
  attempts_from MAX_RETRIES (MAX_RETRIES + 1) = [].
Proof. unfold attempts_from. by rewrite Nat.sub_diag. Qed.




(** C8: when the candidate the model returns is neither empty nor a
    placeholder and the validator rejects it with the message [verr],
    the attempt ends with the candidate as the current code and [verr]
    as the error.  If the attempt was not the last one the loop goes on
    with the next attempt number from that state, and the prompt of the
    next attempt is built from the candidate and [verr]; if it was the
    last one the loop ends with the failure result carrying [verr]. *)
Theorem validation_failure_feeds_candidate_forward
    (input_path output_path old_code : string) (MAX_RETRIES : nat)
    (attempt : nat) (current_code : string) (error : option string)
    (w : world) (response : string) (verr : option string) :
  attempt ≤ MAX_RETRIES →
  call_llm (llm_log w) (build_prompt current_code error) = inl response →
  let new_code := clean_llm_response response in
  strip new_code ≠ "" →
  startswith_any apology_prefixes (lower (strip new_code))
    || startswith "# upgraded code here" (strip new_code) = false →
  let w2 := mkWorld (<[output_path := new_code]> (fs w))
              (llm_log w ++ [build_prompt current_code error]) in
  validate_code (fs w2) output_path = (false, verr) →
  standard_attempt input_path output_path old_code attempt current_code error w
    = (Continue new_code verr, w2) ∧
  (attempt < MAX_RETRIES →
     standard_loop input_path output_path old_code MAX_RETRIES
         (attempts_from MAX_RETRIES attempt) current_code error w
       = standard_loop input_path output_path old_code MAX_RETRIES
           (attempts_from MAX_RETRIES (attempt + 1)) new_code verr w2 ∧
     attempts_from MAX_RETRIES (attempt + 1) ≠ [] ∧
     llm_log (standard_attempt input_path output_path old_code (attempt + 1)
                new_code verr w2).2
       = llm_log w2 ++ [build_prompt new_code verr]) ∧
  (attempt = MAX_RETRIES →
     standard_loop input_path output_path old_code MAX_RETRIES
         (attempts_from MAX_RETRIES attempt) current_code error w
       = (mkResult input_path false MAX_RETRIES [] (Some (or_default verr)) None,
          w2)).
Proof.
  intros Hle Hcall new_code Hne Hok w2 Hval.
  assert (standard_attempt input_path output_path old_code attempt
            current_code error w = (Continue new_code verr, w2)) as Hstep.
  { unfold standard_attempt, llm. rewrite Hcall. fold new_code.
    rewrite decide_False by done. rewrite Hok.
    unfold write_file, w2 in *. simpl in *. by rewrite Hval. }
  split_and!.
  - done.
  - intros Hlt. split_and!.
    + rewrite (attempts_from_cons _ attempt) by done. simpl. by rewrite Hstep.
    + rewrite attempts_from_cons by lia. done.
    + unfold standard_attempt, llm. simpl.
      destruct (call_llm _ _) as [resp|e]; simpl.
      * repeat case_match; done.
      * by case_match.
  - intros ->. rewrite attempts_from_cons by done. simpl. rewrite Hstep.
    by rewrite attempts_from_end.
Qed.

(** *** The verdict of [_upgrade_chunked] *)

Lemma success_rate_threshold (n_chunks n_failed : nat) :
  0 < n_chunks →
  Qle_bool (8 # 10) (success_rate n_chunks n_failed) = true ↔
  (inject_Z (Z.of_nat n_failed) / inject_Z (Z.of_nat n_chunks) <= 2 # 10)%Q.
Proof.
  intros Hn. rewrite Qle_bool_iff. unfold success_rate.
  destruct (Z.of_nat n_chunks) as [|p|p] eqn:E; [lia| |lia].
  unfold Qle, Qdiv, Qmult, Qinv, inject_Z. simpl. lia.
Qed.

(** *** The chunks one by one

    What the loop over the chunks of [_upgrade_chunked] leaves in its
    four accumulators, read off the outcome of the attempts on each
    chunk. *)

(** The text sent to the model for a chunk: its code, after its import
    block when it has one. *)
Definition chunk_code_of (chunk : Chunk) : string :=
  if decide (imports chunk = "") then code chunk
  else imports chunk +:+ String nl (String nl "") +:+ code chunk.

(** The attempts on the chunks, one chunk after the other: for each
    chunk the accepted piece, its API changes and the number of the
    attempt that gave it, or [None] when every attempt on it failed. *)
Fixpoint attempts_on (MAX_RETRIES : nat) (chunks : list Chunk) (w : world)
    : list (option (string * list string * nat)) * world :=
  match chunks with
  | [] => ([], w)
  | chunk :: chunks' =>
      let '(outcome, w1) :=
        chunk_attempts (attempts_from MAX_RETRIES 1) chunk (chunk_code_of chunk)
          None w in
      let '(outcomes, w2) := attempts_on MAX_RETRIES chunks' w1 in
      (outcome :: outcomes, w2)
  end.

(** The piece kept for a chunk: the accepted one, or the chunk's own
    code when every attempt failed. *)
Definition kept_piece (chunk : Chunk)
    (outcome : option (string * list string * nat)) : string :=
  match outcome with
  | Some (piece, _, _) => piece
  | None => code chunk
  end.

(** The names of the chunks on which every attempt failed, in the order
    of the chunks. *)
Definition failed_names (chunks : list Chunk)
    (outcomes : list (option (string * list string * nat))) : list string :=
  (λ co, name co.1) <$> filter (λ co, co.2 = None) (zip chunks outcomes).

(** The API changes of the accepted pieces. *)
Definition changes_of (outcome : option (string * list string * nat))
    : list string :=
  match outcome with
  | Some (_, changes, _) => changes
  | None => []
  end.

(** What a chunk adds to [total_attempts]. *)
Definition attempts_of (MAX_RETRIES : nat)
    (outcome : option (string * list string * nat)) : nat :=
  match outcome with
  | Some (_, _, attempt) => attempt
  | None => MAX_RETRIES
  end.

Lemma attempts_on_length MAX_RETRIES chunks w :
  length (attempts_on MAX_RETRIES chunks w).1 = length chunks.
Proof.
  revert w. induction chunks as [|chunk chunks IH]; intros w; [done|].
  simpl. destruct (chunk_attempts _ _ _ _ _) as [outcome w1].
  specialize (IH w1). destruct (attempts_on MAX_RETRIES chunks w1) as [os w2].
  simpl in *. by rewrite IH.
Qed.

Lemma failed_names_cons chunk chunks outcome outcomes :
  failed_names (chunk :: chunks) (outcome :: outcomes)
    = (if decide (outcome = None) then [name chunk] else [])
      ++ failed_names chunks outcomes.
Proof.
  unfold failed_names. simpl. rewrite filter_cons. simpl. by case_decide.
Qed.

Lemma failed_names_length chunks outcomes :
  length (failed_names chunks outcomes) ≤ length chunks.
Proof.
  unfold failed_names. rewrite length_fmap.
  etrans; [apply length_filter|]. rewrite length_zip_with. lia.
Qed.

(** The accumulators after the loop, from the outcomes of the chunks. *)
Lemma upgrade_chunks_outcomes MAX_RETRIES chunks :
  ∀ acc w,
    foldl (upgrade_chunk MAX_RETRIES) (acc, w) chunks
    = (mkAcc
         (upgraded_chunks acc
            ++ zip_with kept_piece chunks (attempts_on MAX_RETRIES chunks w).1)
         (all_api_changes acc
            ++ concat (changes_of <$> (attempts_on MAX_RETRIES chunks w).1))
         (total_attempts acc
            + sum_list (attempts_of MAX_RETRIES
                          <$> (attempts_on MAX_RETRIES chunks w).1))
         (failed_chunks acc
            ++ failed_names chunks (attempts_on MAX_RETRIES chunks w).1),
       (attempts_on MAX_RETRIES chunks w).2).
Proof.
  induction chunks as [|chunk chunks IH]; intros acc w.
  { simpl. unfold failed_names. simpl. rewrite !app_nil_r, Nat.add_0_r.
    by destruct acc. }
  change (foldl (upgrade_chunk MAX_RETRIES) (acc, w) (chunk :: chunks))
    with (foldl (upgrade_chunk MAX_RETRIES)
            (upgrade_chunk MAX_RETRIES (acc, w) chunk) chunks).
  change (attempts_on MAX_RETRIES (chunk :: chunks) w)
    with (let '(outcome, w1) :=
            chunk_attempts (attempts_from MAX_RETRIES 1) chunk
              (chunk_code_of chunk) None w in
          let '(outcomes, w2) := attempts_on MAX_RETRIES chunks w1 in
          (outcome :: outcomes, w2)).
  unfold upgrade_chunk at 2. fold (chunk_code_of chunk).
  destruct (chunk_attempts (attempts_from MAX_RETRIES 1) chunk
              (chunk_code_of chunk) None w)
    as [[[[piece changes] attempt]|] w1]; rewrite IH;
    destruct (attempts_on MAX_RETRIES chunks w1) as [outcomes w2];
    cbn [fst snd upgraded_chunks all_api_changes total_attempts failed_chunks];
    rewrite failed_names_cons; simpl;
    rewrite <-?(assoc (++)); simpl; f_equal; f_equal;
    first [done | symmetry; apply Nat.add_assoc].
Qed.

(** The result of [_upgrade_chunked], from the outcomes of the chunks
    and the verdict on the file it writes. *)
Definition reassembled (first_chunk : Chunk) (chunks : list Chunk)
    (outcomes : list (option (string * list string * nat))) : string :=
  join (String nl (String nl ""))
    ((if decide (imports first_chunk = "") then [] else [imports first_chunk])
     ++ zip_with kept_piece chunks outcomes).

Lemma upgrade_chunked_unfold MAX_RETRIES input_path output_path old_code w
    first_chunk rest outcomes w1 is_valid final_error :
  chunk_by_functions ast_parse 300 old_code = Ok (first_chunk :: rest) →
  attempts_on MAX_RETRIES (first_chunk :: rest) w = (outcomes, w1) →
  validate_code
    (<[output_path := reassembled first_chunk (first_chunk :: rest) outcomes]>
       (fs w1)) output_path = (is_valid, final_error) →
  _upgrade_chunked MAX_RETRIES input_path output_path old_code w
  = Ok (mkResult input_path
          (is_valid && Qle_bool (8 # 10)
             (success_rate (length (first_chunk :: rest))
                (length (failed_names (first_chunk :: rest) outcomes))))
          (sum_list (attempts_of MAX_RETRIES <$> outcomes))
          (concat (changes_of <$> outcomes))
          (result_error (failed_names (first_chunk :: rest) outcomes)
             is_valid final_error)
          (if is_valid && Qle_bool (8 # 10)
                (success_rate (length (first_chunk :: rest))
                   (length (failed_names (first_chunk :: rest) outcomes)))
           then Some (generate_diff old_code
                        (reassembled first_chunk (first_chunk :: rest) outcomes)
                        (basename input_path))
           else None),
        mkWorld
          (<[output_path := reassembled first_chunk (first_chunk :: rest) outcomes]>
             (fs w1))
          (llm_log w1)).
Proof.
  intros Hchunks Hon Hval.
  pose proof (upgrade_chunks_outcomes MAX_RETRIES (first_chunk :: rest)
                (mkAcc [] [] 0 []) w) as Hup.
  rewrite Hon in Hup.
  cbn [fst snd upgraded_chunks all_api_changes total_attempts failed_chunks
       app] in Hup.
  unfold _upgrade_chunked. rewrite Hchunks. unfold mbind, res_bind.
  cbv beta iota. unfold upgrade_chunks. rewrite Hup. cbv beta iota zeta.
  cbn [upgraded_chunks all_api_changes total_attempts failed_chunks].
  unfold final_code, write_file. cbn [fs].
  fold (reassembled first_chunk (first_chunk :: rest) outcomes).
  by rewrite Hval.
Qed.

(** C5: a chunked upgrade returns a result.  A chunk has failed when
    every attempt on it failed; its own code is then kept as its piece
    and its name recorded.  The file written at the output path is the
    import block of the first chunk, when it has one, and the pieces,
    joined by blank lines; it is written whatever the outcome.  The
    result reports success exactly when that file passes validation and
    at most a fifth of the chunks failed, that is, at least four fifths
    of them were upgraded.  A failure result names the failed chunks,
    if any, and gives the validator's message, if validation failed. *)
Theorem chunked_success_iff_valid_and_enough_chunks (MAX_RETRIES : nat)
    (input_path output_path old_code : string) (w : world) :
  ∃ first_chunk rest outcomes w1 is_valid final_error result,
    let chunks := first_chunk :: rest in
    let failed := failed_names chunks outcomes in
    let code' :=
      join (String nl (String nl ""))
        ((if decide (imports first_chunk = "") then []
          else [imports first_chunk])
         ++ zip_with kept_piece chunks outcomes) in
    let w2 := mkWorld (<[output_path := code']> (fs w1)) (llm_log w1) in
    chunk_by_functions ast_parse 300 old_code = Ok chunks ∧
    attempts_on MAX_RETRIES chunks w = (outcomes, w1) ∧
    length outcomes = length chunks ∧
    validate_code (fs w2) output_path = (is_valid, final_error) ∧
    _upgrade_chunked MAX_RETRIES input_path output_path old_code w
      = Ok (result, w2) ∧
    (success result = true ↔
       is_valid = true ∧
       (inject_Z (Z.of_nat (length failed)) / inject_Z (Z.of_nat (length chunks))
          <= 2 # 10)%Q) ∧
    (success result = true ↔
       is_valid = true ∧
       (8 # 10 <= inject_Z (Z.of_nat (length chunks) - Z.of_nat (length failed))
                    / inject_Z (Z.of_nat (length chunks)))%Q) ∧
    (success result = false → failed ≠ [] ∨ is_valid = false) ∧
    (failed ≠ [] → is_valid = true →
       error result = Some ("Failed chunks: " +:+ join ", " failed)) ∧
    (failed ≠ [] → is_valid = false →
       error result = Some ("Failed chunks: " +:+ join ", " failed
                            +:+ "; Validation error: " +:+ fmt final_error)) ∧
    (failed = [] → is_valid = false →
       error result = Some ("Validation error: " +:+ fmt final_error)) ∧
    (failed = [] → is_valid = true → error result = None) ∧
    file_path result = input_path ∧
    diff result
      = (if success result
         then Some (generate_diff old_code code' (basename input_path))
         else None) ∧
    fs w2 !! output_path = Some code' ∧
    (∀ p, p ≠ output_path → fs w2 !! p = fs w1 !! p) ∧
    length failed ≤ length chunks.
Proof.
  destruct (chunk_by_functions_nonempty ast_parse 300 old_code)
    as (first_chunk & rest & Hchunks); [lia|].
  pose proof (attempts_on_length MAX_RETRIES (first_chunk :: rest) w) as Hlen.
  destruct (attempts_on MAX_RETRIES (first_chunk :: rest) w)
    as [outcomes w1] eqn:Hon.
  cbn [fst] in Hlen.
  pose proof (failed_names_length (first_chunk :: rest) outcomes) as Hfailed.
  destruct (validate_code
              (<[output_path := reassembled first_chunk (first_chunk :: rest)
                                  outcomes]> (fs w1))
              output_path) as [is_valid final_error] eqn:Hval.
  pose proof (upgrade_chunked_unfold MAX_RETRIES input_path output_path
                old_code w first_chunk rest outcomes w1 is_valid final_error
                Hchunks Hon Hval) as Hrun.
  unfold reassembled in Hval, Hrun.
  set (failed := failed_names (first_chunk :: rest) outcomes) in *.
  set (code' :=
         join (String nl (String nl ""))
           ((if decide (imports first_chunk = "") then []
             else [imports first_chunk])
            ++ zip_with kept_piece (first_chunk :: rest) outcomes)) in *.
  eexists first_chunk, rest, outcomes, w1, is_valid, final_error, _.
  cbv zeta. fold failed. fold code'.
  assert (0 < length (first_chunk :: rest)) as Hpos by (simpl; lia).
  pose proof (success_rate_threshold (length (first_chunk :: rest))
                (length failed) Hpos) as Hrate.
  split; [done|]. split; [done|]. split; [done|]. split; [done|].
  split; [exact Hrun|]. cbn [success error file_path diff fs].
  split_and!.
  - rewrite andb_true_iff. by rewrite Hrate.
  - rewrite andb_true_iff, Qle_bool_iff. done.
  - intros Hfail. destruct is_valid; [|by right]. left.
    intros Hnil. apply andb_false_iff in Hfail as [?|Hfail]; [done|].
    apply not_true_iff_false in Hfail. apply Hfail, Hrate.
    rewrite Hnil. simpl length. unfold Qle, Qdiv, Qmult, Qinv, inject_Z.
    simpl. lia.
  - intros Hne ->. unfold result_error. by destruct failed.
  - intros Hne ->. unfold result_error.
    destruct failed; [done|]. by rewrite append_assoc.
  - intros Hnil ->. unfold result_error. by rewrite Hnil.
  - intros Hnil ->. unfold result_error. by rewrite Hnil.
  - done.
  - done.
  - by rewrite lookup_insert_eq.
  - intros p Hp. by rewrite lookup_insert_ne.
  - done.
Qed.

End upgrader.

(** *** A run with concrete collaborators

    The model answers the first prompt with the candidate [x = 2] and
    fails on the context length from then on; prompts are the current
    code; the validator rejects everything. *)
Definition demo_llm (log : list string) (prompt : string) : string + string :=
  match log with
  | [] => inl "x = 2"
  | _ => inr "context_length exceeded"
  end.
Definition demo_prompt (current_code : string) (error : option string) : string :=
  current_code.
Definition demo_validate_code (files : gmap string string) (path : string)
    : bool * option string := (false, Some "SyntaxError").
Definition demo_validate_syntax (src : string) : bool * option string :=
  (false, Some "SyntaxError").
Definition demo_changes (old new : string) : list string := [].
Definition demo_diff (old new name : string) : string := "".
Definition demo_basename (path : string) : string := path.
Definition demo_skip (files : gmap string string) (path : string)
    : option string := None.
Definition demo_parse (src : string) : option module_ast := None.





Lemma validation_failure_feeds_candidate_forward_witness :
  standard_attempt demo_llm demo_prompt demo_validate_code
      demo_changes demo_diff demo_basename "a.py" "out.py" "x = 1" 1
      "x = 1" None (mkWorld ∅ [])
    = (Continue "x = 2" (Some "SyntaxError"),
       mkWorld (<["out.py" := "x = 2"]> ∅) ["x = 1"]).
Proof.
  apply (validation_failure_feeds_candidate_forward demo_llm demo_prompt
           demo_validate_code demo_changes demo_diff demo_basename
           "a.py" "out.py" "x = 1" 2 1 "x = 1" None (mkWorld ∅ []) "x = 2"
           (Some "SyntaxError"));
    [lia | reflexivity | done | reflexivity | reflexivity].
Defined.

End AgenticUpgrader.

(** ** cache_manager.py *)

Module CacheManager.
Import PyStr.

(** One record of [self.cache_data["files"]].  A record read back from
    disk may lack keys, which the code reads with [.get]. *)
Record entry : Type := mkEntry {
  success : option bool;
  attempts : nat;
  timestamp : string;
  input_hash : option string;
  error : option string;
  api_changes : list string;
  cached_output : option string
}.

Definition set_cached_output (e : entry) (path : string) : entry :=
  mkEntry (success e) (attempts e) (timestamp e) (input_hash e) (error e)
    (api_changes e) (Some path).

Fixpoint last_char (s : string) : option ascii :=
  match s with
  | EmptyString => None
  | String c EmptyString => Some c
  | String _ s' => last_char s'
  end.

(** [os.path.join(a, b)] on POSIX paths *)
Definition path_join (a b : string) : string :=
  if startswith "/" b then b
  else if decide (a = "") then b
  else if decide (last_char a = Some "/"%char) then a +:+ b
  else a +:+ "/" +:+ b.

(** The carriage return. *)
Definition cr : ascii := "013"%char.

(** What [open(path, 'r')] followed by [f.read()] returns for a file
    with the given content: in text mode a carriage return followed by
    a newline, and every other carriage return, is read as one
    newline.  ([open(path, 'w')] writes the text as it is.) *)
Fixpoint read_text (content : string) : string :=
  match content with
  | EmptyString => EmptyString
  | String c rest =>
      if decide (c = cr) then
        match rest with
        | String c' rest' =>
            if decide (c' = nl) then String nl (read_text rest')
            else String nl (read_text rest)
        | EmptyString => String nl EmptyString
        end
      else String c (read_text rest)
  end.

(** The text has a carriage return in it. *)
Fixpoint has_carriage_return (s : string) : bool :=
  match s with
  | EmptyString => false
  | String c rest => bool_decide (c = cr) || has_carriage_return rest
  end.

(** The cache manager's memory and the file system, by path. *)
Record state : Type := mkState {
  cache_data : gmap string entry;
  disk : gmap string string
}.

Section cache.

(** [self.repo_path]; [relpath p] is [os.path.relpath(p, self.repo_path)],
    which is never an absolute path; [md5] is the hex digest of a
    file's content and [dumps] the JSON text of the cache. *)
Variable repo_path : string.
Variable relpath : string → string.
Variable md5 : string → string.
Variable dumps : gmap string entry → string.
Hypothesis relpath_relative : ∀ p, startswith "/" (relpath p) = false.

Definition cache_dir : string := path_join repo_path ".ml_upgrader_cache".
Definition cache_file : string := path_join cache_dir "upgrade_cache.json".

(** [os.path.join(self.cache_dir, "upgraded", rel_path)] *)
Definition code_cache_path (rel_path : string) : string :=
  path_join (path_join cache_dir "upgraded") rel_path.

(** [_get_file_hash]: the empty string when the file cannot be read. *)
Definition _get_file_hash (files : gmap string string) (file_path : string)
    : string :=
  match files !! file_path with
  | Some content => md5 content
  | None => ""
  end.

(** [_save_cache] *)
Definition _save_cache (st : state) : state :=
  mkState (cache_data st) (<[cache_file := dumps (cache_data st)]> (disk st)).

(** [is_file_cached] *)
Definition is_file_cached (st : state) (file_path : string) : bool :=
  let rel_path := relpath file_path in
  match cache_data st !! rel_path with
  | None => false
  | Some cached_entry =>
      let current_hash := _get_file_hash (disk st) file_path in
      let cached_hash := default "" (input_hash cached_entry) in
      if decide (current_hash ≠ cached_hash) then false
      else if negb (default false (success cached_entry)) then false
      else true
  end.

(** [cache_result]; [result] gives the fields read from the upgrade
    result and [now] is [datetime.now().isoformat()]. *)
Definition cache_result (st : state) (file_path : string)
    (result : ReportGenerator.FileUpgradeResult)
    (upgraded_code : option string) (now : string) : state :=
  let rel_path := relpath file_path in
  let e := mkEntry (Some (ReportGenerator.success result))
             (ReportGenerator.attempts result) now
             (Some (_get_file_hash (disk st) file_path))
             (ReportGenerator.error result)
             (ReportGenerator.api_changes result) None in
  let st1 :=
    match upgraded_code with
    | Some (String c r as code) =>
        if ReportGenerator.success result
        then mkState (<[rel_path := set_cached_output e (code_cache_path rel_path)]>
                        (cache_data st))
               (<[code_cache_path rel_path := code]> (disk st))
        else mkState (<[rel_path := e]> (cache_data st)) (disk st)
    | _ => mkState (<[rel_path := e]> (cache_data st)) (disk st)
    end in
  _save_cache st1.

(** [restore_from_cache] *)
Definition restore_from_cache (st : state) (file_path output_path : string)
    : bool * state :=
  let rel_path := relpath file_path in
  match cache_data st !! rel_path with
  | None => (false, st)
  | Some cached_entry =>
      match cached_output cached_entry with
      | Some (String c r as path) =>
          match disk st !! path with
          | Some cached =>
              let content := read_text cached in
              (true, mkState (cache_data st) (<[output_path := content]> (disk st)))
          | None => (false, st)
          end
      | _ => (false, st)
      end
  end.

(** *** Where the cache keeps its files *)

Lemma last_char_app (a b : string) :
  b ≠ "" → last_char (a +:+ b) = last_char b.
Proof.
  intros Hb. induction a as [|x a IH]; [done|].
  rewrite append_cons. simpl. rewrite IH.
  destruct (a +:+ b) eqn:E; [|done].
  destruct a; [|done]. simpl in E. by subst.
Qed.

Lemma path_join_relative (a b : string) :
  a ≠ "" → last_char a ≠ Some "/"%char → startswith "/" b = false →
  path_join a b = a +:+ "/" +:+ b.
Proof.
  intros Ha Hlast Hb. unfold path_join. rewrite Hb.
  by rewrite decide_False, decide_False.
Qed.

Lemma app_nonempty_r (a b : string) : b ≠ "" → a +:+ b ≠ "".
Proof. intros Hb. destruct a; [done|]. by rewrite append_cons. Qed.

Lemma cache_dir_shape :
  cache_dir ≠ "" ∧ last_char cache_dir = Some "e"%char.
Proof.
  unfold cache_dir, path_join.
  change (startswith "/" ".ml_upgrader_cache") with false. cbv iota.
  repeat case_decide; subst; try done;
    (split; [by apply app_nonempty_r|by rewrite !last_char_app]).
Qed.

Lemma cache_file_eq : cache_file = cache_dir +:+ "/upgrade_cache.json".
Proof.
  destruct cache_dir_shape as [Hne Hlast]. unfold cache_file.
  apply path_join_relative; [done|by rewrite Hlast|done].
Qed.

Lemma code_cache_path_eq rel_path :
  startswith "/" rel_path = false →
  code_cache_path rel_path = cache_dir +:+ "/upgraded/" +:+ rel_path.
Proof.
  intros Hrel. destruct cache_dir_shape as [Hne Hlast]. unfold code_cache_path.
  rewrite (path_join_relative cache_dir) by (done || by rewrite Hlast).
  rewrite path_join_relative; [|by apply app_nonempty_r| |done].
  - by rewrite !append_assoc.
  - by rewrite !last_char_app.
Qed.

Lemma code_cache_path_not_cache_file file_path :
  code_cache_path (relpath file_path) ≠ cache_file.
Proof.
  rewrite code_cache_path_eq, cache_file_eq by apply relpath_relative.
  intros Heq%(inj (String.app cache_dir)). discriminate.
Qed.

Lemma code_cache_path_nonempty file_path :
  ∃ c r, code_cache_path (relpath file_path) = String c r.
Proof.
  rewrite code_cache_path_eq by apply relpath_relative.
  destruct cache_dir_shape as [Hne _].
  destruct cache_dir as [|c r]; [done|]. rewrite append_cons. eauto.
Qed.

(** *** Reading in text mode *)

Lemma read_text_no_carriage_return content :
  has_carriage_return (read_text content) = false.
Proof.
  assert (has_carriage_return (read_text content) = false ∧
          ∀ c, has_carriage_return (read_text (String c content)) = false)
    as [H _]; [|done].
  induction content as [|c' rest [IH1 IH2]]; (split; [|intros c]).
  - done.
  - simpl. case_decide; [done|]. simpl. by rewrite bool_decide_eq_false_2.
  - apply IH2.
  - change (read_text (String c (String c' rest)))
      with (if decide (c = cr) then
              if decide (c' = nl) then String nl (read_text rest)
              else String nl (read_text (String c' rest))
            else String c (read_text (String c' rest))).
    repeat case_decide; simpl; rewrite ?bool_decide_eq_false_2 by done;
      simpl; try done; apply IH2.
Qed.

Lemma read_text_unchanged content :
  has_carriage_return content = false → read_text content = content.
Proof.
  induction content as [|c rest IH]; [done|]. simpl.
  intros [Hc Hrest]%orb_false_elim. apply bool_decide_eq_false in Hc.
  rewrite decide_False by done. by rewrite IH.
Qed.

Lemma read_text_changed content :
  has_carriage_return content = true → read_text content ≠ content.
Proof.
  intros Hcr Heq. pose proof (read_text_no_carriage_return content) as Hno.
  rewrite Heq in Hno. congruence.
Qed.

(** C7, amended: after a successful result is recorded together with
    a non-empty output [O], the cache holds [O] under the file's cache
    path; from then on, in any state with the same records in which the
    cached copy is untouched and the hash of the file's content equals
    the hash taken when the result was recorded, [is_file_cached]
    returns true and [restore_from_cache] returns true and leaves at
    the destination [O] as it is read back in text mode: exactly [O]
    when [O] has no carriage return, and otherwise [O] with its
    carriage returns read as newlines, which is another text.
    [is_file_cached] returns false when the file has no record, when
    the hash of its content differs from the recorded one, and when the
    recorded success flag is not true. *)
Theorem cache_round_trip (st : state) (file_path : string)
    (result : ReportGenerator.FileUpgradeResult) (O : string) (now : string) :
  ReportGenerator.success result = true →
  O ≠ "" →
  let st1 := cache_result st file_path result (Some O) now in
  disk st1 !! code_cache_path (relpath file_path) = Some O ∧
  (∀ st2 output_path,
     cache_data st2 = cache_data st1 →
     disk st2 !! code_cache_path (relpath file_path)
       = disk st1 !! code_cache_path (relpath file_path) →
     _get_file_hash (disk st2) file_path = _get_file_hash (disk st) file_path →
     is_file_cached st2 file_path = true ∧
     restore_from_cache st2 file_path output_path
       = (true, mkState (cache_data st2)
                  (<[output_path := read_text O]> (disk st2))) ∧
     (restore_from_cache st2 file_path output_path).2.(disk) !! output_path
       = Some (read_text O) ∧
     (has_carriage_return O = false →
      (restore_from_cache st2 file_path output_path).2.(disk) !! output_path
        = Some O) ∧
     (has_carriage_return O = true →
      (restore_from_cache st2 file_path output_path).2.(disk) !! output_path
        ≠ Some O)) ∧
  (∀ st' f, cache_data st' !! relpath f = None → is_file_cached st' f = false) ∧
  (∀ st' f e, cache_data st' !! relpath f = Some e →
     _get_file_hash (disk st') f ≠ default "" (input_hash e) →
     is_file_cached st' f = false) ∧
  (∀ st' f e, cache_data st' !! relpath f = Some e →
     default false (success e) = false → is_file_cached st' f = false).
Proof.
  intros Hok HO st1.
  assert (∃ c0 r0, O = String c0 r0) as (c0 & r0 & HOeq)
    by (destruct O; [done|eauto]).
  destruct (code_cache_path_nonempty file_path) as (c & r & Hpath).
  assert (cache_data st1 !! relpath file_path
          = Some (mkEntry (Some true) (ReportGenerator.attempts result) now
                    (Some (_get_file_hash (disk st) file_path))
                    (ReportGenerator.error result)
                    (ReportGenerator.api_changes result)
                    (Some (code_cache_path (relpath file_path))))) as Hentry.
  { unfold st1, cache_result. rewrite Hok, HOeq. simpl.
    by rewrite lookup_insert_eq. }
  assert (disk st1 !! code_cache_path (relpath file_path) = Some O)
    as Hdisk.
  { unfold st1, cache_result. rewrite Hok, HOeq. simpl.
    rewrite lookup_insert_ne by (apply not_eq_sym, code_cache_path_not_cache_file).
    by rewrite lookup_insert_eq. }
  split_and!.
  - done.
  - intros st2 output_path Hdata Hcopy Hhash.
    assert (restore_from_cache st2 file_path output_path
       = (true, mkState (cache_data st2)
                  (<[output_path := read_text O]> (disk st2)))) as Hrestore.
    { unfold restore_from_cache. rewrite Hdata, Hentry.
      cbn [cached_output]. rewrite Hpath. rewrite <-Hpath.
      by rewrite Hcopy, Hdisk. }
    split_and!.
    + unfold is_file_cached. rewrite Hdata, Hentry. simpl.
      by rewrite decide_False by (by rewrite Hhash; intros []).
    + done.
    + rewrite Hrestore. cbn [snd disk]. by rewrite lookup_insert_eq.
    + intros Hcr. rewrite Hrestore. cbn [snd disk].
      by rewrite lookup_insert_eq, read_text_unchanged.
    + intros Hcr. rewrite Hrestore. cbn [snd disk].
      rewrite lookup_insert_eq. intros [= Heq].
      by apply (read_text_changed O).
  - intros st' f Hnone. unfold is_file_cached. by rewrite Hnone.
  - intros st' f e He Hdiff. unfold is_file_cached. rewrite He.
    by rewrite decide_True.
  - intros st' f e He Hfalse. unfold is_file_cached. rewrite He, Hfalse.
    simpl. by case_decide.
Qed.

End cache.

(** *** A cache with concrete collaborators *)

Definition demo_relpath (p : string) : string :=
  if startswith "/" p then "file.py" else p.
Definition demo_md5 (content : string) : string := "md5:" +:+ content.
Definition demo_dumps (records : gmap string entry) : string := "{}".

Lemma demo_relpath_relative p : startswith "/" (demo_relpath p) = false.
Proof. unfold demo_relpath. by destruct (startswith "/" p) eqn:E. Qed.

Definition demo_state : state := mkState ∅ (<["a.py" := "x = 1"]> ∅).

Definition demo_result : ReportGenerator.FileUpgradeResult :=
  ReportGenerator.mkResult "a.py" true 1 [] None None.

(** C7, as stated, fails when the recorded output is the empty string:
    [cache_result] keeps no copy of an empty output, so the file counts
    as cached while [restore_from_cache] returns false and writes
    nothing. *)
Lemma empty_output_is_not_restored :
  let st1 := cache_result "/repo" demo_relpath demo_md5 demo_dumps
               demo_state "a.py" demo_result (Some "") "2025-01-01T00:00:00" in
  is_file_cached demo_relpath demo_md5 st1 "a.py" = true ∧
  restore_from_cache demo_relpath st1 "a.py" "out.py" = (false, st1) ∧
  disk st1 !! "out.py" = None.
Proof. split_and!; vm_compute; reflexivity. Qed.

(** A cached output that ends in a carriage return and a newline comes
    back with a newline alone. *)
Lemma carriage_return_is_not_restored :
  let O := "x = 2" +:+ String cr (String nl "") in
  let st1 := cache_result "/repo" demo_relpath demo_md5 demo_dumps
               demo_state "a.py" demo_result (Some O) "2025-01-01T00:00:00" in
  is_file_cached demo_relpath demo_md5 st1 "a.py" = true ∧
  (restore_from_cache demo_relpath st1 "a.py" "out.py").2.(disk) !! "out.py"
    = Some ("x = 2" +:+ String nl "").
Proof. split; vm_compute; reflexivity. Qed.

Lemma cache_round_trip_witness :
  let st1 := cache_result "/repo" demo_relpath demo_md5 demo_dumps
               demo_state "a.py" demo_result (Some "x = 2")
               "2025-01-01T00:00:00" in
  is_file_cached demo_relpath demo_md5 st1 "a.py" = true ∧
  restore_from_cache demo_relpath st1 "a.py" "out.py"
    = (true, mkState (cache_data st1) (<["out.py" := "x = 2"]> (disk st1))).
Proof.
  destruct (cache_round_trip "/repo" demo_relpath demo_md5 demo_dumps
              demo_relpath_relative demo_state "a.py" demo_result "x = 2"
              "2025-01-01T00:00:00" eq_refl ltac:(discriminate))
    as (_ & Hhit & _).
  destruct (Hhit (cache_result "/repo" demo_relpath demo_md5 demo_dumps
                    demo_state "a.py" demo_result (Some "x = 2")
                    "2025-01-01T00:00:00") "out.py" eq_refl eq_refl eq_refl)
    as (H1 & H2 & _).
  exact (conj H1 H2).
Defined.

End CacheManager.

(** ** dependency_analyzer.py: further properties *)

Module AnalyzerFacts.
Import DependencyAnalyzer.

(** [max(get_level(dep, ...) for dep in deps)] read off the finished
    [levels] dictionary. *)
Definition max_level (levels : gmap node nat) (ds : list node) : nat :=
  max_list ((λ d, default 0 (levels !! d)) <$> ds).

(** The level the docstring of [get_dependency_levels] describes:
    0 without dependencies, otherwise one more than the highest
    dependency. *)
Definition level_rule (g : graph) (levels : gmap node nat) (a : node) : nat :=
  match deps g a with
  | [] => 0
  | ds => max_level levels ds + 1
  end.

Definition exact (g : graph) (levels : gmap node nat) : Prop :=
  ∀ a la, levels !! a = Some la → la = level_rule g levels a.

(** *** The edges of the graph [analyze_repository] builds *)

Section built_graph.
Variable _get_module_name : node → string.
Variable _extract_imports : node → list string.

Lemma graph_add_edge g x d a b :
  edge (graph_add g x d) a b ↔ edge g a b ∨ (a = x ∧ b = d).
Proof.
  unfold edge, deps, getitem. rewrite graph_get_add.
  destruct (decide (a = x)) as [->|Hne]; simpl.
  - destruct (graph_get g x) as [ds|]; simpl.
    + case_decide; [set_solver|].
      rewrite elem_of_app, list_elem_of_singleton. naive_solver.
    + rewrite list_elem_of_singleton. split; [naive_solver|].
      intros [[]%elem_of_nil|[_ ->]]. done.
  - destruct (graph_get g a); simpl; naive_solver.
Qed.

Lemma add_imports_edge (m : gmap string node) g f a b :
  edge (add_imports _extract_imports m g f) a b ↔
  edge g a b ∨
  (a = f ∧ b ≠ f ∧ ∃ imp, imp ∈ _extract_imports f ∧ m !! imp = Some b).
Proof.
  unfold add_imports. revert g.
  induction (_extract_imports f) as [|imp imps IH]; intros g; simpl.
  { split; [by left|]. intros [?|(_ & _ & imp & []%elem_of_nil & _)]. done. }
  rewrite IH. clear IH. destruct (m !! imp) as [dep|] eqn:Em.
  - case_decide as Hne.
    + rewrite graph_add_edge. split.
      * intros [[?|[-> ->]]|(-> & ? & imp' & ? & ?)]; [by left| |].
        -- right. split_and!; [done..|]. exists imp. split; [left|done].
        -- right. split_and!; [done..|]. exists imp'. split; [by right|done].
      * intros [?|(-> & Hb & imp' & [->|?]%elem_of_cons & Hm)].
        -- left. by left.
        -- left. right. split; congruence.
        -- right. split_and!; [done..|]. by exists imp'.
    + split.
      * intros [?|(-> & ? & imp' & ? & ?)]; [by left|].
        right. split_and!; [done..|]. exists imp'. split; [by right|done].
      * intros [?|(-> & Hb & imp' & [->|?]%elem_of_cons & Hm)]; [by left| |].
        -- exfalso. apply Hb. congruence.
        -- right. split_and!; [done..|]. by exists imp'.
  - split.
    + intros [?|(-> & ? & imp' & ? & ?)]; [by left|].
      right. split_and!; [done..|]. exists imp'. split; [by right|done].
    + intros [?|(-> & Hb & imp' & [->|?]%elem_of_cons & Hm)]; [by left| |].
      * congruence.
      * right. split_and!; [done..|]. by exists imp'.
Qed.

(** X1: the dependency graph built by [analyze_repository] has an edge
    from [a] to [b] exactly when [a] is an analysed file, one of the
    names [a] imports is mapped to [b] by the module table, and [b] is
    not [a] itself. *)
Theorem analyze_repository_edges_exact (python_files : list node) (a b : node) :
  edge (analyze_repository _get_module_name _extract_imports python_files) a b
  ↔ a ∈ python_files ∧ b ≠ a ∧
    ∃ imp, imp ∈ _extract_imports a ∧
      module_to_file _get_module_name python_files !! imp = Some b.
Proof.
  unfold analyze_repository.
  set (m := module_to_file _get_module_name python_files).
  assert (∀ files g,
    edge (foldl (add_imports _extract_imports m) g files) a b ↔
    edge g a b ∨ (a ∈ files ∧ b ≠ a ∧
      ∃ imp, imp ∈ _extract_imports a ∧ m !! imp = Some b)) as Hfold.
  { induction files as [|f files IH]; intros g; simpl.
    { split; [by left|]. intros [?|([]%elem_of_nil & _)]. done. }
    rewrite IH, add_imports_edge. split.
    - intros [[?|(-> & ? & ?)]|(? & ? & ?)]; [by left| |].
      + right. split_and!; [left|done..].
      + right. split_and!; [by right|done..].
    - intros [?|([->|?]%elem_of_cons & ? & ?)].
      + left. by left.
      + left. by right.
      + right. by split_and!. }
  rewrite Hfold. split; [|by right].
  intros [Hnil|?]; [|done]. unfold edge in Hnil. simpl in Hnil.
  by apply elem_of_nil in Hnil.
Qed.
End built_graph.

(** *** Exact levels on graphs without cycles *)

Lemma max_level_cons levels d ds :
  max_level levels (d :: ds) = default 0 (levels !! d) `max` max_level levels ds.
Proof. reflexivity. Qed.

Lemma max_level_agree (lv lv' : gmap node nat) ds :
  (∀ d, d ∈ ds → lv' !! d = lv !! d) → max_level lv' ds = max_level lv ds.
Proof.
  intros H. unfold max_level. f_equal. apply list_fmap_ext.
  intros i d Hd. rewrite H; [done|]. by eapply list_elem_of_lookup_2.
Qed.

Lemma exact_weaken g (lv lv' : gmap node nat) a la :
  good g lv → lv ⊆ lv' → lv !! a = Some la →
  level_rule g lv' a = level_rule g lv a.
Proof.
  intros Hgood Hsub Ha. unfold level_rule.
  destruct (deps g a) as [|d ds] eqn:E; [done|]. f_equal.
  apply max_level_agree. intros b Hb.
  destruct (Hgood a la Ha) as [_ Hd].
  destruct (Hd b) as (lb & Hlb & _); [unfold edge; by rewrite E|].
  rewrite Hlb. by eapply lookup_weaken.
Qed.

Lemma exact_mono g (lv lv' : gmap node nat) :
  good g lv → exact g lv → lv ⊆ lv' →
  ∀ a la, lv !! a = Some la → la = level_rule g lv' a.
Proof.
  intros Hgood Hex Hsub a la Ha. rewrite (exact_weaken g lv lv' a la); auto.
Qed.

Lemma max_over_exact g rec ds :
  (∀ d lv l lv', d ∈ ds → good g lv → exact g lv → rec d lv = Ok (l, lv') →
     call_post g d lv l lv' ∧ exact g lv') →
  ∀ lv m lv', good g lv → exact g lv → max_over rec ds lv = Ok (m, lv') →
    lv ⊆ lv' ∧ good g lv' ∧ exact g lv' ∧ m = max_level lv' ds ∧
    (∀ d, d ∈ ds → is_Some (lv' !! d)) ∧
    ∀ y, is_Some (lv' !! y) →
      is_Some (lv !! y) ∨ ∃ d, d ∈ ds ∧ rtc (edge g) d y.
Proof.
  induction ds as [|d ds IH]; intros Hrec lv m lv' Hgood Hex; simpl.
  - intros [= <- <-]. split_and!; [done..| |by left].
    by intros d ?%elem_of_nil.
  - destruct (rec d lv) as [[l lv1]|] eqn:E1; simpl; [|done].
    destruct (max_over rec ds lv1) as [[m' lv2]|] eqn:E2; simpl; [|done].
    intros [= <- <-].
    apply Hrec in E1 as ((S1 & G1 & L1 & D1) & X1); [|left|done..].
    apply IH in E2 as (S2 & G2 & X2 & -> & L2 & D2); [| |done..].
    2:{ intros. eapply Hrec; [by right|done..]. }
    split_and!; [by etrans|done..| | |].
    + rewrite max_level_cons. by rewrite (lookup_weaken _ _ _ _ L1 S2).
    + intros d' [->|Hd']%elem_of_cons; [|by apply L2].
      exists l. by eapply lookup_weaken.
    + intros y Hy. destruct (D2 y Hy) as [Hy1|(d' & ? & ?)].
      * destruct (D1 y Hy1) as [?|?]; [by left|].
        right. exists d. split; [left|done].
      * right. exists d'. split; [by right|done].
Qed.

Lemma get_level_exact g (Hac : acyclic g) fuel :
  ∀ levels x visiting l levels',
    good g levels → exact g levels → (∀ v, v ∈ visiting → tc (edge g) v x) →
    get_level fuel g levels x visiting = Ok (l, levels') →
    exact g levels'.
Proof.
  induction fuel as [|fuel IH];
    intros levels x visiting l levels' Hgood Hex Hvis; [done|].
  rewrite get_level_unfold. destruct (levels !! x) as [l0|] eqn:Ex.
  { by intros [= <- <-]. }
  case_decide as Hv.
  { by apply Hvis, Hac in Hv. }
  destruct (deps g x) as [|d ds] eqn:E.
  { intros [= <- <-]. intros a la. destruct (decide (a = x)) as [->|Hne].
    - rewrite lookup_insert_eq. intros [= <-]. unfold level_rule. by rewrite E.
    - rewrite lookup_insert_ne by done. intros Ha.
      eapply exact_mono; [done..| |done]. by apply insert_subseteq. }
  destruct (max_over _ _ _) as [[m lv']|] eqn:Em; simpl; [|done].
  intros [= <- <-].
  apply max_over_exact with (g := g) in Em
    as (Hsub & Hg & Hx' & -> & Hall & Hdom); [| |done..].
  2:{ intros d' lv l' lv'' Hd' Hglv Hxlv Hcall.
      assert (∀ v, v ∈ {[x]} ∪ visiting → tc (edge g) v d') as Hvis'.
      { assert (edge g x d') by (unfold edge; by rewrite E).
        intros v [->%elem_of_singleton|Hv']%elem_of_union.
        - by apply tc_once.
        - eapply tc_r; [by apply Hvis|done]. }
      split; [by eapply get_level_good|by eapply IH]. }
  assert (lv' !! x = None) as Hx.
  { destruct (lv' !! x) eqn:Ex'; [|done].
    destruct (Hdom x) as [[? ?]|(d' & Hd' & Hreach)]; [done|congruence|].
    exfalso. apply (Hac x). eapply tc_rtc_r; [|done].
    apply tc_once. unfold edge. by rewrite E. }
  intros a la. destruct (decide (a = x)) as [->|Hne].
  - rewrite lookup_insert_eq. intros [= <-]. unfold level_rule. rewrite E.
    f_equal. symmetry. apply max_level_agree. intros b Hb.
    rewrite lookup_insert_ne; [done|]. intros <-.
    destruct (Hall x Hb) as [? ?]. congruence.
  - rewrite lookup_insert_ne by done. intros Ha.
    eapply exact_mono; [done..| |done]. by apply insert_subseteq.
Qed.

Lemma levels_loop_exact g (Hac : acyclic g) fuel :
  ∀ files levels levels',
    good g levels → exact g levels →
    levels_loop fuel g files levels = Ok levels' →
    good g levels' ∧ exact g levels'.
Proof.
  induction files as [|f files IH]; intros levels levels' Hgood Hex; simpl.
  { by intros [= <-]. }
  destruct (get_level fuel g levels f ∅) as [[l lv1]|] eqn:E; simpl; [|done].
  pose proof E as E'.
  apply get_level_good in E as (_ & Hg1 & _); [|done..|set_solver].
  apply get_level_exact in E'; [|done..|set_solver].
  by apply IH.
Qed.

(** X2: on a dependency graph without cycles every file that gets a
    level gets the one the docstring describes: 0 when it has no
    dependency, otherwise one more than the highest level among its
    dependencies, each of which has a level of its own. *)
Theorem acyclic_levels_follow_rule (g : graph) (files : list node) :
  acyclic g →
  ∃ levels, get_dependency_levels g files = Ok levels ∧
    (∀ f, f ∈ files → is_Some (levels !! f)) ∧
    ∀ a la, levels !! a = Some la →
      la = level_rule g levels a ∧ ∀ b, edge g a b → is_Some (levels !! b).
Proof.
  intros Hac.
  destruct (get_dependency_levels_total g files) as (levels & Hrun & Hall).
  exists levels. split_and!; [done..|].
  unfold get_dependency_levels in Hrun.
  apply levels_loop_exact in Hrun as [Hgood Hex]; [|done|apply good_empty|].
  2:{ intros a la. by rewrite lookup_empty. }
  intros a la Ha. split; [by apply Hex|].
  intros b Hb. destruct (Hgood a la Ha) as [_ Hd].
  destruct (Hd b Hb) as (lb & -> & _). eauto.
Qed.

Lemma acyclic_levels_follow_rule_witness :
  ∃ levels,
    get_dependency_levels ParallelProcessor.chain ["A"; "B"; "C"]%string
      = Ok levels ∧
    (∀ f, f ∈ ["A"; "B"; "C"]%string → is_Some (levels !! f)) ∧
    ∀ a la, levels !! a = Some la →
      la = level_rule ParallelProcessor.chain levels a ∧
      ∀ b, edge ParallelProcessor.chain a b → is_Some (levels !! b).
Proof.
  exact (acyclic_levels_follow_rule ParallelProcessor.chain
           ["A"; "B"; "C"]%string ParallelProcessor.chain_acyclic).
Defined.

(** *** What [_detect_cycles] reports *)

(** Consecutive elements of [p] are joined by an edge. *)
Fixpoint is_path (g : graph) (p : list node) : Prop :=
  match p with
  | a :: q => match q with b :: _ => edge g a b | [] => True end ∧ is_path g q
  | [] => True
  end.

(** A closed walk: it ends in the file it starts with. *)
Definition is_cycle (g : graph) (c : list node) : Prop :=
  ∃ x mid, c = x :: mid ++ [x] ∧ is_path g c.

Lemma is_path_snoc g p x n :
  is_path g p → last p = Some x → edge g x n → is_path g (p ++ [n]).
Proof.
  induction p as [|a p IH]; [done|]. intros [Hhd Htl] Hlast Hxn.
  destruct p as [|b p].
  - simpl in *. by simplify_eq.
  - split; [done|]. by apply IH.
Qed.

Lemma is_path_drop g p i : is_path g p → is_path g (drop i p).
Proof.
  revert p. induction i as [|i IH]; intros [|a p]; try done.
  intros [_ ?]. by apply IH.
Qed.

Lemma is_path_tc g a mid b : is_path g (a :: mid ++ [b]) → tc (edge g) a b.
Proof.
  revert a. induction mid as [|c mid IH]; intros a [Hhd Htl]; simpl in *.
  - by apply tc_once.
  - eapply tc_l; [done|]. by apply IH.
Qed.

Lemma index_drop x path i :
  index x path = Ok i → ∃ rest, drop i path = x :: rest.
Proof.
  revert i. induction path as [|y path IH]; intros i; [done|]. simpl.
  case_decide as Hy; [intros [= <-]; subst; by eexists|].
  destruct (index x path) as [j|] eqn:E; simpl; [|done].
  intros [= <-]. by apply IH.
Qed.

Lemma last_drop_cons {A} (l : list A) i x rest :
  drop i l = x :: rest → last (drop i l) = last l.
Proof.
  intros H. rewrite <-(take_drop i l) at 2. rewrite H, last_app.
  destruct (last (x :: rest)) eqn:E; [done|]. by apply last_None in E.
Qed.

Section soundness.
Variable g : graph.

Definition sound (st : dfs_state) : Prop :=
  (∀ y, deps (dependency_graph st) y = deps g y) ∧
  Forall (is_cycle g) (cycles st).

Lemma for_neighbors_sound rec path x :
  is_path g path → last path = Some x →
  (∀ n st st', edge g x n → sound st → rec n path st = Ok st' → sound st') →
  ∀ ns st st', (∀ n, n ∈ ns → edge g x n) → sound st →
    for_neighbors rec path ns st = Ok st' → sound st'.
Proof.
  intros Hpath Hlast Hrec. induction ns as [|n ns IH]; intros st st' Hns Hst.
  { by intros [= <-]. }
  simpl. assert (edge g x n) as Hxn by (apply Hns; left).
  destruct (if decide (n ∉ visited st) then rec n path st else _)
    as [st1|] eqn:E1; simpl; [|done].
  apply IH; [intros; apply Hns; by right|].
  case_decide.
  - by eapply Hrec.
  - case_decide; [|by simplify_eq].
    destruct (index n path) as [i|] eqn:Ei; simpl in E1; [|done].
    injection E1 as <-. destruct Hst as [Hd Hc]. split; [done|]. simpl.
    apply Forall_app. split; [done|]. apply Forall_singleton.
    destruct (index_drop _ _ _ Ei) as [rest Hrest].
    exists n, rest. split; [by rewrite Hrest|].
    apply is_path_snoc with x; [by apply is_path_drop| |done].
    by rewrite (last_drop_cons _ _ _ _ Hrest).
Qed.

Lemma dfs_sound fuel :
  ∀ x path st st',
    is_path g (path ++ [x]) → sound st → dfs fuel x path st = Ok st' →
    sound st'.
Proof.
  induction fuel as [|fuel IH]; intros x path st st' Hpath Hst; [done|].
  simpl. destruct (getitem (dependency_graph st) x) as [ns g'] eqn:Eg.
  destruct (for_neighbors _ _ _ _) as [st2|] eqn:E2; simpl; [|done].
  case_decide; [|done]. intros [= <-].
  destruct Hst as [Hd Hc].
  assert (ns = deps g x) as ->.
  { rewrite <-Hd. unfold deps. by rewrite Eg. }
  eapply for_neighbors_sound with (x := x) in E2 as [Hd2 Hc2].
  - by split.
  - done.
  - by rewrite last_snoc.
  - intros n st0 st0' Hn Hst0. apply IH; [|done].
    apply is_path_snoc with x; [done|by rewrite last_snoc|done].
  - done.
  - split; [|done]. simpl. intros y.
    replace g' with (getitem (dependency_graph st) x).2 by (by rewrite Eg).
    by rewrite deps_getitem.
Qed.

Lemma cycles_loop_sound fuel size0 :
  ∀ ks st st', sound st → cycles_loop fuel size0 ks st = Ok st' → sound st'.
Proof.
  induction ks as [|k ks IH]; intros st st' Hst; simpl.
  { case_decide; [|done]. by intros [= <-]. }
  case_decide; [|done].
  destruct (if decide (k ∉ visited st) then dfs fuel k [] st else Ok st)
    as [st1|] eqn:E1; simpl; [|done].
  apply IH. case_decide; [|by simplify_eq].
  by apply (dfs_sound fuel k [] st).
Qed.
End soundness.

(** X3: every cycle [_detect_cycles] reports is a closed walk along
    dependency edges that ends in the file it starts with; on a graph
    without cycles nothing is reported. *)
Theorem detect_cycles_reports_closed_walks (g : graph) (cs : list (list node)) :
  _detect_cycles g = Ok cs →
  Forall (is_cycle g) cs ∧ (acyclic g → cs = []).
Proof.
  unfold _detect_cycles.
  destruct (cycles_loop _ _ _ _) as [st|] eqn:E; simpl; [|done].
  intros [= <-]. apply cycles_loop_sound with (g := g) in E as [_ Hc].
  2:{ split; [done|]. constructor. }
  split; [done|]. intros Hac. destruct (cycles st) as [|c cs]; [done|].
  apply Forall_cons in Hc as [(x & mid & -> & Hp) _].
  by apply is_path_tc, Hac in Hp.
Qed.

Lemma detect_cycles_reports_closed_walks_witness :
  Forall (is_cycle two_cycle) [["A"; "B"; "A"]]%string ∧
  (acyclic two_cycle → [["A"; "B"; "A"]]%string = []).
Proof.
  apply (detect_cycles_reports_closed_walks two_cycle). vm_compute. reflexivity.
Defined.

(** *** When [_detect_cycles] raises *)

Section key_insertion.
Variable g : graph.

(** The dictionary during the search: the entries of [g] followed by
    the empty sets the reads have inserted, each under a file that is
    mentioned in [g] without an entry of its own. *)
Definition grown (g' : graph) : Prop :=
  ∃ extra, g' = g ++ extra ∧
    (∀ k ds, (k, ds) ∈ extra → ds = [] ∧ (k ∉ keys g) ∧ k ∈ nodes g).

Definition search_inv (st : dfs_state) : Prop :=
  grown (dependency_graph st) ∧
  (∀ a, a ∈ visited st → a ∈ nodes g ∧ a ∈ keys (dependency_graph st)) ∧
  rec_stack st ⊆ visited st ∧
  ∀ a b, a ∈ visited st → a ∉ rec_stack st → edge g a b → b ∈ visited st.

Lemma graph_get_app (g1 g2 : graph) x :
  graph_get (g1 ++ g2) x =
  match graph_get g1 x with Some ds => Some ds | None => graph_get g2 x end.
Proof.
  induction g1 as [|[k ds] g1 IH]; simpl; [done|]. by case_decide.
Qed.

Lemma graph_get_key (g' : graph) x : x ∈ keys g' → is_Some (graph_get g' x).
Proof.
  induction g' as [|[k ds] g' IH]; simpl; [by intros ?%elem_of_nil|].
  case_decide; [eauto|]. intros [?|?]%elem_of_cons; [by simplify_eq/=|auto].
Qed.

Lemma grown_deps g' x : grown g' → deps g' x = deps g x.
Proof.
  intros (extra & -> & Hextra). unfold deps, getitem.
  rewrite graph_get_app. destruct (graph_get g x) as [ds|]; [done|].
  destruct (graph_get extra x) as [ds|] eqn:E; [|done]. simpl.
  apply graph_get_Some in E. by destruct (Hextra _ _ E) as [-> _].
Qed.

Lemma grown_getitem g' x :
  grown g' → x ∈ nodes g →
  (getitem g' x).1 = deps g x ∧ grown (getitem g' x).2 ∧
  x ∈ keys (getitem g' x).2 ∧ (∀ k, k ∈ keys g' → k ∈ keys (getitem g' x).2).
Proof.
  intros Hg Hx. split; [by apply grown_deps|].
  unfold getitem. destruct (graph_get g' x) as [ds|] eqn:E; simpl.
  - split_and!; [done| |done]. apply graph_get_Some in E.
    unfold keys. apply list_elem_of_fmap. by exists (x, ds).
  - apply graph_get_None in E. destruct Hg as (extra & -> & Hextra).
    split_and!.
    + exists (extra ++ [(x, [])]). split; [by rewrite (assoc (++))|].
      intros k ds [?|?%list_elem_of_singleton]%elem_of_app; [eauto|].
      simplify_eq. split_and!; [done| |done]. intros Hk. apply E. unfold keys in *.
      rewrite fmap_app. set_solver.
    + unfold keys. rewrite fmap_app. set_solver.
    + intros k Hk. unfold keys in *. rewrite fmap_app. set_solver.
Qed.

Lemma index_found x path : x ∈ path → ∃ i, index x path = Ok i.
Proof.
  induction path as [|y path IH]; [by intros ?%elem_of_nil|].
  simpl. case_decide; [eauto|].
  intros [->|Hin]%elem_of_cons; [done|].
  destruct (IH Hin) as [i ->]. simpl. eauto.
Qed.

Definition search_pre (fuel : nat) (path : list node) (st : dfs_state) : Prop :=
  search_inv st ∧ (∀ z, z ∈ rec_stack st → z ∈ path) ∧
  size (nodes g ∖ visited st) < fuel.

Definition search_post (st : dfs_state) (x : node) (st' : dfs_state) : Prop :=
  search_inv st' ∧ visited st ⊆ visited st' ∧ x ∈ visited st' ∧
  rec_stack st' = rec_stack st ∧
  ∀ k, k ∈ keys (dependency_graph st) → k ∈ keys (dependency_graph st').

Lemma for_neighbors_search rec fuel x path :
  (∀ n st, search_pre fuel path st → n ∈ nodes g → n ∉ visited st →
     ∃ st', rec n path st = Ok st' ∧ search_post st n st') →
  ∀ ns st,
    search_pre fuel path st → (∀ n, n ∈ ns → edge g x n) →
    ∃ st', for_neighbors rec path ns st = Ok st' ∧
      search_inv st' ∧ visited st ⊆ visited st' ∧
      rec_stack st' = rec_stack st ∧
      (∀ k, k ∈ keys (dependency_graph st) → k ∈ keys (dependency_graph st')) ∧
      ∀ n, n ∈ ns → n ∈ visited st'.
Proof.
  intros Hrec. induction ns as [|n ns IH]; intros st Hpre Hns; simpl.
  { exists st. destruct Hpre as (? & ? & ?). split_and!; try done.
    by intros n ?%elem_of_nil. }
  assert (∃ st1, (if decide (n ∉ visited st) then rec n path st
           else if decide (n ∈ rec_stack st) then
             cycle_start ← index n path;
             Ok (add_cycle path n cycle_start st)
           else Ok st) = Ok st1 ∧ search_inv st1 ∧ visited st ⊆ visited st1 ∧
           rec_stack st1 = rec_stack st ∧
           (∀ k, k ∈ keys (dependency_graph st) →
                 k ∈ keys (dependency_graph st1)) ∧
           n ∈ visited st1) as (st1 & -> & Hinv1 & Hv1 & Hr1 & Hk1 & Hn1).
  { destruct Hpre as (Hinv & Hpath & Hsz).
    case_decide as Hvis.
    - destruct (Hrec n st) as (st1 & -> & Hinv1 & Hv1 & Hn1 & Hr1 & Hk1);
        [done| |done|].
      { apply (edge_nodes g x n). apply Hns. left. }
      exists st1. by split_and!.
    - case_decide as Hrs.
      + destruct (index_found n path) as [i ->]; [by apply Hpath|]. simpl.
        eexists. split; [done|]. unfold add_cycle; simpl. by split_and!.
      + exists st. by split_and!. }
  simpl.
  destruct (IH st1) as (st2 & -> & Hinv2 & Hv2 & Hr2 & Hk2 & Hall).
  { destruct Hpre as (_ & Hpath & Hsz). split_and!; [done| |].
    - intros z. rewrite Hr1. apply Hpath.
    - eapply Nat.le_lt_trans; [|done]. apply subseteq_size. set_solver. }
  { intros. apply Hns. by right. }
  exists st2. split_and!; try done.
  - set_solver.
  - congruence.
  - auto.
  - intros n' [->|Hn']%elem_of_cons; [set_solver|by apply Hall].
Qed.

Lemma dfs_search fuel :
  ∀ x path st,
    search_pre fuel path st → x ∈ nodes g → x ∉ visited st →
    ∃ st', dfs fuel x path st = Ok st' ∧ search_post st x st'.
Proof.
  induction fuel as [|fuel IH]; intros x path st (Hinv & Hpath & Hsz) Hx Hnv;
    [lia|].
  destruct Hinv as (Hg & Hvis & Hsub & Hcl). simpl.
  destruct (grown_getitem (dependency_graph st) x Hg Hx)
    as (Hns & Hg' & Hxk & Hkeys).
  destruct (getitem (dependency_graph st) x) as [ns g'] eqn:Eg.
  simpl in Hns, Hg', Hxk, Hkeys. subst ns.
  set (st1 := DfsState g' ({[x]} ∪ visited st) ({[x]} ∪ rec_stack st) (cycles st)).
  assert (x ∉ rec_stack st) as Hnr by set_solver.
  destruct (for_neighbors_search (dfs fuel) fuel x (path ++ [x])) with
    (ns := deps g x) (st := st1)
    as (st2 & -> & Hinv2 & Hv2 & Hr2 & Hk2 & Hall).
  - intros n st' Hpre' Hn Hnv'. by apply IH.
  - split_and!.
    + unfold search_inv; simpl. split_and!; [done| |set_solver|].
      * intros a [->%elem_of_singleton|Ha]%elem_of_union; [done|].
        destruct (Hvis a Ha). auto.
      * intros a b Ha Hna Hab. apply elem_of_union_r.
        apply (Hcl a b); [set_solver|set_solver|done].
    + simpl. intros z. rewrite elem_of_app. set_solver.
    + simpl.
      assert (∀ U : gset node, x ∈ U →
                U ∖ ({[x]} ∪ visited st) ⊂ U ∖ visited st) as Hlt
        by (clear -Hnv; set_solver).
      specialize (Hlt (nodes g) Hx). apply subset_size in Hlt. lia.
  - done.
  - simpl in *. rewrite Hr2. rewrite decide_True by set_solver.
    eexists. split; [done|].
    destruct Hinv2 as (Hg2 & Hvis2 & Hsub2 & Hcl2).
    assert (x ∈ visited st2) by set_solver.
    unfold search_post, search_inv; simpl. split_and!; try done.
    + set_solver.
    + intros a b Ha Hna Hab. destruct (decide (a = x)) as [->|Hne].
      * by apply Hall.
      * apply (Hcl2 a b); [done| |done]. rewrite Hr2. set_solver.
    + set_solver.
    + set_solver.
    + auto.
Qed.

(** The key iteration either goes through, in which case no read has
    inserted a key, or it raises [RuntimeError] after a read has. *)
Lemma cycles_loop_search fuel :
  size (nodes g) < fuel →
  ∀ ks st,
    search_inv st → rec_stack st = ∅ → (∀ k, k ∈ ks → k ∈ keys g) →
    (∃ st', cycles_loop fuel (length g) ks st = Ok st' ∧
       search_inv st' ∧ rec_stack st' = ∅ ∧ visited st ⊆ visited st' ∧
       dependency_graph st' = g ∧ ∀ k, k ∈ ks → k ∈ visited st') ∨
    (cycles_loop fuel (length g) ks st = Raise RuntimeError ∧
     ∃ x, x ∈ nodes g ∧ x ∉ keys g).
Proof.
  intros Hfuel.
  assert (∀ st, search_inv st →
    (length (dependency_graph st) = length g ∧ dependency_graph st = g) ∨
    (length (dependency_graph st) ≠ length g ∧ ∃ x, x ∈ nodes g ∧ x ∉ keys g))
    as Hsize.
  { intros st ((extra & Hg & Hextra) & _). rewrite Hg.
    destruct extra as [|[k ds] extra].
    - left. by rewrite app_nil_r.
    - right. split; [rewrite length_app; simpl; lia|].
      exists k. destruct (Hextra k ds) as (_ & ? & ?); [left|done]. }
  induction ks as [|k ks IH]; intros st Hinv Hrs Hks; simpl.
  { destruct (Hsize st Hinv) as [[Hlen Hg]|[Hlen Hx]].
    - rewrite decide_True by done. left. exists st. split_and!; try done.
      by intros k ?%elem_of_nil.
    - rewrite decide_False by done. by right. }
  destruct (Hsize st Hinv) as [[Hlen Hg]|[Hlen Hx]].
  2:{ rewrite decide_False by done. by right. }
  rewrite decide_True by done.
  assert (∃ st1, (if decide (k ∉ visited st) then dfs fuel k [] st
            else Ok st) = Ok st1 ∧ search_inv st1 ∧ rec_stack st1 = ∅ ∧
            visited st ⊆ visited st1 ∧ k ∈ visited st1)
    as (st1 & -> & Hinv1 & Hrs1 & Hv1 & Hk1).
  { case_decide as Hv.
    - destruct (dfs_search fuel k [] st) as (st1 & -> & Hi & Hv1 & Hk & Hr & _).
      + split_and!; [done|set_solver|].
        eapply Nat.le_lt_trans; [|done]. apply subseteq_size. set_solver.
      + unfold nodes. apply elem_of_union_l, elem_of_list_to_set, Hks. left.
      + done.
      + exists st1. split_and!; try done. congruence.
    - exists st. by split_and!. }
  simpl. destruct (IH st1) as [(st2 & -> & Hinv2 & Hrs2 & Hv2 & Hg2 & Hall)|[-> ?]];
    [done..| | |by right].
  { intros. apply Hks. by right. }
  left. exists st2. split_and!; try done; [set_solver|].
  intros k' [->|?]%elem_of_cons; [set_solver|by apply Hall].
Qed.
End key_insertion.

Lemma in_graph_deps (g : graph) k ds :
  NoDup (keys g) → (k, ds) ∈ g → deps g k = ds.
Proof.
  intros Hnd Hin. assert (graph_get g k = Some ds) as Hget.
  { induction g as [|[k' ds'] g IH]; [by apply elem_of_nil in Hin|].
    simpl in *. apply NoDup_cons in Hnd as [Hk' Hnd].
    apply elem_of_cons in Hin as [?|Hin]; [simplify_eq; by rewrite decide_True|].
    rewrite decide_False; [by apply IH|]. intros ->. apply Hk'.
    apply list_elem_of_fmap. by exists (k, ds). }
  unfold deps, getitem. by rewrite Hget.
Qed.

(** The outcome of the key iteration of [_detect_cycles]. *)
Lemma key_iteration_outcome (g : graph) :
  NoDup (keys g) →
  (all_keyed g ∧
   ∃ st, cycles_loop (S (size (nodes g))) (length g) (keys g)
           (DfsState g ∅ ∅ []) = Ok st ∧ dependency_graph st = g) ∨
  (¬ all_keyed g ∧
   cycles_loop (S (size (nodes g))) (length g) (keys g) (DfsState g ∅ ∅ [])
     = Raise RuntimeError).
Proof.
  intros Hnd.
  destruct (cycles_loop_search g (S (size (nodes g)))) with
    (ks := keys g) (st := DfsState g ∅ ∅ [])
    as [(st' & -> & (_ & Hvis & _ & Hcl) & Hrs & _ & Hg & Hall)|[-> Hx]].
  - lia.
  - unfold search_inv; simpl. split_and!; [|set_solver..].
    exists []. split; [by rewrite app_nil_r|]. by intros k ds ?%elem_of_nil.
  - done.
  - done.
  - left. split; [|eauto]. intros x.
    unfold nodes. rewrite elem_of_union, !elem_of_list_to_set.
    intros [?|Hx]; [done|].
    apply list_elem_of_In, in_concat in Hx as (ds & Hds & Hx).
    apply list_elem_of_In, list_elem_of_fmap in Hds as ([k ds'] & -> & Hin).
    simpl in Hx. apply list_elem_of_In in Hx.
    assert (k ∈ visited st') as Hk.
    { apply Hall, list_elem_of_fmap. by exists (k, ds'). }
    assert (x ∈ visited st') as Hxv.
    { apply (Hcl k x); [done|set_solver|].
      unfold edge. by rewrite (in_graph_deps g k ds'). }
    destruct (Hvis x Hxv) as [_ Hkey]. by rewrite Hg in Hkey.
  - right. split; [|done]. destruct Hx as (x & Hx & Hnk).
    intros Hkeyed. by apply Hnk, Hkeyed.
Qed.

(** X4: [_detect_cycles] returns normally exactly when every file the
    graph mentions has an entry of its own.  Otherwise the search reads
    the defaultdict under a missing file, which inserts the key, and
    the iteration over the keys raises [RuntimeError]; no other
    exception can come out of it. *)
Theorem detect_cycles_raises_iff_key_missing (g : graph) :
  NoDup (keys g) →
  (all_keyed g ∧ ∃ cs, _detect_cycles g = Ok cs) ∨
  (¬ all_keyed g ∧ _detect_cycles g = Raise RuntimeError).
Proof.
  intros Hnd. unfold _detect_cycles.
  destruct (key_iteration_outcome g Hnd) as [[Hk (st & -> & _)]|[Hk ->]].
  - left. split; [done|]. simpl. eauto.
  - by right.
Qed.

Lemma detect_cycles_raises_iff_key_missing_witness :
  (all_keyed cycle_with_leaf ∧ ∃ cs, _detect_cycles cycle_with_leaf = Ok cs) ∨
  (¬ all_keyed cycle_with_leaf ∧
   _detect_cycles cycle_with_leaf = Raise RuntimeError).
Proof.
  apply (detect_cycles_raises_iff_key_missing cycle_with_leaf).
  vm_compute. repeat constructor; set_solver.
Defined.

End AnalyzerFacts.

Module UpgradeOrder.
Import DependencyAnalyzer AnalyzerFacts.

(** *** get_upgrade_order *)

(** [sorted(remaining)] compares file paths character by character. *)
Definition path_le (a b : string) : Prop := String.leb a b = true.

#[global] Instance path_le_dec a b : Decision (path_le a b).
Proof. unfold path_le. apply _. Defined.

(** [in_degree[f]] on the [defaultdict(int)]. *)
Definition in_degree_get (in_degree : gmap node Z) (f : node) : Z :=
  default 0%Z (in_degree !! f).

(** [for dep in self.dependency_graph[file_path]: in_degree[dep] += 1] *)
Definition count_deps (in_degree : gmap node Z) (ds : list node) : gmap node Z :=
  foldl (λ in_degree dep, <[dep := (in_degree_get in_degree dep + 1)%Z]> in_degree)
    in_degree ds.

(** [for file_path in all_files: ...] *)
Definition count_dependents (g : graph) (all_files : list node) : gmap node Z :=
  foldl (λ in_degree file_path, count_deps in_degree (deps g file_path))
    ∅ all_files.

(** The body of [for other_file in all_files] for the file just taken
    from the queue. *)
Definition release (g : graph) (file_path : node)
    (st : gmap node Z * list node) (other_file : node) : gmap node Z * list node :=
  if decide (file_path ∈ deps g other_file) then
    let in_degree := <[other_file := (in_degree_get st.1 other_file - 1)%Z]> st.1 in
    (in_degree,
     if decide (in_degree_get in_degree other_file = 0%Z)
     then st.2 ++ [other_file] else st.2)
  else st.

(** [while queue: ...] *)
Fixpoint drain (fuel : nat) (g : graph) (all_files : list node)
    (in_degree : gmap node Z) (queue sorted_files : list node) : res (list node) :=
  match fuel with
  | O => Raise OutOfFuel
  | S fuel' =>
      match queue with
      | [] => Ok sorted_files
      | file_path :: queue' =>
          let st := foldl (release g file_path) (in_degree, queue') all_files in
          drain fuel' g all_files st.1 st.2 (sorted_files ++ [file_path])
      end
  end.

Section get_upgrade_order.
(** The order in which Python iterates over a set of file paths. *)
Variable set_order : gset node → list node.
Hypothesis set_order_perm : ∀ s, set_order s ≡ₚ elements s.

(** [files] is [self.file_imports.keys()].  The dictionary the sort
    reads is the one [_detect_cycles] leaves behind; the reads of the
    sort may insert keys as well, which changes no later read. *)
Definition get_upgrade_order (g : graph) (files : list node) : res (list node) :=
  st ← cycles_loop (S (size (nodes g))) (length g) (keys g) (DfsState g ∅ ∅ []);
  let g := dependency_graph st in
  let all_files : gset node := list_to_set (keys g) ∪ list_to_set files in
  let in_degree := count_dependents g (set_order all_files) in
  let queue :=
    filter (λ f, in_degree_get in_degree f = 0%Z) (set_order all_files) in
  sorted_files ← drain (S (length (set_order all_files))) g (set_order all_files)
                   in_degree queue [];
  let remaining := all_files ∖ list_to_set sorted_files in
  Ok (if decide (remaining = ∅) then sorted_files
      else sorted_files ++ merge_sort path_le (set_order remaining)).

(** **** The queue *)

(** Files that have entered the queue are pairwise different, belong to
    [all_files], and their counter is not positive. *)
Definition queued (all_files : list node) (in_degree : gmap node Z)
    (l : list node) : Prop :=
  NoDup l ∧ ∀ x, x ∈ l → x ∈ all_files ∧ (in_degree_get in_degree x ≤ 0)%Z.

Lemma in_degree_get_insert d x v y :
  in_degree_get (<[x := v]> d) y = if decide (x = y) then v else in_degree_get d y.
Proof.
  unfold in_degree_get. case_decide as H; [subst; by rewrite lookup_insert_eq|].
  by rewrite lookup_insert_ne.
Qed.

Lemma in_degree_get_insert_eq d x v : in_degree_get (<[x := v]> d) x = v.
Proof. by rewrite in_degree_get_insert, decide_True. Qed.

Lemma release_queued g all_files f sorted d q other :
  queued all_files d (sorted ++ q) → other ∈ all_files →
  ∃ extra, (release g f (d, q) other).2 = q ++ extra ∧
    queued all_files (release g f (d, q) other).1 (sorted ++ q ++ extra).
Proof.
  intros [Hnd Hq] Hother. unfold release. simpl. case_decide as Hdep.
  2:{ exists []. simpl. by rewrite !app_nil_r. }
  simpl. rewrite in_degree_get_insert_eq.
  case_decide as Hzero; simpl.
  - exists [other]. split; [done|]. rewrite (assoc (++)). split.
    + apply NoDup_app. split_and!; [done| |apply NoDup_singleton].
      intros x Hx ->%list_elem_of_singleton. destruct (Hq _ Hx) as [_ ?]. lia.
    + intros x [Hx|Hx%list_elem_of_singleton]%elem_of_app.
      * destruct (Hq _ Hx). rewrite in_degree_get_insert.
        case_decide; [subst|done]. split; [done|lia].
      * subst x. rewrite in_degree_get_insert_eq. split; [done|lia].
  - exists []. rewrite !app_nil_r. split; [done|]. split; [done|].
    intros x Hx. destruct (Hq _ Hx). rewrite in_degree_get_insert.
    case_decide; [subst|done]. split; [done|lia].
Qed.

Lemma release_all_queued g all_files f sorted others :
  ∀ d q, queued all_files d (sorted ++ q) → (∀ x, x ∈ others → x ∈ all_files) →
    ∃ extra, (foldl (release g f) (d, q) others).2 = q ++ extra ∧
      queued all_files (foldl (release g f) (d, q) others).1
        (sorted ++ q ++ extra).
Proof.
  induction others as [|other others IH]; intros d q Hq Hsub; simpl.
  { exists []. by rewrite !app_nil_r. }
  destruct (release_queued g all_files f sorted d q other) as (e1 & He1 & Hq1);
    [done|apply Hsub; left|].
  destruct (release g f (d, q) other) as [d1 q1]. simpl in *. subst q1.
  destruct (IH d1 (q ++ e1)) as (e2 & He2 & Hq2);
    [done|intros; apply Hsub; by right|].
  exists (e1 ++ e2). by rewrite !(assoc (++)) in *.
Qed.

Lemma queued_length all_files d l : queued all_files d l → length l ≤ length all_files.
Proof.
  intros [Hnd Hq]. apply submseteq_length, NoDup_submseteq; [done|].
  intros x Hx. by destruct (Hq x Hx).
Qed.

Lemma drain_spec g all_files fuel :
  ∀ d q sorted,
    queued all_files d (sorted ++ q) → length all_files < length sorted + fuel →
    ∃ r rest d', drain fuel g all_files d q sorted = Ok r ∧
      r = sorted ++ q ++ rest ∧ queued all_files d' r.
Proof.
  induction fuel as [|fuel IH]; intros d q sorted Hq Hfuel.
  { apply queued_length in Hq. rewrite length_app in Hq. lia. }
  destruct q as [|f q]; simpl.
  { exists sorted, [], d. by rewrite !app_nil_r in *. }
  rewrite (cons_middle f sorted q), (assoc (++)) in Hq.
  destruct (release_all_queued g all_files f (sorted ++ [f]) all_files d q)
    as (extra & Hextra & Hq'); [done..|].
  destruct (foldl (release g f) (d, q) all_files) as [d1 q1]. simpl in *.
  subst q1. destruct (IH d1 (q ++ extra) (sorted ++ [f])) as (r & rest & d' & -> & -> & Hr).
  - done.
  - rewrite length_app. simpl. lia.
  - exists ((sorted ++ [f]) ++ (q ++ extra) ++ rest), (extra ++ rest), d'.
    split_and!; [done| |done]. by rewrite <-!(assoc (++)).
Qed.

(** **** The counters *)

Lemma count_deps_mono d ds x :
  (in_degree_get d x ≤ in_degree_get (count_deps d ds) x)%Z ∧
  (x ∈ ds → in_degree_get d x < in_degree_get (count_deps d ds) x)%Z ∧
  (x ∉ ds → in_degree_get (count_deps d ds) x = in_degree_get d x).
Proof.
  unfold count_deps. revert d. induction ds as [|y ds IH]; intros d; simpl.
  { split_and!; [lia|by intros ?%elem_of_nil|done]. }
  destruct (IH (<[y:=(in_degree_get d y + 1)%Z]> d)) as (H1 & H2 & H3).
  rewrite in_degree_get_insert in H1, H2, H3.
  destruct (decide (y = x)) as [->|Hne].
  - split_and!; [lia|lia|]. intros Hx. exfalso. apply Hx. left.
  - split_and!; [done| |].
    + intros [?|?]%elem_of_cons; [by simplify_eq|auto].
    + intros Hx. apply H3. intros ?. apply Hx. by right.
Qed.

Lemma count_dependents_spec g all_files x :
  (0 ≤ in_degree_get (count_dependents g all_files) x)%Z ∧
  ((∃ a, a ∈ all_files ∧ edge g a x) →
     0 < in_degree_get (count_dependents g all_files) x)%Z ∧
  ((∀ a, a ∈ all_files → ¬ edge g a x) →
     in_degree_get (count_dependents g all_files) x = 0%Z).
Proof.
  unfold count_dependents.
  assert (∀ l d,
    (in_degree_get d x
       ≤ in_degree_get (foldl (λ in_degree file_path,
           count_deps in_degree (deps g file_path)) d l) x)%Z ∧
    ((∃ a, a ∈ l ∧ edge g a x) →
      in_degree_get d x
       < in_degree_get (foldl (λ in_degree file_path,
           count_deps in_degree (deps g file_path)) d l) x)%Z ∧
    ((∀ a, a ∈ l → ¬ edge g a x) →
      in_degree_get (foldl (λ in_degree file_path,
           count_deps in_degree (deps g file_path)) d l) x
       = in_degree_get d x)) as Hgen.
  { induction l as [|f l IH]; intros d; simpl.
    { split_and!; [lia| |done]. by intros (a & ?%elem_of_nil & _). }
    destruct (IH (count_deps d (deps g f))) as (H1 & H2 & H3).
    destruct (count_deps_mono d (deps g f) x) as (M1 & M2 & M3).
    split_and!; [lia| |].
    - intros (a & [->|Ha]%elem_of_cons & Hax).
      + specialize (M2 Hax). lia.
      + assert (∃ a, a ∈ l ∧ edge g a x) as Hex by eauto.
        specialize (H2 Hex). lia.
    - intros Hno. rewrite H3, M3; [done| |].
      + apply Hno. left.
      + intros a Ha. apply Hno. by right. }
  destruct (Hgen all_files ∅) as (H1 & H2 & H3).
  assert (in_degree_get ∅ x = 0%Z) as H0 by done.
  rewrite H0 in *. split_and!; [done|done|done].
Qed.

(** **** The result *)

Lemma bind_Ok {A B} (x : A) (k : A → res B) : (Ok x ≫= k) = k x.
Proof. reflexivity. Qed.

Lemma set_order_elem (s : gset node) x : x ∈ set_order s ↔ x ∈ s.
Proof. by rewrite set_order_perm, elem_of_elements. Qed.

Lemma set_order_NoDup (s : gset node) : NoDup (set_order s).
Proof. rewrite set_order_perm. apply NoDup_elements. Qed.

(** The files no file depends on, in the order the set yields them. *)
Definition roots (g : graph) (files : list node) : list node :=
  filter (λ f, in_degree_get
                 (count_dependents g
                    (set_order (list_to_set (keys g) ∪ list_to_set files))) f
               = 0%Z)
    (set_order (list_to_set (keys g) ∪ list_to_set files)).

Lemma get_upgrade_order_spec (g : graph) (files : list node) :
  NoDup (keys g) →
  (all_keyed g ∧
   ∃ order rest, get_upgrade_order g files = Ok order ∧
     order ≡ₚ elements (list_to_set (keys g) ∪ list_to_set files : gset node) ∧
     order = roots g files ++ rest) ∨
  (¬ all_keyed g ∧ get_upgrade_order g files = Raise RuntimeError).
Proof.
  intros Hnodup. unfold get_upgrade_order.
  destruct (key_iteration_outcome g Hnodup) as [[Hk (st & -> & Hg)]|[Hk ->]].
  - left. split; [done|]. rewrite bind_Ok. cbv beta zeta. rewrite Hg.
    set (all := (list_to_set (keys g) ∪ list_to_set files : gset node)).
    set (L := set_order all).
    set (d0 := count_dependents g L).
    destruct (drain_spec g L (S (length L)) d0
                (filter (λ f, in_degree_get d0 f = 0%Z) L) [])
      as (r & rest & d' & -> & Hr & [Hnd Hq]).
    { rewrite app_nil_l. split.
      - apply NoDup_filter, set_order_NoDup.
      - intros x [Hx ?]%list_elem_of_filter. split; [done|lia]. }
    { simpl. lia. }
    rewrite app_nil_l in Hr. rewrite bind_Ok. cbv beta zeta.
    match goal with |- context [decide (?R = ∅)] => set (remaining := R) end.
    assert (r ++ set_order remaining ≡ₚ elements all) as Hperm.
    { apply NoDup_Permutation.
      - apply NoDup_app. split_and!; [done| |apply set_order_NoDup].
        intros x Hx. rewrite set_order_elem. unfold remaining. set_solver.
      - apply NoDup_elements.
      - intros x. rewrite elem_of_app, set_order_elem, elem_of_elements.
        unfold remaining. split.
        + intros [Hx|Hx]; [|set_solver]. destruct (Hq x Hx) as [Hin _].
          by apply set_order_elem in Hin.
        + intros Hx. destruct (decide (x ∈ r)); [by left|right]. set_solver. }
    assert (set_order ∅ = []) as Hempty.
    { apply Permutation_nil_r. by rewrite set_order_perm, elements_empty. }
    eexists _, (rest ++ if decide (remaining = ∅) then []
                        else merge_sort path_le (set_order remaining)).
    split; [done|]. split_and!.
    + case_decide as Hrem.
      * by rewrite <-Hperm, Hrem, Hempty, app_nil_r.
      * by rewrite merge_sort_Permutation.
    + unfold roots. fold all L d0. rewrite Hr.
      case_decide; by rewrite ?app_nil_r, <-?(assoc (++)).
  - by right.
Qed.

(** X5: [get_upgrade_order] raises [RuntimeError] when some file the
    graph mentions has no entry of its own; otherwise it returns a list
    in which every file of the graph and every analysed file occurs
    exactly once. *)
Theorem upgrade_order_lists_every_file_once (g : graph) (files : list node) :
  NoDup (keys g) →
  (all_keyed g ∧
   ∃ order, get_upgrade_order g files = Ok order ∧
     order ≡ₚ elements (list_to_set (keys g) ∪ list_to_set files : gset node)) ∨
  (¬ all_keyed g ∧ get_upgrade_order g files = Raise RuntimeError).
Proof.
  intros Hnd.
  destruct (get_upgrade_order_spec g files Hnd)
    as [[Hk (order & rest & Hrun & Hperm & _)]|?]; [left|by right].
  split; [done|]. by exists order.
Qed.

(** X6: in the list [get_upgrade_order] returns, a file that no file
    depends on comes before each file it depends on: the list starts
    with the dependents, not with the files without dependencies. *)
Theorem upgrade_order_puts_dependents_first
    (g : graph) (files order : list node) (a b : node) :
  NoDup (keys g) →
  get_upgrade_order g files = Ok order →
  edge g a b → (∀ c, ¬ edge g c a) →
  ∃ l1 l2 l3, order = l1 ++ a :: l2 ++ b :: l3.
Proof.
  intros Hnd Hrun Hab Hroot.
  destruct (get_upgrade_order_spec g files Hnd)
    as [[Hk (order' & rest & Hrun' & Hperm & Horder)]|[_ Hrun']];
    [|congruence].
  assert (order' = order) as -> by congruence.
  set (all := (list_to_set (keys g) ∪ list_to_set files : gset node)) in *.
  assert (a ∈ set_order all) as Ha.
  { apply set_order_elem. unfold all. apply edge_key in Hab. set_solver. }
  assert (a ∈ roots g files) as Hra.
  { unfold roots. apply list_elem_of_filter. split; [|done].
    by apply count_dependents_spec. }
  assert (b ∉ roots g files) as Hrb.
  { unfold roots. intros [Hb _]%list_elem_of_filter.
    pose proof (count_dependents_spec g (set_order all) b) as (_ & Hpos & _).
    fold all in Hb. rewrite Hb in Hpos.
    assert (0 < 0)%Z; [|lia]. apply Hpos. by exists a. }
  assert (b ∈ rest) as Hb.
  { assert (b ∈ order) as Hin.
    { rewrite Hperm, elem_of_elements. unfold all.
      apply edge_nodes in Hab as [_ Hbn]. apply Hk in Hbn. set_solver. }
    rewrite Horder in Hin. by apply elem_of_app in Hin as [?|?]. }
  apply list_elem_of_split in Hra as (l1 & l2 & Hra).
  apply list_elem_of_split in Hb as (m1 & m2 & ->).
  exists l1, (l2 ++ m1), m2. rewrite Horder, Hra.
  by rewrite <-!(assoc (++)).
Qed.

End get_upgrade_order.

(** A file A that imports B, after a read has given B an entry. *)
Definition import_pair : graph := [("A", ["B"]); ("B", [])]%string.

Lemma elements_order (s : gset node) : elements s ≡ₚ elements s.
Proof. reflexivity. Qed.

Lemma upgrade_order_lists_every_file_once_witness :
  (all_keyed import_pair ∧
   ∃ order, get_upgrade_order elements import_pair ["A"; "B"]%string = Ok order ∧
     order ≡ₚ elements (list_to_set (keys import_pair)
                          ∪ list_to_set ["A"; "B"]%string : gset node)) ∨
  (¬ all_keyed import_pair ∧
   get_upgrade_order elements import_pair ["A"; "B"]%string
     = Raise RuntimeError).
Proof.
  apply (upgrade_order_lists_every_file_once elements elements_order).
  vm_compute. repeat constructor; set_solver.
Defined.

Lemma upgrade_order_puts_dependents_first_witness :
  ∃ l1 l2 l3, ["A"; "B"]%string = l1 ++ "A"%string :: l2 ++ "B"%string :: l3.
Proof.
  apply (upgrade_order_puts_dependents_first elements elements_order
           import_pair ["A"; "B"]%string).
  - vm_compute. repeat constructor; set_solver.
  - vm_compute. reflexivity.
  - vm_compute. left.
  - intros c. unfold edge, deps, getitem, import_pair. simpl.
    repeat case_decide; simpl; set_solver.
Defined.

End UpgradeOrder.

(** ** parallel_processor.py: further properties *)

Module SchedulerFacts.
Import ReportGenerator ParallelProcessor.

Local Open Scope Z_scope.

(** *** The recorded calls of a rate limiter *)

(** The test [len(self.calls) < self.max_calls] of [acquire], after the
    old timestamps have been dropped. *)
Definition has_capacity (rl : RateLimiter) (now : Z) : bool :=
  bool_decide (Z.of_nat (length (prune (now - time_window rl) (calls rl)))
               < max_calls rl).

(** [acquire] together with a log of every timestamp it has appended
    to the deque. *)
Definition acquire_logged (st : RateLimiter * list Z) (now : Z)
    : res (RateLimiter * list Z) :=
  '(_, rl') ← acquire st.1 now;
  Ok (rl', if has_capacity st.1 now then st.2 ++ [now] else st.2).

(** Calls of [acquire] at the successive clock readings [times]. *)
Fixpoint acquire_all (st : RateLimiter * list Z) (times : list Z)
    : res (RateLimiter * list Z) :=
  match times with
  | [] => Ok st
  | now :: times' => st' ← acquire_logged st now; acquire_all st' times'
  end.

(** The timestamps of [log] in the closed window from [start] to
    [start + w]. *)
Definition in_window (start w : Z) (log : list Z) : list Z :=
  filter (λ t, start ≤ t ≤ start + w) log.

Lemma acquire_appends rl now wait rl' :
  acquire rl now = Ok (wait, rl') →
  max_calls rl' = max_calls rl ∧ time_window rl' = time_window rl ∧
  calls rl' = prune (now - time_window rl) (calls rl)
                ++ (if has_capacity rl now then [now] else []).
Proof.
  unfold acquire, has_capacity. case_bool_decide.
  - by intros [= _ <-].
  - destruct (prune _ _); [done|]. intros [= _ <-]. simpl.
    by rewrite app_nil_r.
Qed.

Lemma filter_length_impl {A} (P Q : A → Prop)
    `{!∀ x, Decision (P x), !∀ x, Decision (Q x)} (l : list A) :
  (∀ x, x ∈ l → P x → Q x) → (length (filter P l) ≤ length (filter Q l))%nat.
Proof.
  induction l as [|x l IH]; intros Himp; [done|].
  assert (length (filter P l) ≤ length (filter Q l))%nat as IH'.
  { apply IH. intros y Hy. apply Himp. by right. }
  destruct (decide (P x)) as [HP|HP].
  - rewrite (filter_cons_True P) by done.
    rewrite (filter_cons_True Q) by (apply Himp; [left|done]). simpl. lia.
  - rewrite (filter_cons_False P) by done.
    destruct (decide (Q x)).
    + rewrite (filter_cons_True Q) by done. simpl. lia.
    + by rewrite (filter_cons_False Q) by done.
Qed.

(** What holds between the deque, the log and the last clock reading
    [t0] of a limiter with capacity [N] and window [W]. *)
Definition limiter_inv (N W t0 : Z) (st : RateLimiter * list Z) : Prop :=
  max_calls st.1 = N ∧ time_window st.1 = W ∧
  Sorted Z.le (calls st.1) ∧ Forall (λ t, t ≤ t0) (calls st.1) ∧
  (∀ bound, t0 - W ≤ bound → recent bound (calls st.1) = recent bound st.2) ∧
  ∀ start, Z.of_nat (length (in_window start W st.2)) ≤ Z.max 0 N.

Lemma recent_recent b1 b2 cs : b1 ≤ b2 → recent b2 (recent b1 cs) = recent b2 cs.
Proof.
  intros Hb. unfold recent. apply list_filter_filter_l. intros x. lia.
Qed.

Lemma acquire_logged_inv N W t0 st now st' :
  limiter_inv N W t0 st → t0 ≤ now →
  acquire_logged st now = Ok st' → limiter_inv N W now st'.
Proof.
  intros (HN & HW & Hs & Hle & Hrec & Hwin) Hnow. unfold acquire_logged.
  destruct (acquire st.1 now) as [[wait rl']|] eqn:Eacq; simpl; [|done].
  intros [= <-].
  pose proof (acquire_keeps_order _ _ _ _ Hs
    (Forall_impl _ _ _ Hle (λ t (H : t ≤ t0), Z.le_trans _ _ _ H Hnow)) Eacq)
    as [Hs' Hle'].
  apply acquire_appends in Eacq as (HN' & HW' & Hcalls).
  rewrite prune_sorted in Hcalls by done.
  unfold limiter_inv. simpl. split_and!; [congruence..|done|done| |].
  - intros bound Hbound. rewrite Hcalls. unfold recent at 1.
    rewrite filter_app. fold (recent bound (recent (now - time_window st.1) (calls st.1))).
    rewrite recent_recent by lia. rewrite Hrec by lia.
    destruct (has_capacity st.1 now); [|by rewrite !app_nil_r].
    unfold recent. by rewrite filter_app.
  - intros start. unfold has_capacity. rewrite prune_sorted by done.
    case_bool_decide as Hcap; [|apply Hwin].
    destruct (decide (start ≤ now ≤ start + W)) as [Hin|Hout].
    + assert (length (in_window start W st.2)
              ≤ length (recent (now - W) st.2))%nat as Hcount.
      { unfold recent, in_window. apply filter_length_impl. intros x _. lia. }
      rewrite <-Hrec in Hcount by lia. rewrite HW in Hcap.
      unfold in_window in *. rewrite filter_app, length_app.
      rewrite (filter_cons_True _ now) by done. simpl. lia.
    + specialize (Hwin start).
      unfold in_window in *. rewrite filter_app, length_app.
      rewrite (filter_cons_False _ now) by done. simpl. lia.
Qed.

Lemma acquire_all_inv N W times :
  ∀ t0 st st',
    limiter_inv N W t0 st → Sorted Z.le (t0 :: times) →
    acquire_all st times = Ok st' →
    ∃ t1, limiter_inv N W t1 st'.
Proof.
  induction times as [|now times IH]; intros t0 st st' Hinv Hs; simpl.
  { intros [= <-]. eauto. }
  destruct (acquire_logged st now) as [st1|] eqn:E; simpl; [|done].
  apply Sorted_inv in Hs as [Hs Hhd]. apply HdRel_inv in Hhd.
  apply (IH now). by eapply acquire_logged_inv.
  done.
Qed.

(** X7: calls of [acquire] on a fresh limiter at clock readings that do
    not run backwards never record more than [max_calls] timestamps in
    any closed window of length [time_window]. *)
Theorem acquire_records_at_most_max_calls_per_window
    (N W : Z) (times : list Z) (rl : RateLimiter) (log : list Z) :
  Sorted Z.le times →
  acquire_all (mkLimiter N W [], []) times = Ok (rl, log) →
  ∀ start, Z.of_nat (length (in_window start W log)) ≤ Z.max 0 N.
Proof.
  intros Hs Hrun. destruct times as [|t0 times].
  { injection Hrun as <- <-. intros start. simpl. lia. }
  destruct (acquire_all_inv N W (t0 :: times) t0 (mkLimiter N W [], [])
              (rl, log)) as (t1 & Hinv); [| |done|].
  - unfold limiter_inv. simpl. split_and!; [done..|constructor|constructor| |].
    + done.
    + intros start. lia.
  - constructor; [done|]. constructor. lia.
  - by destruct Hinv as (_ & _ & _ & _ & _ & Hwin).
Qed.

Lemma acquire_records_at_most_max_calls_per_window_witness :
  Z.of_nat (length (in_window 0 10 [0; 0; 12])) ≤ Z.max 0 2.
Proof.
  refine (acquire_records_at_most_max_calls_per_window 2 10 [0; 0; 0; 5; 12]
            (mkLimiter 2 10 [12]) [0; 0; 12] _ _ 0).
  - repeat constructor; lia.
  - vm_compute. reflexivity.
Defined.

Local Close Scope Z_scope.

(** *** The progress counters of a batch *)

(** The task got past the rate limiter, so [process_func] was called. *)
Definition ran (ev : task_event) : bool :=
  match ev with LimiterRaised _ => false | _ => true end.

(** [process_func] returned an object whose [success] cannot be read. *)
Definition unreadable (ev : task_event) : bool :=
  match ev with FuncReturnedOther _ => true | _ => false end.

(** The task raised in [process_func], or returned a result that
    reports a failure or an object whose [success] cannot be read. *)
Definition task_failed (ev : task_event) : bool :=
  match ev with
  | LimiterRaised _ => false
  | FuncReturned r => negb (success r)
  | FuncReturnedOther _ => true
  | FuncRaised _ => true
  end.

(** What happens to the tasks of a batch, in the order of [files]. *)
Definition batch_events (events : nat → string → task_event) (i : nat)
    (files : list string) : list task_event :=
  imap (λ j f, events (i + j) f) files.

(** [get_progress] after the batch. *)
Definition get_progress (events : nat → string → task_event)
    (files : list string) : progress :=
  (process_batch events files).2.

Lemma batch_events_cons events i f files :
  batch_events events i (f :: files)
    = events i f :: batch_events events (S i) files.
Proof.
  unfold batch_events. simpl. rewrite Nat.add_0_r. f_equal.
  apply imap_ext. intros j x _. simpl. f_equal. lia.
Qed.

Lemma gather_progress events files :
  ∀ i p,
    (gather events i files p).2 =
    mkProgress
      (completed p + length (filter ran (batch_events events i files))
         + length (filter unreadable (batch_events events i files)))
      (total p)
      (failed p + length (filter task_failed (batch_events events i files))).
Proof.
  induction files as [|f files IH]; intros i p; simpl.
  { destruct p. simpl. f_equal; lia. }
  destruct (process_file_async f (events i f) p) as [r p1] eqn:E1.
  specialize (IH (S i) p1).
  destruct (gather events (S i) files p1) as [rs p2]. simpl in *. subst p2.
  rewrite batch_events_cons.
  unfold process_file_async in E1.
  destruct (events i f) as [msg|r0|msg|msg] eqn:Eev; simplify_eq.
  - rewrite !filter_cons_False by (simpl; tauto). done.
  - rewrite (filter_cons_True ran) by (simpl; tauto).
    rewrite (filter_cons_False unreadable) by (simpl; tauto).
    destruct (success r0) eqn:Es.
    + rewrite (filter_cons_False task_failed)
        by (simpl; rewrite Es; simpl; tauto).
      simpl. f_equal; lia.
    + rewrite (filter_cons_True task_failed)
        by (simpl; rewrite Es; simpl; tauto).
      simpl. f_equal; lia.
  - rewrite !filter_cons_True by (simpl; tauto). simpl. f_equal; lia.
  - rewrite (filter_cons_True ran) by (simpl; tauto).
    rewrite (filter_cons_False unreadable) by (simpl; tauto).
    rewrite (filter_cons_True task_failed) by (simpl; tauto).
    simpl. f_equal; lia.
Qed.

(** X8: when a batch is over, [total] is the number of files;
    [completed] counts every task that got past the rate limiter, and
    counts a second time each task whose [process_func] returned an
    object on which reading [success] raises; [failed] counts the tasks
    that raised, returned such an object or returned a failure.  So
    [failed <= completed <= 2 * total]; when every object returned has
    a [success] flag that can be read, [completed <= total], with
    equality when the rate limiter raised for no task. *)
Theorem batch_progress_counts (events : nat → string → task_event)
    (files : list string) :
  let p := get_progress events files in
  let evs := batch_events events 0 files in
  total p = length files ∧
  completed p = length (filter ran evs) + length (filter unreadable evs) ∧
  failed p = length (filter task_failed evs) ∧
  failed p ≤ completed p ≤ 2 * total p ∧
  (Forall (λ ev, unreadable ev = false) evs →
   completed p ≤ total p ∧
   (Forall (λ ev, ran ev) evs → completed p = total p)).
Proof.
  unfold get_progress, process_batch.
  pose proof (gather_progress events files 0 (mkProgress 0 (length files) 0))
    as Hp.
  destruct (gather events 0 files _) as [results p']. simpl in *. subst p'.
  cbn [total completed failed]. set (evs := batch_events events 0 files).
  assert (length evs = length files) as Hlen
    by (unfold evs, batch_events; by rewrite length_imap).
  pose proof (length_filter ran evs) as Hran.
  pose proof (length_filter unreadable evs) as Hun.
  assert (length (filter task_failed evs) ≤ length (filter ran evs)) as Hfr
    by (apply filter_length_impl; intros [] _; simpl; tauto).
  split_and!; [done|done|done|lia|lia|].
  intros Hread.
  assert (filter unreadable evs = []) as Hnone.
  { clear -Hread. induction Hread as [|ev l Hev _ IH]; [done|].
    rewrite filter_cons_False by (rewrite Hev; simpl; tauto). done. }
  rewrite Hnone. simpl. split; [lia|].
  intros Hall.
  assert (filter ran evs = evs) as ->; [|lia].
  clear -Hall. induction Hall as [|ev l Hev _ IH]; [done|].
  rewrite filter_cons_True by done. by rewrite IH.
Qed.

(** *** The batches of a level-by-level run *)

(** [self.dependency_levels.get(file_path, 0)] *)
Definition level_of (dependency_levels : gmap string nat) (file_path : string)
    : nat :=
  default 0 (dependency_levels !! file_path).

(** The files of one level, in the order of [files]. *)
Definition files_at (dependency_levels : gmap string nat) (files : list string)
    (level : nat) : list string :=
  filter (λ f, level_of dependency_levels f = level) files.

Lemma level_of_lookup (dependency_levels : gmap string nat) f l :
  dependency_levels !! f = Some l → level_of dependency_levels f = l.
Proof. unfold level_of. by intros ->. Qed.

Lemma group_by_level_get dependency_levels files l :
  group_get l (group_by_level dependency_levels files)
    = files_at dependency_levels files l.
Proof.
  unfold group_by_level, files_at.
  assert (∀ fs (g : groups),
    group_get l (foldl (λ levels file_path,
        group_add (default 0 (dependency_levels !! file_path)) file_path levels)
      g fs)
    = group_get l g ++ filter (λ f, level_of dependency_levels f = l) fs)
    as Hgen.
  { induction fs as [|f fs IH]; intros g; simpl; [by rewrite app_nil_r|].
    rewrite IH, group_get_add. fold (level_of dependency_levels f).
    destruct (decide (l = level_of dependency_levels f)) as [->|Hne].
    - rewrite filter_cons_True by done. by rewrite <-(assoc (++)).
    - by rewrite filter_cons_False by done. }
  by rewrite Hgen.
Qed.

Lemma group_add_NoDup l f (g : groups) :
  NoDup g.*1 → NoDup (group_add l f g).*1.
Proof.
  induction g as [|[k fs] g IH]; simpl; [intros; apply NoDup_singleton|].
  intros [Hk Hnd]%NoDup_cons. case_decide; simpl.
  - by apply NoDup_cons.
  - apply NoDup_cons. split; [|by apply IH].
    rewrite group_add_keys. intros [?|?]; by simplify_eq.
Qed.

Lemma group_by_level_keys dependency_levels files :
  NoDup (group_by_level dependency_levels files).*1 ∧
  ∀ l, l ∈ (group_by_level dependency_levels files).*1 ↔
       ∃ f, f ∈ files ∧ level_of dependency_levels f = l.
Proof.
  unfold group_by_level.
  assert (∀ fs (g : groups), NoDup g.*1 →
    NoDup (foldl (λ levels file_path,
        group_add (default 0 (dependency_levels !! file_path)) file_path levels)
      g fs).*1 ∧
    ∀ l, l ∈ (foldl (λ levels file_path,
        group_add (default 0 (dependency_levels !! file_path)) file_path levels)
      g fs).*1 ↔
      l ∈ g.*1 ∨ ∃ f, f ∈ fs ∧ level_of dependency_levels f = l) as Hgen.
  { induction fs as [|f fs IH]; intros g Hnd; simpl.
    { split; [done|]. intros l. split; [by left|].
      intros [?|(f & Hf & _)]; [done|]. by apply elem_of_nil in Hf. }
    destruct (IH (group_add (default 0 (dependency_levels !! f)) f g))
      as [Hnd' Hkeys]; [by apply group_add_NoDup|].
    split; [done|]. intros l. rewrite Hkeys, group_add_keys.
    fold (level_of dependency_levels f). split.
    - intros [[->|?]|(f' & ? & ?)]; [right; exists f; split; [left|done]
        |by left|right; exists f'; split; [by right|done]].
    - intros [?|(f' & [->|?]%elem_of_cons & ?)];
        [left; by right|left; by left|right; by exists f']. }
  destruct (Hgen files []) as [Hnd Hkeys]; [constructor|].
  split; [done|]. intros l. rewrite Hkeys. split; [|by right].
  intros [Hl|?]; [|done]. by apply elem_of_nil in Hl.
Qed.

(** The levels of the batches, in the order in which they run. *)
Definition batch_levels (dependency_levels : gmap string nat)
    (files : list string) : list nat :=
  merge_sort (≤) (group_by_level dependency_levels files).*1.

Lemma batch_levels_sorted dependency_levels files :
  StronglySorted lt (batch_levels dependency_levels files).
Proof.
  unfold batch_levels.
  destruct (group_by_level_keys dependency_levels files) as [Hnd _].
  assert (NoDup (merge_sort (≤) (group_by_level dependency_levels files).*1))
    as Hnd' by (by rewrite merge_sort_Permutation).
  pose proof (StronglySorted_merge_sort (≤)
                (group_by_level dependency_levels files).*1) as Hs.
  induction Hs as [|x l Hs IH Hall]; [constructor|].
  apply NoDup_cons in Hnd' as [Hx Hnd']. constructor; [by apply IH|].
  rewrite Forall_forall in *. intros y Hy. specialize (Hall y Hy).
  assert (x ≠ y) by (by intros ->). lia.
Qed.

Lemma batch_levels_spec
    (dependency_levels : gmap string nat) (files : list string) :
  StronglySorted lt (batch_levels dependency_levels files) ∧
  (∀ l, l ∈ batch_levels dependency_levels files ↔
        ∃ f, f ∈ files ∧ level_of dependency_levels f = l) ∧
  processing_order (group_by_level dependency_levels files)
    = files_at dependency_levels files <$> batch_levels dependency_levels files.
Proof.
  split_and!.
  - apply batch_levels_sorted.
  - intros l. unfold batch_levels. rewrite merge_sort_Permutation.
    apply group_by_level_keys.
  - unfold processing_order, batch_levels. apply list_fmap_ext.
    intros i l _. apply group_by_level_get.
Qed.

(** X9: the batches of a level-by-level run are the levels that occur
    among the files, each once, in strictly ascending order; the batch
    of a level holds the files of that level, a file without a level
    counting as level 0, in the order of the file list. *)
Theorem batches_are_the_levels_in_ascending_order
    (dependency_levels : gmap string nat) (files : list string) :
  StronglySorted lt (batch_levels dependency_levels files) ∧
  (∀ l, l ∈ batch_levels dependency_levels files ↔
        ∃ f, f ∈ files ∧ level_of dependency_levels f = l) ∧
  processing_order (group_by_level dependency_levels files)
    = files_at dependency_levels files <$> batch_levels dependency_levels files.
Proof.
  split_and!.
  - apply batch_levels_sorted.
  - intros l. unfold batch_levels. rewrite merge_sort_Permutation.
    apply group_by_level_keys.
  - unfold processing_order, batch_levels. apply list_fmap_ext.
    intros i l _. apply group_by_level_get.
Qed.

Lemma sorted_lookup_lt (ls : list nat) i j x y :
  StronglySorted lt ls → ls !! i = Some x → ls !! j = Some y → x < y → i < j.
Proof.
  intros Hs. revert i j. induction Hs as [|z l Hs IH Hall]; intros i j Hi Hj Hxy.
  { done. }
  rewrite Forall_forall in Hall.
  destruct i as [|i], j as [|j]; simpl in *; simplify_eq.
  - lia.
  - lia.
  - apply list_elem_of_lookup_2, Hall in Hi. lia.
  - specialize (IH i j Hi Hj Hxy). lia.
Qed.

Section pipeline.
Import DependencyAnalyzer.

(** X10: on a dependency graph without cycles, when the files are
    batched by the levels [get_dependency_levels] computes, every
    dependency among the files runs in an earlier batch than the file
    that depends on it. *)
Theorem dependencies_run_in_earlier_batch (g : graph) (files : list node) :
  acyclic g →
  ∃ levels, get_dependency_levels g files = Ok levels ∧
    ∀ a b, a ∈ files → b ∈ files → edge g a b →
      ∃ i j batch_b batch_a,
        processing_order (group_by_level levels files) !! i = Some batch_b ∧
        processing_order (group_by_level levels files) !! j = Some batch_a ∧
        b ∈ batch_b ∧ a ∈ batch_a ∧ i < j.
Proof.
  intros Hac.
  destruct (get_dependency_levels_total g files) as (levels & Hrun & Hall).
  exists levels. split; [done|]. intros a b Ha Hb Hab.
  assert (good g levels) as Hgood.
  { unfold get_dependency_levels in Hrun.
    eapply levels_loop_good; [done|apply good_empty|done]. }
  destruct (Hall a Ha) as [la Hla].
  destruct (Hgood a la Hla) as [_ Hdeps].
  destruct (Hdeps b Hab) as (lb & Hlb & Hlt).
  destruct (batch_levels_spec levels files)
    as (Hsorted & Hkeys & Horder).
  assert (la ∈ batch_levels levels files) as Hia.
  { apply Hkeys. exists a. split; [done|]. by apply level_of_lookup. }
  assert (lb ∈ batch_levels levels files) as Hib.
  { apply Hkeys. exists b. split; [done|]. by apply level_of_lookup. }
  apply list_elem_of_lookup in Hia as [j Hj], Hib as [i Hi].
  exists i, j, (files_at levels files lb), (files_at levels files la).
  rewrite Horder, !list_lookup_fmap, Hi, Hj. simpl. split_and!; [done..| | |].
  - apply list_elem_of_filter. split; [|done]. by apply level_of_lookup.
  - apply list_elem_of_filter. split; [|done]. by apply level_of_lookup.
  - by eapply sorted_lookup_lt.
Qed.

Lemma dependencies_run_in_earlier_batch_witness :
  ∃ levels, get_dependency_levels chain ["A"; "B"; "C"]%string = Ok levels ∧
    ∀ a b, a ∈ ["A"; "B"; "C"]%string → b ∈ ["A"; "B"; "C"]%string →
      edge chain a b →
      ∃ i j batch_b batch_a,
        processing_order (group_by_level levels ["A"; "B"; "C"]%string) !! i
          = Some batch_b ∧
        processing_order (group_by_level levels ["A"; "B"; "C"]%string) !! j
          = Some batch_a ∧
        b ∈ batch_b ∧ a ∈ batch_a ∧ i < j.
Proof.
  exact (dependencies_run_in_earlier_batch chain ["A"; "B"; "C"]%string
           chain_acyclic).
Defined.
End pipeline.

End SchedulerFacts.

(** ** chunker.py: further properties *)

Module ChunkerFacts.
Import PyStr Chunker.

(** *** Lines and newlines *)

(** The string contains a newline character. *)
Fixpoint has_newline (s : string) : bool :=
  match s with
  | EmptyString => false
  | String c s' => bool_decide (c = nl) || has_newline s'
  end.

Lemma split_lines_one s : has_newline s = false → split_lines s = [s].
Proof.
  induction s as [|c s IH]; [done|]. simpl.
  intros [Hc Hs]%orb_false_elim. apply bool_decide_eq_false in Hc.
  rewrite decide_False by done. by rewrite IH.
Qed.

Lemma split_lines_app s rest :
  has_newline s = false →
  split_lines (s +:+ String nl rest) = s :: split_lines rest.
Proof.
  induction s as [|c s IH].
  - intros _. change ("" +:+ String nl rest) with (String nl rest).
    simpl. by rewrite ?decide_True.
  - intros H. simpl in H. apply orb_false_elim in H as [Hc Hs].
    apply bool_decide_eq_false in Hc.
    rewrite append_cons. simpl. rewrite decide_False by done. by rewrite IH.
Qed.

Lemma split_lines_no_newline s :
  Forall (λ l, has_newline l = false) (split_lines s).
Proof.
  induction s as [|c s IH]; simpl; [by repeat constructor|].
  case_decide as Hc; [by constructor|].
  destruct (split_lines s) as [|l ls]; [by repeat constructor; simpl;
    rewrite bool_decide_eq_false_2|].
  apply Forall_cons in IH as [Hl Hls]. constructor; [|done].
  simpl. by rewrite bool_decide_eq_false_2.
Qed.

(** ['\n'.join(ls).split('\n')] gives back [ls] when no element
    contains a newline and [ls] is not empty. *)
Lemma split_join ls :
  ls ≠ [] → Forall (λ l, has_newline l = false) ls →
  split_lines (join_lines ls) = ls.
Proof.
  intros Hne Hall. induction Hall as [|l ls Hl Hls IH]; [done|].
  destruct ls as [|l' ls]; [by apply split_lines_one|].
  unfold join_lines in *. rewrite join_cons.
  change (l +:+ String nl "" +:+ join (String nl "") (l' :: ls))
    with (l +:+ String nl (join (String nl "") (l' :: ls))).
  rewrite split_lines_app by done. by rewrite IH.
Qed.

Lemma split_join_length ls :
  Forall (λ l, has_newline l = false) ls →
  length (split_lines (join_lines ls)) = length ls `max` 1.
Proof.
  intros Hall. destruct ls as [|l ls]; [done|].
  rewrite split_join by done. simpl. lia.
Qed.

Lemma slice_no_newline src i j :
  Forall (λ l, has_newline l = false) (slice (split_lines src) i j).
Proof.
  unfold slice. apply Forall_take, Forall_drop, split_lines_no_newline.
Qed.

Lemma slice_length {A} (l : list A) i j :
  length (slice l i j) = (j - i) `min` (length l - i).
Proof. unfold slice. by rewrite length_take, length_drop. Qed.

Lemma take_min {A} (l : list A) n m :
  n `min` length l = m `min` length l → take n l = take m l.
Proof.
  intros H. by rewrite <-(take_min_length l n), <-(take_min_length l m), H.
Qed.

Lemma range_from_lt fuel i stop step x :
  x ∈ range_from fuel i stop step → x < stop.
Proof.
  revert i. induction fuel as [|fuel IH]; intros i; simpl;
    [by intros ?%elem_of_nil|].
  case_decide; [|by intros ?%elem_of_nil].
  intros [->|?]%elem_of_cons; [done|eauto].
Qed.

(** *** What a chunk records *)

(** The chunk's code is the range of lines it names, it has at most
    [max] lines unless it is the whole file, and it carries the import
    block [context]. *)
Definition chunk_ok (lines : list string) (max : nat) (context : string)
    (c : Chunk) : Prop :=
  code c = join_lines (slice lines (start_line c) (end_line c)) ∧
  (type c ≠ "full"%string → length (split_lines (code c)) ≤ max) ∧
  imports c = context.

Lemma chunk_by_lines_ok max_lines src chunks :
  (0 < max_lines)%Z → _chunk_by_lines max_lines src = Ok chunks →
  Forall (chunk_ok (split_lines src) (Z.to_nat max_lines) "") chunks.
Proof.
  intros Hmax. unfold _chunk_by_lines, range.
  rewrite decide_False, decide_False by lia. simpl. intros [= <-].
  apply Forall_fmap, Forall_forall. intros i Hi%range_from_lt.
  unfold chunk_ok. simpl. set (lines := split_lines src) in *.
  assert (slice lines i (i + length (slice lines i (i + Z.to_nat max_lines)))
          = slice lines i (i + Z.to_nat max_lines)) as Hslice.
  { rewrite !slice_take. apply take_min.
    rewrite length_take, length_drop. lia. }
  split_and!; [by rewrite Hslice| |done].
  intros _. rewrite split_join_length by apply slice_no_newline.
  rewrite slice_length. lia.
Qed.

Lemma split_large_chunk_ok max_lines src start end_ context chunks :
  (0 < max_lines)%Z → (max_lines < Z.of_nat end_ - Z.of_nat start)%Z →
  _split_large_chunk max_lines
    (join_lines (slice (split_lines src) start end_)) start context
    = Ok chunks →
  Forall (λ c, chunk_ok (split_lines src) (Z.to_nat max_lines) context c ∧
               type c ≠ "full"%string) chunks.
Proof.
  intros Hmax Hbig. unfold _split_large_chunk, range.
  rewrite decide_False, decide_False by lia. simpl. intros [= <-].
  set (lines := split_lines src) in *.
  set (sub := split_lines (join_lines (slice lines start end_))).
  apply Forall_fmap, Forall_forall. intros i Hi%range_from_lt.
  unfold chunk_ok. simpl.
  assert (Forall (λ l, has_newline l = false) sub) as Hsub
    by apply split_lines_no_newline.
  split_and!; [| |done|done].
  - destruct (decide (slice lines start end_ = [])) as [Eslice|Eslice].
    + assert (length lines ≤ start) as Hshort.
      { apply (f_equal length) in Eslice. rewrite slice_length in Eslice.
        simpl in Eslice. lia. }
      unfold sub in *. rewrite Eslice in *.
      assert (i = 0) as -> by (simpl in Hi; lia).
      simpl. unfold slice at 2. rewrite drop_ge by lia.
      rewrite take_nil. unfold slice. simpl.
      destruct (Z.to_nat max_lines - 0) eqn:E; [lia|]. simpl. by rewrite take_nil.
    + assert (sub = slice lines start end_) as Hsubeq.
      { unfold sub. apply split_join; [done|]. apply slice_no_newline. }
      rewrite Hsubeq in *. clear Hsubeq sub Hsub.
      f_equal. rewrite slice_length in *. unfold slice.
      rewrite skipn_firstn_comm, take_take, !drop_drop.
      apply take_min. rewrite !length_drop. lia.
  - intros _. rewrite split_join_length.
    + rewrite slice_length. lia.
    + unfold slice. by apply Forall_take, Forall_drop.
Qed.

Section chunk_by_functions_facts.
Variable ast_parse : string → option module_ast.

Lemma node_chunks_ok max_lines src context node chunks :
  (0 < max_lines)%Z →
  node_chunks max_lines (split_lines src) context node = Ok chunks →
  Forall (λ c, chunk_ok (split_lines src) (Z.to_nat max_lines) context c ∧
               type c ≠ "full"%string) chunks.
Proof.
  intros Hmax. unfold node_chunks.
  set (end_ := match end_lineno node with
               | Some (S e) => S e
               | _ => length (split_lines src)
               end).
  assert (∀ ty : string, ty ≠ "full"%string →
    (if decide (max_lines < Z.of_nat end_ - Z.of_nat (lineno node - 1))%Z
     then _split_large_chunk max_lines
            (join_lines (slice (split_lines src) (lineno node - 1) end_))
            (lineno node - 1) context
     else Ok [mkChunk ty (node_name node)
                (join_lines (slice (split_lines src) (lineno node - 1) end_))
                (lineno node - 1) end_ context]) = Ok chunks →
    Forall (λ c, chunk_ok (split_lines src) (Z.to_nat max_lines) context c ∧
                 type c ≠ "full"%string) chunks) as Hcase.
  { intros ty Hty. case_decide as Hbig.
    - intros Hsplit. by apply split_large_chunk_ok in Hsplit.
    - intros [= <-]. apply Forall_singleton. split; [|done].
      unfold chunk_ok. simpl. split_and!; [done| |done].
      intros _. rewrite split_join_length by apply slice_no_newline.
      rewrite slice_length. lia. }
  destruct (kind node); [by apply Hcase..|].
  intros [= <-]. constructor.
Qed.

Lemma nodes_chunks_ok max_lines src context nodes :
  (0 < max_lines)%Z →
  ∀ chunks, nodes_chunks max_lines (split_lines src) context nodes = Ok chunks →
  Forall (λ c, chunk_ok (split_lines src) (Z.to_nat max_lines) context c ∧
               type c ≠ "full"%string) chunks.
Proof.
  intros Hmax. induction nodes as [|node nodes IH]; intros chunks; simpl.
  { intros [= <-]. constructor. }
  destruct (node_chunks _ _ _ node) as [cs|] eqn:E1; simpl; [|done].
  destruct (nodes_chunks _ _ _ nodes) as [cs'|] eqn:E2; simpl; [|done].
  intros [= <-]. apply Forall_app. split; [by eapply node_chunks_ok|by apply IH].
Qed.

(** What [chunk_by_functions] returns. *)
Lemma chunk_by_functions_ok max_lines src :
  (0 < max_lines)%Z →
  ∃ c chunks context,
    chunk_by_functions ast_parse max_lines src = Ok (c :: chunks) ∧
    Forall (chunk_ok (split_lines src) (Z.to_nat max_lines) context)
      (c :: chunks) ∧
    (type c = "full"%string → chunks = []) ∧
    Forall (λ c', type c' ≠ "full"%string) chunks.
Proof.
  intros Hmax.
  destruct (chunk_by_functions_nonempty ast_parse max_lines src Hmax)
    as (c & chunks & Hrun).
  exists c, chunks. unfold chunk_by_functions in *.
  destruct (ast_parse src) as [tree|].
  - destruct (nodes_chunks _ _ _ (body tree)) as [cs|] eqn:E; simpl in *;
      [|done].
    apply nodes_chunks_ok in E; [|done].
    destruct cs as [|c0 cs].
    + injection Hrun as <- <-. exists ""%string.
      split_and!; [done| |done|constructor].
      apply Forall_singleton. unfold chunk_ok. simpl. split_and!; [|done..].
      rewrite <-(join_split src) at 1. f_equal. unfold slice.
      rewrite Nat.sub_0_r. simpl. by rewrite take_ge.
    + injection Hrun as <- <-. eexists. split_and!; [done| | |].
      * eapply Forall_impl; [exact E|]. by intros ? [? _].
      * apply Forall_cons in E as [[_ Hc] _]. done.
      * apply Forall_cons in E as [_ E].
        eapply Forall_impl; [exact E|]. by intros ? [_ ?].
  - exists ""%string. pose proof Hrun as Hok.
    apply chunk_by_lines_ok in Hok; [|done].
    assert (Forall (λ c', type c' = "partial"%string) (c :: chunks)) as Hty.
    { unfold _chunk_by_lines, range in Hrun.
      rewrite decide_False, decide_False in Hrun by lia. simpl in Hrun.
      injection Hrun as Hrun. rewrite <-Hrun. by apply Forall_fmap, Forall_true. }
    apply Forall_cons in Hty as [Hc Hty]. split_and!; [done..| |].
    + by rewrite Hc.
    + eapply Forall_impl; [exact Hty|]. by intros ? ->.
Qed.

(** X11: for a positive [max_lines], [chunk_by_functions] returns at
    least one chunk; the code of every chunk is exactly the lines of
    the file from the chunk's [start_line] up to its [end_line], joined
    by newlines, and all chunks of the file carry the same import
    block. *)
Theorem chunks_hold_the_lines_they_name (max_lines : Z) (src : string) :
  (0 < max_lines)%Z →
  ∃ c chunks,
    chunk_by_functions ast_parse max_lines src = Ok (c :: chunks) ∧
    ∀ c', c' ∈ c :: chunks →
      code c' = join_lines
                  (slice (split_lines src) (start_line c') (end_line c')) ∧
      imports c' = imports c.
Proof.
  intros Hmax.
  destruct (chunk_by_functions_ok max_lines src Hmax)
    as (c & chunks & context & Hrun & Hok & _).
  exists c, chunks. split; [done|]. intros c' Hc'.
  rewrite Forall_forall in Hok.
  destruct (Hok c' Hc') as (Hcode & _ & Himp).
  destruct (Hok c) as (_ & _ & Himp0); [left|]. split; [done|congruence].
Qed.

(** X12: for a positive [max_lines], every chunk has at most
    [max_lines] lines, except the chunk of type ['full'], which is the
    whole file whatever its length and is returned on its own. *)
Theorem chunks_fit_max_lines_unless_full (max_lines : Z) (src : string) :
  (0 < max_lines)%Z →
  ∃ c chunks,
    chunk_by_functions ast_parse max_lines src = Ok (c :: chunks) ∧
    (type c = "full"%string → chunks = [] ∧ code c = src) ∧
    ∀ c', c' ∈ c :: chunks → type c' ≠ "full"%string →
      (Z.of_nat (length (split_lines (code c'))) ≤ max_lines)%Z.
Proof.
  intros Hmax.
  destruct (chunk_by_functions_ok max_lines src Hmax)
    as (c & chunks & context & Hrun & Hok & Hfull & _).
  exists c, chunks. split_and!; [done| |].
  - intros Hty. split; [by apply Hfull|].
    unfold chunk_by_functions in Hrun.
    destruct (ast_parse src) as [tree|].
    + destruct (nodes_chunks _ _ _ (body tree)) as [cs|] eqn:E; simpl in *;
        [|done].
      destruct cs as [|c0 cs]; [by injection Hrun as <- <-|].
      injection Hrun as <- <-.
      apply nodes_chunks_ok in E; [|done].
      by apply Forall_cons in E as [[_ Hc] _].
    + unfold _chunk_by_lines, range in Hrun.
      rewrite decide_False, decide_False in Hrun by lia. simpl in Hrun.
      injection Hrun as Hrun.
      assert (Forall (λ c', type c' = "partial"%string) (c :: chunks)) as Hp
        by (rewrite <-Hrun; by apply Forall_fmap, Forall_true).
      apply Forall_cons in Hp as [Hp _]. congruence.
  - intros c' Hc' Hty. rewrite Forall_forall in Hok.
    destruct (Hok c' Hc') as (_ & Hlen & _). specialize (Hlen Hty). lia.
Qed.
End chunk_by_functions_facts.

Lemma chunks_hold_the_lines_they_name_witness :
  ∃ c chunks,
    chunk_by_functions (λ _, None) 300 "x = 1" = Ok (c :: chunks) ∧
    ∀ c', c' ∈ c :: chunks →
      code c' = join_lines
                  (slice (split_lines "x = 1") (start_line c') (end_line c')) ∧
      imports c' = imports c.
Proof.
  apply (chunks_hold_the_lines_they_name (λ _, None) 300 "x = 1"). lia.
Defined.

Lemma chunks_fit_max_lines_unless_full_witness :
  ∃ c chunks,
    chunk_by_functions (λ _, None) 300 "x = 1" = Ok (c :: chunks) ∧
    (type c = "full"%string → chunks = [] ∧ code c = "x = 1"%string) ∧
    ∀ c', c' ∈ c :: chunks → type c' ≠ "full"%string →
      (Z.of_nat (length (split_lines (code c'))) ≤ 300)%Z.
Proof.
  apply (chunks_fit_max_lines_unless_full (λ _, None) 300 "x = 1"). lia.
Defined.

End ChunkerFacts.

(** ** agentic_upgrader.py: further properties *)

Module UpgraderFacts.
Import PyStr ReportGenerator Chunker AgenticUpgrader.

(** *** clean_llm_response *)

(** The string does not begin with white space. *)
Definition starts_clean (s : string) : Prop :=
  match s with
  | EmptyString => True
  | String c _ => is_space c = false
  end.

Lemma lstrip_starts_clean s : starts_clean (lstrip s).
Proof.
  induction s as [|c s IH]; simpl; [done|].
  destruct (is_space c) eqn:E; [done|]. simpl. done.
Qed.

Lemma lstrip_clean s : starts_clean s → lstrip s = s.
Proof. destruct s as [|c s]; simpl; [done|]. by intros ->. Qed.

Lemma rstrip_starts_clean s : starts_clean s → starts_clean (rstrip s).
Proof.
  destruct s as [|c s]; simpl; [done|]. intros Hc.
  destruct (rstrip s); simpl; [by rewrite Hc|done].
Qed.

Lemma rstrip_idemp s : rstrip (rstrip s) = rstrip s.
Proof.
  induction s as [|c s IH]; simpl; [done|].
  destruct (rstrip s) as [|c' r] eqn:E.
  - destruct (is_space c) eqn:Ec; simpl; [done|]. by rewrite Ec.
  - simpl in *. by rewrite IH.
Qed.

Lemma strip_idemp s : strip (strip s) = strip s.
Proof.
  unfold strip. rewrite (lstrip_clean (rstrip (lstrip s))).
  - apply rstrip_idemp.
  - apply rstrip_starts_clean, lstrip_starts_clean.
Qed.

Lemma split_at_None needle s : contains needle s = false → split_at needle s = None.
Proof.
  induction s as [|c s IH]; simpl.
  - intros H. apply orb_false_elim in H as [-> _]. done.
  - intros H. apply orb_false_elim in H as [-> H]. by rewrite IH.
Qed.

Lemma prefix_cons x a y s :
  String.prefix (String x a) (String y s)
    = if Ascii.ascii_dec x y then String.prefix a s else false.
Proof. reflexivity. Qed.

Lemma prefix_app (a b s : string) :
  String.prefix (a +:+ b) s = true → String.prefix a s = true.
Proof.
  revert s. induction a as [|x a IH]; intros s; [by destruct s|].
  rewrite append_cons. destruct s as [|y s]; [done|].
  rewrite !prefix_cons. destruct (Ascii.ascii_dec x y); [apply IH|done].
Qed.

Lemma startswith_fence s :
  startswith "```python" s = true → startswith "```" s = true.
Proof. apply (prefix_app "```" "python"). Qed.

Lemma contains_fence s :
  contains "```" s = false → contains "```python" s = false.
Proof.
  induction s as [|c s IH].
  - done.
  - intros H.
    change (contains "```" (String c s))
      with (startswith "```" (String c s) || contains "```" s) in H.
    apply orb_false_elim in H as [H1 H2].
    change (contains "```python" (String c s))
      with (startswith "```python" (String c s) || contains "```python" s).
    rewrite IH by done. rewrite orb_false_r.
    destruct (startswith "```python" (String c s)) eqn:E; [|done].
    apply startswith_fence in E. congruence.
Qed.

(** X13: the text [clean_llm_response] returns has no white space at
    either end, so stripping it again changes nothing; of a response
    without a code fence only the white space at the ends is removed. *)
Theorem clean_response_is_stripped (response : string) :
  strip (clean_llm_response response) = clean_llm_response response ∧
  (contains "```" response = false →
   clean_llm_response response = strip response).
Proof.
  split.
  - unfold clean_llm_response, fenced.
    repeat (match goal with
            | |- context [match split_at ?n ?s with _ => _ end] =>
                destruct (split_at n s) as [[? ?]|]
            end); apply strip_idemp.
  - intros Hno. unfold clean_llm_response, fenced.
    rewrite (split_at_None "```python") by (by apply contains_fence).
    by rewrite (split_at_None "```").
Qed.

Section upgrader_facts.
Variable call_llm : list string → string → string + string.
Variable build_prompt : string → option string → string.
Variable validate_code : gmap string string → string → bool * option string.
Variable validate_syntax : string → bool * option string.
Variable extract_api_changes : string → string → list string.
Variable generate_diff : string → string → string → string.
Variable basename : string → string.
Variable ast_parse : string → option module_ast.

(** *** _upgrade_standard *)

(** What a result of [_upgrade_standard] says about the world it
    leaves: a success only with a validated output file and a diff, a
    failure always with an error message. *)
Definition result_ok (output_path : string) (result : FileUpgradeResult)
    (w : world) : Prop :=
  (success result = true →
     (validate_code (fs w) output_path).1 = true ∧
     (∃ new_code, fs w !! output_path = Some new_code ∧ strip new_code ≠ ""%string) ∧
     error result = None ∧ is_Some (diff result)) ∧
  (success result = false →
     is_Some (error result) ∧ diff result = None ∧ api_changes result = []).

(** The prompts sent and the files touched between two worlds. *)
Definition calls_between (w w' : world) (n : nat) : Prop :=
  length (llm_log w') = length (llm_log w) + n.

Definition only_writes (output_path : string) (w w' : world) : Prop :=
  ∀ p, p ≠ output_path → fs w' !! p = fs w !! p.

Lemma standard_attempt_spec input_path output_path old_code attempt
    current_code error w :
  let '(outcome, w') :=
    standard_attempt call_llm build_prompt validate_code extract_api_changes
      generate_diff basename input_path output_path old_code attempt
      current_code error w in
  calls_between w w' 1 ∧ only_writes output_path w w' ∧
  match outcome with
  | Return result => attempts result = attempt ∧ result_ok output_path result w'
  | Continue _ _ => True
  end.
Proof.
  unfold standard_attempt, llm, calls_between, only_writes.
  assert (∀ content p, p ≠ output_path →
    <[output_path := content]> (fs w) !! p = fs w !! p) as Hother
    by (intros content p Hp; rewrite lookup_insert_ne; [done|by intros ->]).
  destruct (call_llm (llm_log w) (build_prompt current_code error))
    as [response|e]; simpl.
  - case_decide as Hempty.
    { simpl. rewrite length_app. done. }
    destruct (_ || _).
    { simpl. rewrite length_app. done. }
    destruct (validate_code _ _) as [is_valid verr] eqn:Hval.
    destruct is_valid; simpl; rewrite length_app; simpl.
    + split; [done|]. split; [apply Hother|]. split; [done|].
      unfold result_ok. simpl. split; [|done]. intros _.
      rewrite Hval. split; [done|]. split; [|by eauto].
      eexists. by rewrite lookup_insert_eq.
    + split; [done|]. split; [apply Hother|done].
  - destruct (is_token_error e); simpl; rewrite length_app; simpl.
    + split; [done|]. split; [done|]. split; [done|].
      unfold result_ok. simpl. split; [done|]. intros _. eauto.
    + done.
Qed.

Lemma standard_loop_spec input_path output_path old_code MAX_RETRIES n :
  ∀ k current_code error w,
    k + n = MAX_RETRIES + 1 → 1 ≤ k →
    let '(result, w') :=
      standard_loop call_llm build_prompt validate_code extract_api_changes
        generate_diff basename input_path output_path old_code MAX_RETRIES
        (seq k n) current_code error w in
    calls_between w w' (attempts result + 1 - k) ∧
    k - 1 ≤ attempts result ≤ MAX_RETRIES ∧
    (success result = true → k ≤ attempts result) ∧
    only_writes output_path w w' ∧ result_ok output_path result w'.
Proof.
  induction n as [|n IH]; intros k current_code error w Hk Hk1.
  { simpl. unfold calls_between, only_writes, result_ok. simpl.
    split_and!; try done; try lia. }
  simpl.
  pose proof (standard_attempt_spec input_path output_path old_code k
                current_code error w) as Hstep.
  destruct (standard_attempt _ _ _ _ _ _ _ _ _ _ _ _ _) as [[result|cur' err'] w1].
  - destruct Hstep as (Hcalls & Hwrites & <- & Hok).
    unfold calls_between in *. split_and!; try done; try lia.
  - destruct Hstep as (Hcalls & Hwrites & _).
    specialize (IH (S k) cur' err' w1).
    destruct (standard_loop _ _ _ _ _ _ _ _ _ _ _ _ _ _) as [result w2].
    destruct IH as (Hcalls' & Hatt & Hsucc & Hwrites' & Hok); [lia..|].
    unfold calls_between, only_writes in *.
    split; [lia|]. split; [lia|]. split; [intros Hs; specialize (Hsucc Hs); lia|].
    split; [|done]. intros p Hp. by rewrite Hwrites', Hwrites.
Qed.

(** X14: for a retry budget [MAX_RETRIES] that is not negative,
    [_upgrade_standard] sends the model exactly as many prompts as the
    attempts its result reports, never more than [MAX_RETRIES], and at
    least one when it reports success; it writes no file other than
    the output path. *)
Theorem standard_upgrade_counts_its_model_calls
    (input_path output_path old_code : string) (MAX_RETRIES : Z) (w : world) :
  (0 ≤ MAX_RETRIES)%Z →
  let '(result, w') :=
    _upgrade_standard call_llm build_prompt validate_code extract_api_changes
      generate_diff basename input_path output_path old_code
      (Z.to_nat MAX_RETRIES) w in
  length (llm_log w') = length (llm_log w) + attempts result ∧
  (Z.of_nat (attempts result) ≤ MAX_RETRIES)%Z ∧
  (success result = true → 1 ≤ attempts result) ∧
  ∀ p, p ≠ output_path → fs w' !! p = fs w !! p.
Proof.
  intros Hbudget. unfold _upgrade_standard, attempts_from.
  pose proof (standard_loop_spec input_path output_path old_code
                (Z.to_nat MAX_RETRIES) (Z.to_nat MAX_RETRIES + 1 - 1) 1
                old_code None w) as Hloop.
  destruct (standard_loop _ _ _ _ _ _ _ _ _ _ _ _ _ _) as [result w'].
  destruct Hloop as (Hcalls & Hatt & Hsucc & Hwrites & _); [lia..|].
  unfold calls_between in Hcalls. split_and!; [lia|lia|done|done].
Qed.

(** X15: [_upgrade_standard] reports success only when the file at the
    output path holds a candidate that is not blank and that
    [validate_code] accepted, and then the result has a diff and no
    error; every failure result carries an error message, no diff and
    no API changes. *)
Theorem standard_upgrade_succeeds_only_when_validated
    (input_path output_path old_code : string) (MAX_RETRIES : nat) (w : world) :
  let '(result, w') :=
    _upgrade_standard call_llm build_prompt validate_code extract_api_changes
      generate_diff basename input_path output_path old_code MAX_RETRIES w in
  (success result = true →
     (validate_code (fs w') output_path).1 = true ∧
     (∃ new_code, fs w' !! output_path = Some new_code ∧
        strip new_code ≠ ""%string) ∧
     error result = None ∧ is_Some (diff result)) ∧
  (success result = false →
     is_Some (error result) ∧ diff result = None ∧ api_changes result = []).
Proof.
  unfold _upgrade_standard, attempts_from.
  pose proof (standard_loop_spec input_path output_path old_code MAX_RETRIES
                (MAX_RETRIES + 1 - 1) 1 old_code None w) as Hloop.
  destruct (standard_loop _ _ _ _ _ _ _ _ _ _ _ _ _ _) as [result w'].
  by destruct Hloop as (_ & _ & _ & _ & Hok); [lia..|].
Qed.

(** *** _upgrade_chunked *)

(** The piece made from a response to a chunk: the cleaned response,
    from which the chunk's import block, when it has one, is taken out
    before the rest is stripped. *)
Definition piece_of_response (chunk : Chunk) (response : string) : string :=
  let upgraded := clean_llm_response response in
  if decide (imports chunk = ""%string) then upgraded
  else strip (replace (imports chunk) "" upgraded).

(** Between [w] and [w'] the model was sent a prompt built from the
    chunk's text and gave a response that, once cleaned, is not blank,
    is no apology and passes [validate_syntax]; [piece] and [changes]
    are made from this response. *)
Definition accepted (chunk : Chunk) (w w' : world) (piece : string)
    (changes : list string) : Prop :=
  ∃ log error response,
    llm_log w `prefix_of` log ∧
    (log ++ [build_prompt (chunk_code_of chunk) error]) `prefix_of` llm_log w' ∧
    call_llm log (build_prompt (chunk_code_of chunk) error) = inl response ∧
    strip (clean_llm_response response) ≠ ""%string ∧
    startswith_any apology_prefixes
      (lower (strip (clean_llm_response response))) = false ∧
    (validate_syntax (clean_llm_response response)).1 = true ∧
    piece = piece_of_response chunk response ∧
    changes = extract_api_changes (code chunk) (clean_llm_response response).

(** What an outcome says about the run it comes from. *)
Definition outcome_ok (MAX_RETRIES : nat) (w w' : world) (chunk : Chunk)
    (outcome : option (string * list string * nat)) : Prop :=
  match outcome with
  | Some (piece, changes, attempt) =>
      1 ≤ attempt ≤ MAX_RETRIES ∧ accepted chunk w w' piece changes
  | None => True
  end.

Lemma accepted_mono chunk w0 w w' w1 piece changes :
  llm_log w0 `prefix_of` llm_log w → llm_log w' `prefix_of` llm_log w1 →
  accepted chunk w w' piece changes → accepted chunk w0 w1 piece changes.
Proof.
  intros Hpre Hpost (log & error & response & Hlog & Hsent & Hrest).
  exists log, error, response. split; [by etrans|]. split; [by etrans|done].
Qed.

Lemma chunk_attempt_trace chunk error w :
  let '(outcome, w') :=
    chunk_attempt call_llm build_prompt validate_syntax extract_api_changes
      chunk (chunk_code_of chunk) error w in
  llm_log w' = llm_log w ++ [build_prompt (chunk_code_of chunk) error] ∧
  fs w' = fs w ∧
  match outcome with
  | Upgraded piece changes => accepted chunk w w' piece changes
  | Retry _ => True
  end.
Proof.
  unfold chunk_attempt, llm.
  destruct (call_llm (llm_log w) (build_prompt (chunk_code_of chunk) error))
    as [response|e] eqn:Hcall; [|done].
  cbv beta iota zeta.
  case_decide as Hempty; [done|].
  destruct (startswith_any apology_prefixes
              (lower (strip (clean_llm_response response)))) eqn:Hsorry;
    [done|].
  destruct (validate_syntax (clean_llm_response response))
    as [is_valid verr] eqn:Hval.
  destruct is_valid; [|done].
  split; [done|]. split; [done|].
  exists (llm_log w), error, response. cbn [llm_log].
  split; [done|]. split; [done|]. split; [done|]. split; [done|].
  split; [done|]. split; [by rewrite Hval|]. done.
Qed.

Lemma chunk_attempts_trace chunk n :
  ∀ k error w,
    let '(found, w') :=
      chunk_attempts call_llm build_prompt validate_syntax extract_api_changes
        (seq k n) chunk (chunk_code_of chunk) error w in
    fs w' = fs w ∧ llm_log w `prefix_of` llm_log w' ∧
    match found with
    | Some (piece, changes, attempt) =>
        k ≤ attempt < k + n ∧
        length (llm_log w') = length (llm_log w) + (attempt + 1 - k) ∧
        accepted chunk w w' piece changes
    | None => length (llm_log w') = length (llm_log w) + n
    end.
Proof.
  induction n as [|n IH]; intros k error w; simpl.
  { split; [done|]. split; [done|lia]. }
  pose proof (chunk_attempt_trace chunk error w) as Hstep.
  destruct (chunk_attempt _ _ _ _ _ _ _ _) as [[piece changes|err'] w1].
  - destruct Hstep as (Hlog & Hfs & Hok).
    split; [done|]. split; [rewrite Hlog; by apply prefix_app_r|].
    split; [lia|]. split; [|done]. rewrite Hlog, length_app. simpl. lia.
  - destruct Hstep as (Hlog & Hfs & _). specialize (IH (S k) err' w1).
    destruct (chunk_attempts _ _ _ _ _ _ _ _ _) as [[[[piece changes] a]|] w2].
    + destruct IH as (Hfs' & Hpre & Ha & Hlen & Hok).
      assert (llm_log w `prefix_of` llm_log w1) as Hpre1
        by (rewrite Hlog; by apply prefix_app_r).
      split; [congruence|]. split; [by etrans|]. split; [lia|].
      split; [rewrite Hlen, Hlog, length_app; simpl; lia|].
      by apply (accepted_mono chunk w w1 w2 w2).
    + destruct IH as (Hfs' & Hpre & Hlen).
      split; [congruence|]. split.
      { etrans; [|done]. rewrite Hlog. by apply prefix_app_r. }
      rewrite Hlen, Hlog, length_app. simpl. lia.
Qed.

Lemma attempts_on_trace MAX_RETRIES chunks :
  ∀ w,
    let '(outcomes, w') :=
      attempts_on call_llm build_prompt validate_syntax extract_api_changes
        MAX_RETRIES chunks w in
    fs w' = fs w ∧ llm_log w `prefix_of` llm_log w' ∧
    length (llm_log w')
      = length (llm_log w) + sum_list (attempts_of MAX_RETRIES <$> outcomes) ∧
    sum_list (attempts_of MAX_RETRIES <$> outcomes)
      ≤ MAX_RETRIES * length chunks ∧
    Forall2 (outcome_ok MAX_RETRIES w w') chunks outcomes.
Proof.
  induction chunks as [|chunk chunks IH]; intros w.
  { simpl. split; [done|]. split; [done|]. split; [lia|]. split; [lia|].
    constructor. }
  change (attempts_on call_llm build_prompt validate_syntax
            extract_api_changes MAX_RETRIES (chunk :: chunks) w)
    with (let '(outcome, w1) :=
            chunk_attempts call_llm build_prompt validate_syntax
              extract_api_changes (attempts_from MAX_RETRIES 1) chunk
              (chunk_code_of chunk) None w in
          let '(outcomes, w2) :=
            attempts_on call_llm build_prompt validate_syntax
              extract_api_changes MAX_RETRIES chunks w1 in
          (outcome :: outcomes, w2)).
  pose proof (chunk_attempts_trace chunk (MAX_RETRIES + 1 - 1) 1 None w)
    as Hone.
  unfold attempts_from.
  destruct (chunk_attempts _ _ _ _ _ _ _ _ _) as [outcome w1].
  specialize (IH w1).
  destruct (attempts_on _ _ _ _ _ chunks w1) as [outcomes w2].
  destruct IH as (Hfs2 & Hpre2 & Hlen2 & Hsum & Hall).
  destruct Hone as (Hfs1 & Hpre1 & Hone).
  assert (length (llm_log w1)
          = length (llm_log w) + attempts_of MAX_RETRIES outcome ∧
          attempts_of MAX_RETRIES outcome ≤ MAX_RETRIES ∧
          outcome_ok MAX_RETRIES w w2 chunk outcome) as (Hlen1 & Hle & Hok).
  { destruct outcome as [[[piece changes] attempt]|]; simpl;
      cbv beta iota in Hone.
    - destruct Hone as (Ha & Hlen & Hacc).
      split; [lia|]. split; [lia|]. split; [lia|].
      by apply (accepted_mono chunk w w w1 w2).
    - split; [lia|]. done. }
  split; [congruence|]. split; [by etrans|].
  assert (sum_list (attempts_of MAX_RETRIES <$> outcome :: outcomes)
          = attempts_of MAX_RETRIES outcome
            + sum_list (attempts_of MAX_RETRIES <$> outcomes)) as -> by done.
  cbn [length]. split; [lia|]. split; [nia|].
  constructor; [done|].
  eapply Forall2_impl; [exact Hall|].
  intros c [[[piece changes] attempt]|]; [|done]. simpl.
  intros [? Hacc]. split; [done|].
  by apply (accepted_mono c w w1 w2 w2).
Qed.

(** X16: for a retry budget [MAX_RETRIES] that is not negative, a
    chunked upgrade returns a result.  Each chunk on which an attempt
    succeeded is represented by the piece made from a response the
    model gave, in this run, to a prompt built from that chunk's text:
    the cleaned response, which is not blank, no apology and accepted
    by [validate_syntax], with the chunk's import block taken out;
    each other chunk is represented by its own code.  The output path
    is written with the import block of the first chunk and these
    pieces, joined by blank lines, and no other file is touched.  The
    attempts reported are the prompts sent: for each chunk the number
    of the attempt that succeeded, or [MAX_RETRIES] when none did. *)
Theorem chunked_upgrade_keeps_or_validates_every_piece (MAX_RETRIES : Z)
    (input_path output_path old_code : string) (w : world) :
  (0 ≤ MAX_RETRIES)%Z →
  ∃ first_chunk rest outcomes result w',
    let chunks := first_chunk :: rest in
    chunk_by_functions ast_parse 300 old_code = Ok chunks ∧
    _upgrade_chunked call_llm build_prompt validate_code validate_syntax
      extract_api_changes generate_diff basename ast_parse
      (Z.to_nat MAX_RETRIES) input_path output_path old_code w
      = Ok (result, w') ∧
    (attempts_on call_llm build_prompt validate_syntax extract_api_changes
       (Z.to_nat MAX_RETRIES) chunks w).1 = outcomes ∧
    Forall2
      (λ chunk outcome,
         match outcome with
         | Some (piece, changes, attempt) =>
             (1 ≤ Z.of_nat attempt ≤ MAX_RETRIES)%Z ∧
             accepted chunk w w' piece changes
         | None => True
         end) chunks outcomes ∧
    fs w' = <[output_path :=
                join (String nl (String nl ""))
                  ((if decide (imports first_chunk = ""%string) then []
                    else [imports first_chunk])
                   ++ zip_with kept_piece chunks outcomes)]> (fs w) ∧
    length (llm_log w') = length (llm_log w) + attempts result ∧
    attempts result
      = sum_list (attempts_of (Z.to_nat MAX_RETRIES) <$> outcomes) ∧
    api_changes result = concat (changes_of <$> outcomes) ∧
    (Z.of_nat (attempts result)
       ≤ MAX_RETRIES * Z.of_nat (length chunks))%Z.
Proof.
  intros Hbudget.
  destruct (chunk_by_functions_nonempty ast_parse 300 old_code)
    as (first_chunk & rest & Hchunks); [lia|].
  pose proof (attempts_on_trace (Z.to_nat MAX_RETRIES) (first_chunk :: rest) w)
    as Htrace.
  destruct (attempts_on call_llm build_prompt validate_syntax
              extract_api_changes (Z.to_nat MAX_RETRIES) (first_chunk :: rest) w)
    as [outcomes w1] eqn:Hon.
  destruct Htrace as (Hfs & Hpre & Hlen & Hsum & Hall).
  destruct (validate_code
              (<[output_path := reassembled first_chunk (first_chunk :: rest)
                                  outcomes]> (fs w1))
              output_path) as [is_valid final_error] eqn:Hval.
  pose proof (upgrade_chunked_unfold call_llm build_prompt validate_code
                validate_syntax extract_api_changes generate_diff basename
                ast_parse (Z.to_nat MAX_RETRIES) input_path output_path
                old_code w first_chunk rest outcomes w1 is_valid final_error
                Hchunks Hon Hval) as Hrun.
  eexists first_chunk, rest, outcomes, _, _. cbv zeta.
  split; [done|]. split; [exact Hrun|]. split; [by rewrite Hon|].
  cbn [fs llm_log attempts api_changes].
  split_and!.
  - eapply Forall2_impl; [exact Hall|].
    intros c [[[piece changes] attempt]|]; [|done]. simpl.
    intros [? Hacc]. split; [lia|].
    apply (accepted_mono c w w w1 _); [done| |done]. done.
  - unfold reassembled. by rewrite Hfs.
  - done.
  - done.
  - done.
  - simpl length in *. nia.
Qed.

(** *** upgrade_file *)

Lemma upgrade_standard_spec input_path output_path old_code MAX_RETRIES w
    result w' :
  _upgrade_standard call_llm build_prompt validate_code extract_api_changes
    generate_diff basename input_path output_path old_code MAX_RETRIES w
    = (result, w') →
  calls_between w w' (attempts result) ∧ attempts result ≤ MAX_RETRIES ∧
  only_writes output_path w w' ∧ result_ok output_path result w'.
Proof.
  unfold _upgrade_standard, attempts_from.
  pose proof (standard_loop_spec input_path output_path old_code MAX_RETRIES
                (MAX_RETRIES + 1 - 1) 1 old_code None w) as Hloop.
  intros Heq. rewrite Heq in Hloop.
  destruct Hloop as (Hcalls & Hatt & Hsucc & Hwrites & Hok); [lia..|].
  unfold calls_between in *. split_and!; [lia|lia|done|done].
Qed.

Lemma upgrade_chunked_spec MAX_RETRIES input_path output_path old_code w :
  ∃ result w' code',
    _upgrade_chunked call_llm build_prompt validate_code validate_syntax
      extract_api_changes generate_diff basename ast_parse MAX_RETRIES
      input_path output_path old_code w = Ok (result, w') ∧
    fs w' = <[output_path := code']> (fs w) ∧
    calls_between w w' (attempts result) ∧
    (success result = true → (validate_code (fs w') output_path).1 = true).
Proof.
  destruct (chunk_by_functions_nonempty ast_parse 300 old_code)
    as (first_chunk & rest & Hchunks); [lia|].
  pose proof (attempts_on_trace MAX_RETRIES (first_chunk :: rest) w) as Htrace.
  destruct (attempts_on call_llm build_prompt validate_syntax
              extract_api_changes MAX_RETRIES (first_chunk :: rest) w)
    as [outcomes w1] eqn:Hon.
  destruct Htrace as (Hfs & _ & Hlen & _ & _).
  destruct (validate_code
              (<[output_path := reassembled first_chunk (first_chunk :: rest)
                                  outcomes]> (fs w1))
              output_path) as [is_valid final_error] eqn:Hval.
  pose proof (upgrade_chunked_unfold call_llm build_prompt validate_code
                validate_syntax extract_api_changes generate_diff basename
                ast_parse MAX_RETRIES input_path output_path old_code w
                first_chunk rest outcomes w1 is_valid final_error
                Hchunks Hon Hval) as Hrun.
  eexists _, _, (reassembled first_chunk (first_chunk :: rest) outcomes).
  split; [exact Hrun|]. unfold calls_between.
  cbn [fs llm_log attempts success].
  split; [by rewrite Hfs|]. split; [done|].
  rewrite Hval. simpl. by intros [-> _]%andb_prop.
Qed.

Variable should_skip_for_upgrade : gmap string string → string → option string.

(** The result [upgrade_file] gives before it reads the input. *)
Definition refused (input_path : string) (result : FileUpgradeResult) : Prop :=
  ∃ reason, result = mkResult input_path false 0 [] (Some reason) None.

Local Ltac close_case Hs :=
  split; [done|]; split; [done|]; split;
    [intros Hsucc; split; [by eexists|by apply Hs]
    |intros [?|(? & ? & ?)]; done].

Lemma upgrade_file_spec MAX_RETRIES MAX_RETRIES_CHUNK input_path output_path w :
  ∃ result w',
    upgrade_file call_llm build_prompt validate_code validate_syntax
      extract_api_changes generate_diff basename should_skip_for_upgrade
      ast_parse MAX_RETRIES MAX_RETRIES_CHUNK input_path output_path w
      = Ok (result, w') ∧
    only_writes output_path w w' ∧
    length (llm_log w) + attempts result ≤ length (llm_log w') ∧
    (success result = true →
       is_Some (fs w !! input_path) ∧ is_Some (fs w' !! output_path) ∧
       (validate_code (fs w') output_path).1 = true) ∧
    (fs w !! input_path = None ∨
     (∃ c r, should_skip_for_upgrade (fs w) input_path = Some (String c r)) →
     w' = w ∧ refused input_path result).
Proof.
  unfold upgrade_file, refused.
  assert (∀ result w',
    _upgrade_standard call_llm build_prompt validate_code extract_api_changes
      generate_diff basename input_path output_path
      (default ""%string (fs w !! input_path)) MAX_RETRIES w = (result, w') →
    only_writes output_path w w' ∧
    length (llm_log w) + attempts result ≤ length (llm_log w') ∧
    (success result = true →
       is_Some (fs w' !! output_path) ∧
       (validate_code (fs w') output_path).1 = true)) as Hstd.
  { intros result w' Heq.
    apply upgrade_standard_spec in Heq as (Hcalls & _ & Hwrites & Hok & _).
    unfold calls_between in Hcalls. split; [done|]. split; [lia|].
    intros Hs. destruct (Hok Hs) as (Hval & (new_code & Hnew & _) & _).
    by rewrite Hnew. }
  assert (∀ w0, only_writes output_path w w0 →
    length (llm_log w) ≤ length (llm_log w0) →
    ∃ result w',
      _upgrade_chunked call_llm build_prompt validate_code validate_syntax
        extract_api_changes generate_diff basename ast_parse MAX_RETRIES_CHUNK
        input_path output_path (default ""%string (fs w !! input_path)) w0
        = Ok (result, w') ∧
      only_writes output_path w w' ∧
      length (llm_log w) + attempts result ≤ length (llm_log w') ∧
      (success result = true →
         is_Some (fs w' !! output_path) ∧
         (validate_code (fs w') output_path).1 = true)) as Hchunked.
  { intros w0 Hw0 Hlog.
    destruct (upgrade_chunked_spec MAX_RETRIES_CHUNK input_path output_path
                (default ""%string (fs w !! input_path)) w0)
      as (result & w' & code' & Heq & Hfs & Hcalls & Hval).
    exists result, w'. unfold calls_between in Hcalls.
    split; [done|]. split.
    { intros p Hp. rewrite Hfs, lookup_insert_ne by done. by apply Hw0. }
    split; [lia|]. intros Hs. split; [|by apply Hval].
    by rewrite Hfs, lookup_insert_eq. }
  destruct (fs w !! input_path) as [old_code|] eqn:Hin; simpl in *.
  2: { eexists _, w. split; [done|]. split; [done|]. simpl.
       split; [lia|]. split; [done|]. intros _. split; [done|]. by eexists. }
  destruct (should_skip_for_upgrade (fs w) input_path) as [[|c r]|] eqn:Hskip.
  2: { eexists _, w. split; [done|]. split; [done|]. simpl.
       split; [lia|]. split; [done|]. intros _. split; [done|]. by eexists. }
  all: case_decide; [|case_decide].
  all: try (destruct (_upgrade_standard call_llm build_prompt validate_code
                        extract_api_changes generate_diff basename input_path
                        output_path old_code MAX_RETRIES w)
              as [result w1] eqn:Hrun;
            destruct (Hstd _ _ eq_refl) as (Hwrites & Hlog & Hs)).
  all: cbv beta iota zeta.
  all: try match goal with
           | |- context [escalates ?r] => destruct (escalates r) eqn:Hesc
           end.
  - exists result, w1. split; [done|]. by close_case Hs.
  - destruct (Hchunked w1 Hwrites ltac:(lia))
      as (result' & w' & -> & Hwrites' & Hlog' & Hs').
    exists result', w'. split; [done|]. by close_case Hs'.
  - exists result, w1. split; [done|]. by close_case Hs.
  - destruct (Hchunked w (λ _ _, eq_refl) (le_n _))
      as (result' & w' & -> & Hwrites' & Hlog' & Hs').
    exists result', w'. split; [done|]. by close_case Hs'.
  - exists result, w1. split; [done|]. by close_case Hs.
  - destruct (Hchunked w1 Hwrites ltac:(lia))
      as (result' & w' & -> & Hwrites' & Hlog' & Hs').
    exists result', w'. split; [done|]. by close_case Hs'.
  - exists result, w1. split; [done|]. by close_case Hs.
  - destruct (Hchunked w (λ _ _, eq_refl) (le_n _))
      as (result' & w' & -> & Hwrites' & Hlog' & Hs').
    exists result', w'. split; [done|]. by close_case Hs'.
Qed.

(** X17: [upgrade_file] always returns a result.  It writes no file
    other than the output path, and the attempts it reports never
    exceed the prompts it sent.  It reports success only for an input
    file that exists and after [validate_code] has accepted the output
    file it leaves; for a missing input file or a file with a skip
    reason it changes nothing, sends no prompt and reports a failure
    with zero attempts. *)
Theorem upgrade_file_writes_only_the_output (MAX_RETRIES MAX_RETRIES_CHUNK : nat)
    (input_path output_path : string) (w : world) :
  ∃ result w',
    upgrade_file call_llm build_prompt validate_code validate_syntax
      extract_api_changes generate_diff basename should_skip_for_upgrade
      ast_parse MAX_RETRIES MAX_RETRIES_CHUNK input_path output_path w
      = Ok (result, w') ∧
    (∀ p, p ≠ output_path → fs w' !! p = fs w !! p) ∧
    length (llm_log w) + attempts result ≤ length (llm_log w') ∧
    (success result = true →
       is_Some (fs w !! input_path) ∧ is_Some (fs w' !! output_path) ∧
       (validate_code (fs w') output_path).1 = true) ∧
    (fs w !! input_path = None ∨
     (∃ c r, should_skip_for_upgrade (fs w) input_path = Some (String c r)) →
     w' = w ∧ success result = false ∧ attempts result = 0 ∧
     is_Some (error result)).
Proof.
  destruct (upgrade_file_spec MAX_RETRIES MAX_RETRIES_CHUNK input_path
              output_path w) as (result & w' & Heq & Hw & Hlog & Hs & Hno).
  exists result, w'. split; [done|]. split; [done|]. split; [done|].
  split; [done|]. intros Hcase.
  destruct (Hno Hcase) as (-> & reason & ->). simpl. eauto.
Qed.

End upgrader_facts.

(** *** The theorems on a concrete run *)

Lemma standard_upgrade_counts_its_model_calls_witness :
  (0 ≤ 5)%Z ∧
  let '(result, w') :=
    _upgrade_standard demo_llm demo_prompt demo_validate_code demo_changes
      demo_diff demo_basename "a.py" "out.py" "x = 1" (Z.to_nat 5)
      (mkWorld ∅ []) in
  length (llm_log w') = length (llm_log (mkWorld ∅ [])) + attempts result ∧
  (Z.of_nat (attempts result) ≤ 5)%Z ∧
  (success result = true → 1 ≤ attempts result) ∧
  ∀ p, p ≠ "out.py"%string → fs w' !! p = fs (mkWorld ∅ []) !! p.
Proof.
  split; [lia|].
  apply (standard_upgrade_counts_its_model_calls demo_llm demo_prompt
           demo_validate_code demo_changes demo_diff demo_basename
           "a.py" "out.py" "x = 1" 5%Z (mkWorld ∅ [])).
  lia.
Defined.

Lemma chunked_upgrade_keeps_or_validates_every_piece_witness :
  (0 ≤ 3)%Z ∧
  ∃ result w',
    _upgrade_chunked demo_llm demo_prompt demo_validate_code
      demo_validate_syntax demo_changes demo_diff demo_basename demo_parse
      (Z.to_nat 3) "a.py" "out.py" "x = 1" (mkWorld ∅ []) = Ok (result, w') ∧
    length (llm_log w') = attempts result.
Proof.
  split; [lia|].
  destruct (chunked_upgrade_keeps_or_validates_every_piece demo_llm
              demo_prompt demo_validate_code demo_validate_syntax demo_changes
              demo_diff demo_basename demo_parse 3%Z "a.py" "out.py" "x = 1"
              (mkWorld ∅ []))
    as (first_chunk & rest & outcomes & result & w' & _ & Hrun & _ & _ & _
        & Hlen & _); [lia|].
  exists result, w'. split; [exact Hrun|exact Hlen].
Defined.

End UpgraderFacts.

(** ** cache_manager.py: further properties *)

Module CacheFacts.
Import PyStr CacheManager.

(** The dictionary [get_stats] returns. *)
Record stats : Type := mkStats {
  total_cached : nat;
  successful : nat;
  failed : nat
}.

(** [f.get("success")] is true. *)
Definition succeeded (e : entry) : Prop := success e = Some true.

#[global] Instance succeeded_dec e : Decision (succeeded e).
Proof. unfold succeeded. apply _. Defined.

(** [get_stats] *)
Definition get_stats (st : state) : stats :=
  let total := size (cache_data st) in
  let successful := size (filter (λ kv, succeeded kv.2) (cache_data st)) in
  mkStats total successful (total - successful).

Section cache_facts.
Variable repo_path : string.
Variable relpath : string → string.
Variable md5 : string → string.
Variable dumps : gmap string entry → string.
(** [json.load] on the text of the cache file: the records, or [None]
    when it raises. *)
Variable loads : string → option (gmap string entry).
Hypothesis relpath_relative : ∀ p, startswith "/" (relpath p) = false.

(** [get_cached_result] *)
Definition get_cached_result (st : state) (file_path : string) : option entry :=
  cache_data st !! relpath file_path.

(** [_load_cache]: the records of the cache file, or none when the
    file is missing or cannot be read as JSON. *)
Definition _load_cache (files : gmap string string) : gmap string entry :=
  match files !! cache_file repo_path with
  | Some text => default ∅ (loads text)
  | None => ∅
  end.

(** [CacheManager(repo_path)] on the file system [files]. *)
Definition init (files : gmap string string) : state :=
  mkState (_load_cache files) files.

(** The path lies in the cache directory. *)
Definition in_cache_dir (path : string) : bool :=
  startswith (cache_dir repo_path +:+ "/") path.

(** [clear_cache]: [shutil.rmtree(self.cache_dir)] removes every file
    of the cache directory. *)
Definition clear_cache (st : state) : state :=
  mkState ∅ (filter (λ kv, in_cache_dir kv.1 = false) (disk st)).

(** The record [cache_result] stores. *)
Definition recorded (st : state) (file_path : string)
    (result : ReportGenerator.FileUpgradeResult) (now : string) : entry :=
  mkEntry (Some (ReportGenerator.success result))
    (ReportGenerator.attempts result) now
    (Some (_get_file_hash md5 (disk st) file_path))
    (ReportGenerator.error result) (ReportGenerator.api_changes result) None.

Lemma cache_result_data st file_path result upgraded_code now :
  ∃ e, cache_data (CacheManager.cache_result repo_path relpath md5 dumps st
                     file_path result upgraded_code now)
         = <[relpath file_path := e]> (cache_data st) ∧
       success e = Some (ReportGenerator.success result) ∧
       (ReportGenerator.success result = false →
        e = recorded st file_path result now).
Proof.
  unfold CacheManager.cache_result, recorded.
  destruct upgraded_code as [[|c r]|]; simpl;
    [|destruct (ReportGenerator.success result) eqn:E; simpl|]; by eexists.
Qed.

Lemma cache_result_disk st file_path result upgraded_code now p :
  p ≠ CacheManager.cache_file repo_path →
  p ≠ CacheManager.code_cache_path repo_path (relpath file_path) →
  disk (CacheManager.cache_result repo_path relpath md5 dumps st file_path
          result upgraded_code now) !! p = disk st !! p.
Proof.
  intros Hp1 Hp2. unfold CacheManager.cache_result, _save_cache.
  destruct upgraded_code as [[|c r]|]; simpl;
    [|destruct (ReportGenerator.success result); simpl|];
    by rewrite ?lookup_insert_ne.
Qed.

(** X18: recording a failed result makes the file a miss, whatever was
    recorded for it before and whatever code is passed along: the
    record says [success = false], [is_file_cached] returns false and
    [restore_from_cache] returns false without writing anything. *)
Theorem failed_result_is_never_a_hit (st : state) (file_path output_path : string)
    (result : ReportGenerator.FileUpgradeResult)
    (upgraded_code : option string) (now : string) :
  ReportGenerator.success result = false →
  let st1 := CacheManager.cache_result repo_path relpath md5 dumps st
               file_path result upgraded_code now in
  get_cached_result st1 file_path = Some (recorded st file_path result now) ∧
  CacheManager.is_file_cached relpath md5 st1 file_path = false ∧
  CacheManager.restore_from_cache relpath st1 file_path output_path = (false, st1).
Proof.
  intros Hfail st1.
  destruct (cache_result_data st file_path result upgraded_code now)
    as (e & Hdata & Hsucc & He).
  specialize (He Hfail). subst e. fold st1 in Hdata.
  assert (cache_data st1 !! relpath file_path
          = Some (recorded st file_path result now)) as Hentry
    by (by rewrite Hdata, lookup_insert_eq).
  split_and!.
  - done.
  - unfold CacheManager.is_file_cached. rewrite Hentry. simpl.
    rewrite Hfail. simpl. by case_decide.
  - unfold CacheManager.restore_from_cache. by rewrite Hentry.
Qed.

(** X19: recording a result for one file changes nothing for a file
    with another relative path that is not one of the cache's own
    files: its record and the answer of [is_file_cached] stay the same,
    and on disk only the cache file and the file's cached copy are
    written. *)
Theorem cache_result_leaves_other_files_alone (st : state)
    (file_path other : string) (result : ReportGenerator.FileUpgradeResult)
    (upgraded_code : option string) (now : string) :
  let st1 := CacheManager.cache_result repo_path relpath md5 dumps st
               file_path result upgraded_code now in
  (∀ p, p ≠ CacheManager.cache_file repo_path →
     p ≠ CacheManager.code_cache_path repo_path (relpath file_path) →
     disk st1 !! p = disk st !! p) ∧
  (relpath other ≠ relpath file_path →
   get_cached_result st1 other = get_cached_result st other ∧
   (other ≠ CacheManager.cache_file repo_path →
    other ≠ CacheManager.code_cache_path repo_path (relpath file_path) →
    CacheManager.is_file_cached relpath md5 st1 other
      = CacheManager.is_file_cached relpath md5 st other)).
Proof.
  intros st1. split; [intros p; apply cache_result_disk|].
  intros Hrel.
  destruct (cache_result_data st file_path result upgraded_code now)
    as (e & Hdata & _). fold st1 in Hdata.
  assert (cache_data st1 !! relpath other = cache_data st !! relpath other)
    as Hentry by (rewrite Hdata; by rewrite lookup_insert_ne).
  split; [done|]. intros Hp1 Hp2.
  unfold CacheManager.is_file_cached, _get_file_hash. rewrite Hentry.
  unfold st1. by rewrite cache_result_disk.
Qed.

(** X20: every call of [cache_result] ends by saving the records, so a
    cache manager created afterwards on the same files starts with
    exactly these records, provided [json.load] reads back what
    [json.dump] wrote. *)
Theorem cache_result_is_persisted (st st1 : state) (file_path : string)
    (result : ReportGenerator.FileUpgradeResult)
    (upgraded_code : option string) (now : string) :
  st1 = CacheManager.cache_result repo_path relpath md5 dumps st file_path
          result upgraded_code now →
  loads (dumps (cache_data st1)) = Some (cache_data st1) →
  init (disk st1) = st1.
Proof.
  intros Hst1 Hjson. unfold init, _load_cache.
  assert (disk st1 !! CacheManager.cache_file repo_path
          = Some (dumps (cache_data st1))) as ->.
  { rewrite Hst1. unfold CacheManager.cache_result, _save_cache.
    destruct upgraded_code as [[|c r]|]; simpl;
      [|destruct (ReportGenerator.success result); simpl|];
      by rewrite lookup_insert_eq. }
  rewrite Hjson. clear Hst1 Hjson. destruct st1. reflexivity.
Qed.

Lemma prefix_app_same (a b : string) : String.prefix a (a +:+ b) = true.
Proof.
  induction a as [|x a IH]; [by destruct b|].
  rewrite append_cons. simpl. by destruct (Ascii.ascii_dec x x).
Qed.

Lemma cache_file_in_cache_dir :
  in_cache_dir (CacheManager.cache_file repo_path) = true.
Proof.
  unfold in_cache_dir, startswith. rewrite cache_file_eq.
  change "/upgrade_cache.json"%string with ("/" +:+ "upgrade_cache.json")%string.
  rewrite <-append_assoc. apply prefix_app_same.
Qed.

Lemma code_cache_path_in_cache_dir file_path :
  in_cache_dir (CacheManager.code_cache_path repo_path (relpath file_path)) = true.
Proof.
  unfold in_cache_dir, startswith.
  rewrite code_cache_path_eq by apply relpath_relative.
  change "/upgraded/"%string with ("/" +:+ "upgraded/")%string.
  rewrite (append_assoc "/" "upgraded/"), <-append_assoc.
  apply prefix_app_same.
Qed.

(** X21: after [clear_cache] no file is a hit and nothing can be
    restored, the statistics are all zero, the cache file and every
    cached copy are gone, and the files outside the cache directory are
    as they were. *)
Theorem clear_cache_forgets_everything (st : state) :
  let st1 := clear_cache st in
  get_stats st1 = mkStats 0 0 0 ∧
  (∀ file_path output_path,
     CacheManager.is_file_cached relpath md5 st1 file_path = false ∧
     CacheManager.restore_from_cache relpath st1 file_path output_path
       = (false, st1) ∧
     disk st1 !! CacheManager.code_cache_path repo_path (relpath file_path)
       = None) ∧
  disk st1 !! CacheManager.cache_file repo_path = None ∧
  (∀ p, in_cache_dir p = false → disk st1 !! p = disk st !! p).
Proof.
  intros st1. unfold st1, clear_cache. split_and!.
  - unfold get_stats. simpl. by rewrite map_filter_empty, map_size_empty.
  - intros file_path output_path.
    unfold CacheManager.is_file_cached, CacheManager.restore_from_cache.
    simpl. rewrite lookup_empty. split_and!; [done..|].
    apply map_lookup_filter_None. right. intros content _. simpl.
    by rewrite code_cache_path_in_cache_dir.
  - simpl. apply map_lookup_filter_None. right. intros content _. simpl.
    by rewrite cache_file_in_cache_dir.
  - intros p Hp. simpl. destruct (disk st !! p) as [content|] eqn:E.
    + by apply map_lookup_filter_Some.
    + apply map_lookup_filter_None. by left.
Qed.

(** X22: [get_stats] counts every record once, as successful or as
    failed; recording a result for a file without a record adds one to
    the total and one to the side the result's success flag names. *)
Theorem stats_count_each_record_once (st : state) (file_path : string)
    (result : ReportGenerator.FileUpgradeResult)
    (upgraded_code : option string) (now : string) :
  let s := get_stats st in
  let s1 := get_stats (CacheManager.cache_result repo_path relpath md5 dumps st
                         file_path result upgraded_code now) in
  successful s + failed s = total_cached s ∧
  (get_cached_result st file_path = None →
   total_cached s1 = total_cached s + 1 ∧
   successful s1
     = successful s + (if ReportGenerator.success result then 1 else 0) ∧
   failed s1 = failed s + (if ReportGenerator.success result then 0 else 1)).
Proof.
  intros s s1.
  assert (∀ m : gmap string entry,
    size (filter (λ kv, succeeded kv.2) m) ≤ size m) as Hle.
  { intros m. apply map_subseteq_size, map_filter_subseteq. }
  split.
  { unfold s, get_stats. simpl. specialize (Hle (cache_data st)). lia. }
  intros Hnew. unfold get_cached_result in Hnew.
  destruct (cache_result_data st file_path result upgraded_code now)
    as (e & Hdata & Hsucc & _).
  unfold s1, s, get_stats. rewrite Hdata. simpl.
  specialize (Hle (cache_data st)).
  rewrite map_size_insert_None by done.
  destruct (ReportGenerator.success result) eqn:E.
  - rewrite map_filter_insert_True by done.
    rewrite map_size_insert_None by (by rewrite map_lookup_filter_None; left).
    lia.
  - rewrite map_filter_insert_False by (unfold succeeded; simpl; congruence).
    rewrite delete_id by done. lia.
Qed.

End cache_facts.

(** *** The theorems on a concrete cache *)

Definition failed_result : ReportGenerator.FileUpgradeResult :=
  ReportGenerator.mkResult "a.py" false 5 [] (Some "SyntaxError") None.

(** The cache after the failure of ["a.py"] has been recorded. *)
Definition failed_state : state :=
  CacheManager.cache_result "/repo" demo_relpath demo_md5 demo_dumps demo_state
    "a.py" failed_result (Some "x = 2") "2025-01-01T00:00:00".

(** A reader for the one text [demo_dumps] writes. *)
Definition failed_loads (text : string) : option (gmap string entry) :=
  if decide (text = "{}") then Some (cache_data failed_state) else None.

Lemma failed_result_is_never_a_hit_witness :
  ReportGenerator.success failed_result = false ∧
  get_cached_result demo_relpath failed_state "a.py"
    = Some (recorded demo_md5 demo_state "a.py" failed_result
              "2025-01-01T00:00:00") ∧
  CacheManager.is_file_cached demo_relpath demo_md5 failed_state "a.py" = false ∧
  CacheManager.restore_from_cache demo_relpath failed_state "a.py" "out.py"
    = (false, failed_state).
Proof.
  split; [reflexivity|].
  exact (failed_result_is_never_a_hit "/repo" demo_relpath demo_md5 demo_dumps
           demo_state "a.py" "out.py" failed_result (Some "x = 2")
           "2025-01-01T00:00:00" eq_refl).
Defined.

Lemma cache_result_is_persisted_witness :
  failed_loads (demo_dumps (cache_data failed_state))
    = Some (cache_data failed_state) ∧
  init "/repo" failed_loads (disk failed_state) = failed_state.
Proof.
  split; [reflexivity|].
  exact (cache_result_is_persisted "/repo" demo_relpath demo_md5 demo_dumps
           failed_loads demo_state failed_state "a.py" failed_result
           (Some "x = 2") "2025-01-01T00:00:00" eq_refl eq_refl).
Defined.

Lemma clear_cache_forgets_everything_witness :
  get_stats (clear_cache "/repo" failed_state) = mkStats 0 0 0 ∧
  disk (clear_cache "/repo" failed_state) !! "a.py" = Some "x = 1".
Proof.
  destruct (clear_cache_forgets_everything "/repo" demo_relpath demo_md5
              demo_relpath_relative failed_state)
    as (Hstats & _ & _ & Hkeep).
  split; [exact Hstats|]. rewrite (Hkeep "a.py"); reflexivity.
Defined.

End CacheFacts.

(** ** repo_upgrader.py: how [upgrade_repo] calls the pipeline *)

Module RepoUpgrader.
Import PyStr ReportGenerator ParallelProcessor Chunker AgenticUpgrader.
Import UpgraderFacts.

(** The files and the model log, together with the records the cache
    manager holds in memory. *)
Record run_state : Type := mkRun {
  run_world : world;
  run_records : gmap string CacheManager.entry
}.

(** The cache manager's view of a run: its records and the files. *)
Definition cache_view (s : run_state) : CacheManager.state :=
  CacheManager.mkState (run_records s) (fs (run_world s)).

(** The run after the cache manager has acted on the files of [w]. *)
Definition after_cache (w : world) (st : CacheManager.state) : run_state :=
  mkRun (mkWorld (CacheManager.disk st) (llm_log w)) (CacheManager.cache_data st).

(** A [process_func] as [process_file_async] calls it: from the clock
    reading available during the call, the positional arguments and
    the state of the run, the result it returns or the message of the
    exception it raises, and the state it leaves. *)
Definition process_func : Type :=
  string → list string → run_state
  → (FileUpgradeResult + string) * run_state.

(** What the run decides for the task of a file, by level and index in
    the batch: whether [wait_if_needed] raises, and with which message;
    the state in which the call of [process_func], made in a worker
    thread, starts; and the clock reading during the call. *)
Record schedule : Type := mkSchedule {
  limiter_raises : nat → nat → string → option string;
  starts_in : nat → nat → string → run_state;
  clock_at : nat → nat → string → string
}.

(** The task [process_file_async(file_path, process_func, *args)]:
    past the rate limiter it calls [process_func(file_path, *args)]. *)
Definition task (func : process_func) (args : list string) (sched : schedule)
    (l i : nat) (file_path : string) : task_event :=
  match limiter_raises sched l i file_path with
  | Some msg => LimiterRaised msg
  | None =>
      match (func (clock_at sched l i file_path) (file_path :: args)
               (starts_in sched l i file_path)).1 with
      | inl result => FuncReturned result
      | inr msg => FuncRaised msg
      end
  end.

(** [run_parallel_upgrade(files, process_func, dependency_levels, ...,
    *args)]: level by level when [dependency_levels] is given and not
    empty, otherwise one batch of all files.  In both cases [*args] is
    handed on, through [process_by_levels] and [process_batch], to
    [process_file_async] and so to every call of [process_func]. *)
Definition run_parallel_upgrade (files : list string) (func : process_func)
    (dependency_levels : option (gmap string nat)) (args : list string)
    (sched : schedule) : gmap string FileUpgradeResult :=
  match dependency_levels with
  | Some levels =>
      if decide (levels = ∅)
      then (process_batch (task func args sched 0) files).1
      else process_by_levels (task func args sched) levels files
  | None => (process_batch (task func args sched 0) files).1
  end.

(** *** What holds for every entry of a result map *)

Lemma put_entries_Forall (P : string → FileUpgradeResult → Prop) frs d :
  map_Forall P d →
  Forall (λ fr, P fr.1 (batch_entry fr.1 fr.2)) frs →
  map_Forall P (foldl put_entry d frs).
Proof.
  revert d. induction frs as [|[f r] frs IH]; intros d Hd Hfrs; simpl; [done|].
  apply Forall_cons in Hfrs as [Hfr Hfrs]. apply IH; [|done].
  unfold put_entry. simpl. by apply map_Forall_insert_2.
Qed.

Lemma process_batch_Forall (P : string → FileUpgradeResult → Prop) events files :
  (∀ i f, f ∈ files → P f (batch_entry f (task_value f (events i f)))) →
  map_Forall P (process_batch events files).1.
Proof.
  intros HP. unfold process_batch.
  pose proof (gather_lookup events 0 files (mkProgress 0 (length files) 0))
    as Hlookup.
  destruct (gather events 0 files _) as [results p']. simpl in *.
  apply (put_entries_Forall P); [apply map_Forall_empty|].
  apply Forall_lookup. intros j [f r] Hj. simpl.
  apply lookup_zip_with_Some in Hj as (f' & r' & [= -> ->] & Hf & Hr).
  destruct (Hlookup j f' Hf) as [p Hp]. rewrite Hr in Hp.
  injection Hp as ->. rewrite process_file_async_value.
  apply HP. by eapply list_elem_of_lookup_2.
Qed.

Lemma process_by_levels_Forall (P : string → FileUpgradeResult → Prop)
    events dependency_levels files :
  (∀ l i f, f ∈ files → P f (batch_entry f (task_value f (events l i f)))) →
  map_Forall P (process_by_levels events dependency_levels files).
Proof.
  intros HP. unfold process_by_levels.
  set (grouped := group_by_level dependency_levels files).
  assert (∀ l f, f ∈ group_get l grouped → f ∈ files) as Hsub.
  { intros l f Hf. destruct (decide (l ∈ grouped.*1)) as [Hl|Hl].
    - apply (group_by_level_covers dependency_levels files f). by exists l.
    - rewrite (group_get_missing _ _ Hl) in Hf. by apply elem_of_nil in Hf. }
  generalize (merge_sort (≤) grouped.*1). intros ls.
  assert (map_Forall P (∅ : gmap string FileUpgradeResult)) as Hacc
    by apply map_Forall_empty.
  revert Hacc. generalize (∅ : gmap string FileUpgradeResult).
  induction ls as [|l ls IH]; intros acc Hacc; simpl; [done|].
  apply IH. intros f r [Hr|[_ Hr]]%lookup_union_Some_raw; [|by apply Hacc].
  revert f r Hr. apply process_batch_Forall. intros i f Hf.
  apply HP. by eapply Hsub.
Qed.

Section upgrade_repo.
Variable call_llm : list string → string → string + string.
Variable build_prompt : string → option string → string.
Variable validate_code : gmap string string → string → bool * option string.
Variable validate_syntax : string → bool * option string.
Variable extract_api_changes : string → string → list string.
Variable generate_diff : string → string → string → string.
Variable basename : string → string.
Variable should_skip_for_upgrade : gmap string string → string → option string.
Variable ast_parse : string → option module_ast.
Variable MAX_RETRIES MAX_RETRIES_CHUNK : nat.

Variable new_repo : string.
Variable relpath : string → string.
Variable md5 : string → string.
Variable dumps : gmap string CacheManager.entry → string.
Hypothesis relpath_relative : ∀ p, startswith "/" (relpath p) = false.

(** The text of the exceptions Python raises: for a call of
    [process_with_cache] with the wrong number of positional
    arguments, for an exception leaving [upgrade_file], and for
    [open] on a missing file. *)
Variable arity_message : list string → string.
Variable exception_message : pyexn → string.
Variable missing_file_message : string → string.

(** The body of [process_with_cache]; [now] is the clock reading
    [cache_result] takes.  [use_cache] tells whether [cache] is a
    cache manager or [None]. *)
Definition process_with_cache_body (use_cache : bool) (now : string)
    (file_path output_path : string) (s : run_state)
    : (FileUpgradeResult + string) * run_state :=
  match upgrade_file call_llm build_prompt validate_code validate_syntax
          extract_api_changes generate_diff basename should_skip_for_upgrade
          ast_parse MAX_RETRIES MAX_RETRIES_CHUNK file_path output_path
          (run_world s) with
  | Raise e => (inr (exception_message e), s)
  | Ok (result, w1) =>
      if use_cache then
        let st := CacheManager.mkState (run_records s) (fs w1) in
        if success result then
          match fs w1 !! file_path with
          | Some content =>
              let upgraded_code := CacheManager.read_text content in
              (inl result,
               after_cache w1
                 (CacheManager.cache_result new_repo relpath md5 dumps st
                    file_path result (Some upgraded_code) now))
          | None => (inr (missing_file_message file_path), mkRun w1 (run_records s))
          end
        else
          (inl result,
           after_cache w1
             (CacheManager.cache_result new_repo relpath md5 dumps st
                file_path result None now))
      else (inl result, mkRun w1 (run_records s))
  end.

(** [process_with_cache] called with the positional arguments [args]:
    the function has the two positional
    parameters [file_path] and [output_path]; a call with another
    number of arguments raises [TypeError] before the body runs. *)
Definition process_with_cache (use_cache : bool) (now : string)
    (args : list string) (s : run_state)
    : (FileUpgradeResult + string) * run_state :=
  match args with
  | [file_path; output_path] =>
      process_with_cache_body use_cache now file_path output_path s
  | _ => (inr (arity_message args), s)
  end.

(** The call in the parallel branch of [upgrade_repo]:
    [run_parallel_upgrade(files_to_process, process_with_cache,
    dependency_levels=..., max_workers=..., rate_limit_calls=...)].
    Everything after the first two arguments is passed by keyword, so
    [*args] is empty. *)
Definition parallel_branch_call (use_cache respect_dependencies : bool)
    (files_to_process : list string)
    (dependency_levels : option (gmap string nat)) (sched : schedule)
    : gmap string FileUpgradeResult :=
  run_parallel_upgrade files_to_process (process_with_cache use_cache)
    (if respect_dependencies then dependency_levels else None) [] sched.

(** *** The parallel branch *)

(** The entry of a file in the result map of [run_parallel_upgrade]:
    what the task of the file leaves, with the arguments handed on. *)
Lemma run_parallel_upgrade_entries (P : string → FileUpgradeResult → Prop)
    files func dependency_levels args sched :
  (∀ l i f, f ∈ files →
     P f (batch_entry f (task_value f (task func args sched l i f)))) →
  let results := run_parallel_upgrade files func dependency_levels args sched in
  (∀ f, f ∈ files ↔ is_Some (results !! f)) ∧ map_Forall P results.
Proof.
  intros HP results. unfold results, run_parallel_upgrade.
  destruct dependency_levels as [levels|]; [case_decide|].
  - split.
    + intros f. by rewrite <-elem_of_dom, process_batch_dom, elem_of_list_to_set.
    + apply (process_batch_Forall P). intros i f. apply HP.
  - split.
    + intros f.
      by rewrite <-elem_of_dom, process_by_levels_dom, elem_of_list_to_set.
    + apply (process_by_levels_Forall P). intros l i f. apply HP.
  - split.
    + intros f. by rewrite <-elem_of_dom, process_batch_dom, elem_of_list_to_set.
    + apply (process_batch_Forall P). intros i f. apply HP.
Qed.

(** X23: the call of [run_parallel_upgrade] in the parallel branch of
    [upgrade_repo] passes [process_with_cache], which needs the file
    and the output path, and no further positional argument.
    [run_parallel_upgrade] hands its [*args] on unchanged, so every
    task that gets past the rate limiter calls [process_with_cache]
    with the file alone, and the call raises before [upgrade_file] is
    reached.  The result map has an entry for every file and for no
    other path, and every entry is a failure with zero attempts, no
    API changes, an error message and no diff, with or without
    dependency levels; when the rate limiter raises for no task, the
    message of every entry is that of the failed call. *)
Theorem parallel_branch_fails_every_file (use_cache respect_dependencies : bool)
    (files_to_process : list string)
    (dependency_levels : option (gmap string nat)) (sched : schedule) :
  let results :=
    parallel_branch_call use_cache respect_dependencies files_to_process
      dependency_levels sched in
  (∀ f, f ∈ files_to_process ↔ is_Some (results !! f)) ∧
  (∀ f result, results !! f = Some result →
     ∃ msg, result = mkResult f false 0 [] (Some msg) None) ∧
  ((∀ l i f, limiter_raises sched l i f = None) →
   ∀ f, f ∈ files_to_process →
     results !! f
     = Some (mkResult f false 0 []
               (Some ("Processing error: " +:+ arity_message [f])) None)).
Proof.
  intros results.
  set (P := λ (f : string) (result : FileUpgradeResult),
              (∃ msg, result = mkResult f false 0 [] (Some msg) None) ∧
              ((∀ l i f, limiter_raises sched l i f = None) →
               result = mkResult f false 0 []
                          (Some ("Processing error: " +:+ arity_message [f]))
                          None)).
  destruct (run_parallel_upgrade_entries P files_to_process
              (process_with_cache use_cache)
              (if respect_dependencies then dependency_levels else None)
              [] sched) as [Hdom Hall].
  { intros l i f _. unfold P, task.
    destruct (limiter_raises sched l i f) as [msg|] eqn:Hlim; simpl.
    - split; [by exists msg|]. intros Hnone. by rewrite Hnone in Hlim.
    - split; [by eexists|done]. }
  fold (parallel_branch_call use_cache respect_dependencies files_to_process
          dependency_levels sched) in Hdom, Hall.
  fold results in Hdom, Hall.
  split; [exact Hdom|]. split.
  - intros f result Hf. by destruct (Hall f result Hf).
  - intros Hnone f Hf. destruct (proj1 (Hdom f) Hf) as [result Hresult].
    destruct (Hall f result Hresult) as [_ Hmsg]. by rewrite Hresult, Hmsg.
Qed.

(** *** The sequential branch *)

Lemma process_with_cache_in_place now file_path s :
  CacheFacts.in_cache_dir new_repo file_path = false →
  ∃ result s',
    process_with_cache true now [file_path; file_path] s = (inl result, s') ∧
    (∀ p, p ≠ file_path → CacheFacts.in_cache_dir new_repo p = false →
       fs (run_world s') !! p = fs (run_world s) !! p) ∧
    ∃ e, run_records s' = <[relpath file_path := e]> (run_records s) ∧
      CacheManager.success e = Some (success result) ∧
      CacheManager.input_hash e
        = Some (CacheManager._get_file_hash md5 (fs (run_world s')) file_path) ∧
      (success result = true → is_Some (fs (run_world s') !! file_path)).
Proof.
  intros Hout. unfold process_with_cache, process_with_cache_body.
  destruct (upgrade_file_spec call_llm build_prompt validate_code
              validate_syntax extract_api_changes generate_diff basename
              ast_parse should_skip_for_upgrade MAX_RETRIES MAX_RETRIES_CHUNK
              file_path file_path (run_world s))
    as (result & w1 & -> & Hwrites & _ & Hsucc & _).
  assert (∀ st upgraded_code p,
    CacheFacts.in_cache_dir new_repo p = false →
    CacheManager.disk
      (CacheManager.cache_result new_repo relpath md5 dumps st file_path
         result upgraded_code now) !! p = CacheManager.disk st !! p) as Hdisk.
  { intros st upgraded_code p Hp. apply CacheFacts.cache_result_disk.
    - intros ->. by rewrite CacheFacts.cache_file_in_cache_dir in Hp.
    - intros ->.
      by rewrite CacheFacts.code_cache_path_in_cache_dir in Hp. }
  assert (∀ st upgraded_code,
    ∃ e, CacheManager.cache_data
           (CacheManager.cache_result new_repo relpath md5 dumps st file_path
              result upgraded_code now)
         = <[relpath file_path := e]> (CacheManager.cache_data st) ∧
      CacheManager.success e = Some (success result) ∧
      CacheManager.input_hash e
        = Some (CacheManager._get_file_hash md5 (CacheManager.disk st)
                  file_path)) as Hdata.
  { intros st upgraded_code. unfold CacheManager.cache_result.
    destruct upgraded_code as [[|c r]|]; simpl;
      [|destruct (success result) eqn:E; simpl|]; by eexists. }
  assert (∀ upgraded_code,
    let st := CacheManager.mkState (run_records s) (fs w1) in
    let s' := after_cache w1
                (CacheManager.cache_result new_repo relpath md5 dumps st
                   file_path result upgraded_code now) in
    (∀ p, p ≠ file_path → CacheFacts.in_cache_dir new_repo p = false →
       fs (run_world s') !! p = fs (run_world s) !! p) ∧
    ∃ e, run_records s' = <[relpath file_path := e]> (run_records s) ∧
      CacheManager.success e = Some (success result) ∧
      CacheManager.input_hash e
        = Some (CacheManager._get_file_hash md5 (fs (run_world s')) file_path) ∧
      (success result = true → is_Some (fs (run_world s') !! file_path)))
    as Hcase.
  { intros upgraded_code st s'. split.
    - intros p Hp Hpo. unfold s', after_cache. cbn [run_world run_records fs].
      rewrite Hdisk by done. by apply Hwrites.
    - destruct (Hdata st upgraded_code) as (e & He & Hes & Heh).
      exists e. unfold s', after_cache. cbn [run_world run_records fs].
      split; [done|]. split; [done|].
      unfold CacheManager._get_file_hash in *. rewrite Hdisk by done.
      split; [done|]. intros Hs. by apply Hsucc. }
  destruct (success result) eqn:Hs.
  - destruct (Hsucc eq_refl) as (_ & [upgraded_code Hcode] & _).
    rewrite Hcode. eexists _, _. split; [done|]. rewrite Hs.
    apply (Hcase (Some (CacheManager.read_text upgraded_code))).
  - eexists _, _. split; [done|]. rewrite Hs. apply (Hcase None).
Qed.

(** X24: a sequential, in-place call of [process_with_cache] with the
    cache on, for a file outside the cache directory, returns a result
    and never raises.  After a success the record of the file holds the
    hash of the upgraded text, not of the text that was read: the file
    is a cache hit as it stands and a miss once its content has another
    hash.  Files other than the upgraded one and those of the cache
    directory are left as they were. *)
Theorem in_place_upgrade_caches_the_upgraded_file (now file_path : string)
    (s : run_state) :
  CacheFacts.in_cache_dir new_repo file_path = false →
  ∃ result s',
    process_with_cache true now [file_path; file_path] s = (inl result, s') ∧
    (∀ p, p ≠ file_path → CacheFacts.in_cache_dir new_repo p = false →
       fs (run_world s') !! p = fs (run_world s) !! p) ∧
    (success result = true →
     ∃ upgraded_code,
       fs (run_world s') !! file_path = Some upgraded_code ∧
       CacheManager.is_file_cached relpath md5 (cache_view s') file_path
         = true ∧
       ∀ content, md5 content ≠ md5 upgraded_code →
         CacheManager.is_file_cached relpath md5
           (CacheManager.mkState (run_records s')
              (<[file_path := content]> (fs (run_world s')))) file_path
           = false).
Proof.
  intros Hout.
  destruct (process_with_cache_in_place now file_path s Hout)
    as (result & s' & Heq & Hother & e & Hrec & Hes & Heh & Hfile).
  exists result, s'. split; [done|]. split; [done|]. intros Hs.
  destruct (Hfile Hs) as [upgraded_code Hcode]. exists upgraded_code.
  split; [done|].
  unfold CacheManager.is_file_cached, cache_view.
  cbn [CacheManager.cache_data CacheManager.disk].
  rewrite Hrec, lookup_insert_eq, Heh, Hes, Hs.
  unfold CacheManager._get_file_hash. rewrite Hcode. cbn [default negb].
  split.
  - by rewrite decide_False by (by intros ?).
  - intros content Hne. rewrite lookup_insert_eq. by rewrite decide_True.
Qed.

End upgrade_repo.

(** *** The theorems on a concrete run *)

Definition demo_process_with_cache (use_cache : bool) (now : string)
    (args : list string) (s : run_state)
    : (FileUpgradeResult + string) * run_state :=
  process_with_cache demo_llm demo_prompt demo_validate_code
    demo_validate_syntax demo_changes demo_diff demo_basename demo_skip
    demo_parse 5 3 "/repo" CacheManager.demo_relpath CacheManager.demo_md5
    CacheManager.demo_dumps
    (λ _, "missing 1 required positional argument: 'output_path'")
    (λ _, "exception") (λ _, "No such file or directory")
    use_cache now args s.

Definition demo_run : run_state :=
  mkRun (mkWorld (<["/repo/a.py" := "x = 1"]> ∅) []) ∅.

Lemma in_place_upgrade_caches_the_upgraded_file_witness :
  CacheFacts.in_cache_dir "/repo" "/repo/a.py" = false ∧
  ∃ result s',
    demo_process_with_cache true "2025-01-01T00:00:00"
      ["/repo/a.py"; "/repo/a.py"] demo_run = (inl result, s') ∧
    fs (run_world s') !! "/repo/b.py" = None.
Proof.
  split; [reflexivity|].
  destruct (in_place_upgrade_caches_the_upgraded_file demo_llm demo_prompt
              demo_validate_code demo_validate_syntax demo_changes demo_diff
              demo_basename demo_skip demo_parse 5 3 "/repo"
              CacheManager.demo_relpath CacheManager.demo_md5
              CacheManager.demo_dumps CacheManager.demo_relpath_relative
              (λ _, "missing 1 required positional argument: 'output_path'")
              (λ _, "exception") (λ _, "No such file or directory")
              "2025-01-01T00:00:00" "/repo/a.py" demo_run eq_refl)
    as (result & s' & Heq & Hother & _).
  exists result, s'. split; [exact Heq|].
  rewrite (Hother "/repo/b.py"); [reflexivity|discriminate|reflexivity].
Defined.

End RepoUpgrader.
